(** * Port forwarding for Kubernetes resources

    A shallow embedding of [core/src/plugins/kubernetes/port-forward.ts]:

    - [Resolver]: [getForwardablePorts], the pure function deriving the
      forwardable ports of a list of Kubernetes resources;
    - [Forward]: the registry of port forwards, [getPortForward] with its
      registration lock and the event handlers of the spawned [kubectl]
      process, [killPortForward] and the cleanup function.

    JavaScript numbers that hold ports and exit codes are integers ([Z]),
    objects used as dictionaries with string keys are finite maps or, where
    the enumeration order is observable, association lists in insertion
    order.  A [TypeError] raised by a property access on [undefined] is the
    result [None]. *)

From Stdlib Require Import ZArith List String Ascii Bool Lia DecimalString.
From Stdlib Require DecimalPos DecimalZ.
From stdpp Require Import gmap strings list.
Import ListNotations.

Local Open Scope Z_scope.
Local Open Scope string_scope.

(** ** Forwardable ports *)

Module Resolver.

(** [IntOrString]: the target port of a Service port is a number or the name
    of a container port. *)
Inductive IntOrString :=
| IntVal (n : Z)
| StrVal (s : string).

Record V1ServicePort := {
  sp_name : option string;
  sp_port : Z;
  sp_targetPort : option IntOrString
}.

Record V1ContainerPort := {
  cp_name : option string;
  containerPort : Z
}.

Record V1Container := { c_ports : option (list V1ContainerPort) }.

Record V1PodSpec := { containers : list V1Container }.

Record V1ObjectMeta := { labels : option (gmap string string) }.

Record V1PodTemplateSpec := {
  pt_metadata : option V1ObjectMeta;
  pt_spec : option V1PodSpec
}.

(** The [spec] of a resource is an untyped object: the fields that the
    resolver reads after casting to [V1Service] and [V1Deployment]. *)
Record ResourceSpec := {
  ports : option (list V1ServicePort);
  selector : option (gmap string string);
  template : option V1PodTemplateSpec
}.

(** [KubernetesResource]: [apiVersion], [kind] and [metadata.name] are
    required by the type, [spec] is not. *)
Record KubernetesResource := {
  apiVersion : string;
  kind : string;
  name : string;
  spec : option ResourceSpec
}.

Record ForwardablePort := {
  fp_name : option string;
  protocol : string;
  targetName : string;
  targetPort : Z
}.

(** JavaScript truthiness of a value read from [servicePort.targetPort]. *)
Definition truthy (v : option IntOrString) : bool :=
  match v with
  | None => false
  | Some (IntVal n) => negb (n =? 0)%Z
  | Some (StrVal s) => negb (s =? "")%string
  end.

(** [v === n] for a number [n]. *)
Definition strictEq (v : option IntOrString) (n : Z) : bool :=
  match v with
  | Some (IntVal m) => (m =? n)%Z
  | _ => false
  end.

Section WithUtil.

(** [isBuiltIn] and [matchSelector] are imported from [./util]. *)
Variable isBuiltIn : KubernetesResource -> bool.
Variable matchSelector : gmap string string -> gmap string string -> bool.

Definition isServiceb (r : KubernetesResource) : bool :=
  isBuiltIn r && (kind r =? "Service")%string.

Definition isWorkloadb (r : KubernetesResource) : bool :=
  (isBuiltIn r && (kind r =? "Deployment")%string) || (kind r =? "DaemonSet")%string.

Definition serviceEntry (service : KubernetesResource) (portSpec : V1ServicePort)
  : ForwardablePort :=
  {| fp_name := sp_name portSpec;
     protocol := "TCP";
     targetName := "Service/" +:+ name service;
     targetPort := sp_port portSpec |}.

Definition workloadEntry (workload : KubernetesResource) (portSpec : V1ContainerPort)
  : ForwardablePort :=
  {| fp_name := cp_name portSpec;
     protocol := "TCP";
     targetName := kind workload +:+ "/" +:+ name workload;
     targetPort := containerPort portSpec |}.

(** [for (const portSpec of service.spec!.ports || [])]: the access throws
    when the service has no [spec]. *)
Definition servicePorts (service : KubernetesResource) : option (list ForwardablePort) :=
  s ← spec service;
  Some (map (serviceEntry service) (default [] (ports s))).

(** The inner loop of [matchesService]. *)
Fixpoint anyTargetPort (servicePorts : list V1ServicePort) (portSpec : V1ContainerPort)
  : bool :=
  match servicePorts with
  | [] => false
  | servicePort :: rest =>
      let serviceTargetPort := sp_targetPort servicePort in
      if truthy serviceTargetPort && strictEq serviceTargetPort (containerPort portSpec)
      then true
      else anyTargetPort rest portSpec
  end.

Fixpoint matchesService (services : list KubernetesResource)
    (podTemplate : V1PodTemplateSpec) (portSpec : V1ContainerPort) : bool :=
  match services with
  | [] => false
  | service :: rest =>
      if negb (matchSelector (default ∅ (spec service ≫= selector))
                             (default ∅ (pt_metadata podTemplate ≫= labels)))
      then matchesService rest podTemplate portSpec
      else if anyTargetPort (default [] (spec service ≫= ports)) portSpec
      then true
      else matchesService rest podTemplate portSpec
  end.

Definition portSpecsOf (podTemplate : V1PodTemplateSpec) : list V1ContainerPort :=
  let containers := default [] (containers <$> pt_spec podTemplate) in
  flat_map (fun c => default [] (c_ports c)) containers.

(** The body of [for (const workload of workloads)]: [workload.spec!.template]
    throws without a [spec], [podTemplate.spec] throws without a template. *)
Definition workloadPorts (services : list KubernetesResource)
    (workload : KubernetesResource) : option (list ForwardablePort) :=
  s ← spec workload;
  podTemplate ← template s;
  Some (map (workloadEntry workload)
          (List.filter (fun portSpec => negb (matchesService services podTemplate portSpec))
             (portSpecsOf podTemplate))).

Definition getForwardablePorts (resources : list KubernetesResource)
  : option (list ForwardablePort) :=
  let services := List.filter isServiceb resources in
  fromServices ← mapM servicePorts services;
  let workloads := List.filter isWorkloadb resources in
  fromWorkloads ← mapM (workloadPorts services) workloads;
  Some (concat fromServices ++ concat fromWorkloads)%list.

(** *** Vocabulary for the statements about [getForwardablePorts] *)

(** [service.spec?.selector || {}], [podTemplate.metadata?.labels || {}] and
    [service.spec?.ports || []]. *)
Definition selectorOf (service : KubernetesResource) : gmap string string :=
  default ∅ (spec service ≫= selector).

Definition labelsOf (podTemplate : V1PodTemplateSpec) : gmap string string :=
  default ∅ (pt_metadata podTemplate ≫= labels).

Definition declaredPorts (service : KubernetesResource) : list V1ServicePort :=
  default [] (spec service ≫= ports).

Definition podTemplateOf (workload : KubernetesResource) : option V1PodTemplateSpec :=
  spec workload ≫= template.

(** A target port that is no number other than zero: a named port, the
    number 0, or none declared. *)
Definition namedOrZero (v : option IntOrString) : Prop :=
  match v with
  | Some (IntVal n) => n = 0
  | _ => True
  end.

(** [service] reaches the container port: its selector matches the labels of
    the pod template and one of its ports declares the container port, a
    number other than zero, as its target. *)
Definition Suppresses (service : KubernetesResource)
    (podTemplate : V1PodTemplateSpec) (portSpec : V1ContainerPort) : Prop :=
  matchSelector (selectorOf service) (labelsOf podTemplate) = true
  /\ exists servicePort,
       In servicePort (declaredPorts service)
       /\ sp_targetPort servicePort = Some (IntVal (containerPort portSpec))
       /\ containerPort portSpec <> 0.

Definition Suppressed (resources : list KubernetesResource)
    (podTemplate : V1PodTemplateSpec) (portSpec : V1ContainerPort) : Prop :=
  exists service,
    In service resources /\ isServiceb service = true
    /\ Suppresses service podTemplate portSpec.

(** The suppression condition in the words of the specification: some
    Service whose selector matches has a port whose target port equals the
    container port. *)
Definition ReachedByService (resources : list KubernetesResource)
    (podTemplate : V1PodTemplateSpec) (portSpec : V1ContainerPort) : Prop :=
  exists service servicePort,
    In service resources /\ kind service = "Service"
    /\ matchSelector (selectorOf service) (labelsOf podTemplate) = true
    /\ In servicePort (declaredPorts service)
    /\ sp_targetPort servicePort = Some (IntVal (containerPort portSpec)).

(** The resources on which no property access of the resolver throws. *)
Definition wellFormed (resources : list KubernetesResource) : Prop :=
  forall r, In r resources ->
    (isServiceb r = true -> is_Some (spec r))
    /\ (isWorkloadb r = true -> is_Some (podTemplateOf r)).

End WithUtil.

(** Modelled from the spec: the label-selector matching utility
    [matchSelector] of [./util], "a strict subset test: every selector
    key/value must appear in the pod labels". *)
Definition matchSelector_subset (selector labels : gmap string string) : bool :=
  bool_decide (selector ⊆ labels).

(** An instance of [isBuiltIn] for concrete resource lists: the core and
    [apps] API groups are built in. *)
Definition coreApiVersion (r : KubernetesResource) : bool :=
  (apiVersion r =? "v1")%string || (apiVersion r =? "apps/v1")%string.

Definition mkService (nm : string) (sel : option (gmap string string))
    (ps : option (list V1ServicePort)) : KubernetesResource :=
  {| apiVersion := "v1"; kind := "Service"; name := nm;
     spec := Some {| ports := ps; selector := sel; template := None |} |}.

Definition mkWorkload (k nm : string) (lbls : option (gmap string string))
    (cps : list V1ContainerPort) : KubernetesResource :=
  {| apiVersion := "apps/v1"; kind := k; name := nm;
     spec := Some {| ports := None; selector := None;
                     template := Some {| pt_metadata := Some {| labels := lbls |};
                                         pt_spec := Some {| containers :=
                                           [ {| c_ports := Some cps |} ] |} |} |} |}.

Definition appWeb : gmap string string := {[ "app" := "web" ]}.

Definition webService : KubernetesResource :=
  mkService "web" (Some appWeb)
    (Some [ {| sp_name := None; sp_port := 8080; sp_targetPort := Some (IntVal 8080) |} ]).

Definition webDeployment : KubernetesResource :=
  mkWorkload "Deployment" "web" (Some appWeb)
    [ {| cp_name := None; containerPort := 8080 |} ].

(** A Service that targets port 0 and a Deployment that declares it. *)
Definition zeroService : KubernetesResource :=
  mkService "web" (Some appWeb)
    (Some [ {| sp_name := None; sp_port := 80; sp_targetPort := Some (IntVal 0) |} ]).

Definition zeroPort : V1ContainerPort := {| cp_name := None; containerPort := 0 |}.

Definition zeroDeployment : KubernetesResource :=
  mkWorkload "Deployment" "web" (Some appWeb) [ zeroPort ].

Definition zeroTemplate : V1PodTemplateSpec :=
  {| pt_metadata := Some {| labels := Some appWeb |};
     pt_spec := Some {| containers := [ {| c_ports := Some [ zeroPort ] |} ] |} |}.

(** A Service without a selector, and one whose only target port is named. *)
Definition headlessService : KubernetesResource :=
  mkService "db" None
    (Some [ {| sp_name := Some "pg"; sp_port := 5432; sp_targetPort := None |} ]).

Definition namedService : KubernetesResource :=
  mkService "web" (Some appWeb)
    (Some [ {| sp_name := None; sp_port := 80; sp_targetPort := Some (StrVal "http") |} ]).

(** A Service that has no [spec]. *)
Definition speclessService : KubernetesResource :=
  {| apiVersion := "v1"; kind := "Service"; name := "broken"; spec := None |}.

End Resolver.

(** ** The registry of port forwards and [getPortForward] *)

Module Forward.

(** [PortForward]: [proc] is the handle of the [ChildProcess] object; the
    mutable fields of that object live in the process table of the state,
    so every copy of a descriptor sees the same [killed] flag. *)
Record PortForward := {
  targetResource : string;
  port : Z;
  localPort : Z;
  proc : nat
}.

(** [new RuntimeError(message, { code, portForward })]. *)
Record RuntimeError := {
  message : string;
  detail_code : option Z;
  detail_portForward : PortForward
}.

(** State of the promise returned by the body of [getPortForward]. *)
Inductive Promise :=
| Pending
| Fulfilled (fwd : PortForward)
| Rejected (err : RuntimeError).

(** A spawned [kubectl port-forward] process with the variables that the
    handlers registered on it close over. *)
Record Tunnel := {
  portForward : PortForward;
  killed : bool;
  resolved : bool;
  output : string;
  sleeping : option Z;
  promise : Promise
}.

Inductive CallStatus :=
| Queued
| Creating (p : nat)
| Reused (registered : PortForward).

(** One invocation of [getPortForward]. *)
Record Call := {
  c_targetResource : string;
  c_port : Z;
  c_status : CallStatus
}.

(** [registeredPortForwards] is enumerated by [Object.values]: an association
    list in insertion order.  [lock] is the tunnel whose promise the function
    running under [portForwardRegistrationLock] returned; [queue] holds the
    calls waiting for the lock, oldest first. *)
Record State := {
  registeredPortForwards : list (string * PortForward);
  tunnels : list Tunnel;
  calls : list Call;
  queue : list nat;
  lock : option nat;
  uncaught : list string
}.

Definition init : State :=
  {| registeredPortForwards := []; tunnels := []; calls := []; queue := [];
     lock := None; uncaught := [] |}.

Inductive Event :=
| GetPortForward (targetResource : string) (port : Z)
| Close (p : nat) (code : option Z)
| Error (p : nat) (error : string)
| Stdout (p : nat) (line : string)
| Stderr (p : nat) (line : string)
| Timeout (p : nat)
| KillPortForward (targetResource : string) (targetPort : Z)
| Cleanup.

(** The spec's view of a tunnel whose process has not closed. *)
Inductive Status := StatusPending | StatusActive.

Definition status (t : Tunnel) : Status :=
  if resolved t then StatusActive else StatusPending.

(** [after ev p t t']: how event [ev] may change tunnel [p].  The descriptor
    is fixed; once the readiness marker was seen, only the settle timer
    touches the promise. *)
Definition after (ev : Event) (p : nat) (t t' : Tunnel) : Prop :=
  portForward t' = portForward t
  /\ (killed t = true -> killed t' = true)
  /\ (resolved t = true ->
      resolved t' = true
      /\ (ev <> Timeout p -> promise t' = promise t /\ sleeping t' = sleeping t)).

(** *** Strings *)

Definition showZ (n : Z) : string := NilZero.string_of_int (Z.to_int n).

(** [`${code}`] for an exit code that is [null] when a signal ended the
    process. *)
Definition showCode (code : option Z) : string :=
  match code with
  | Some n => showZ n
  | None => "null"
  end.

Definition newline : string := String (ascii_of_nat 10) EmptyString.

(** [hay.includes(needle)]. *)
Fixpoint includes (needle hay : string) : bool :=
  String.prefix needle hay
  || match hay with
     | EmptyString => false
     | String _ rest => includes needle rest
     end.

Definition getPortForwardKey (targetResource : string) (port : Z) : string :=
  targetResource +:+ ":" +:+ showZ port.

Definition keyOf (fwd : PortForward) : string :=
  getPortForwardKey (targetResource fwd) (port fwd).

(** *** The registry object *)

Fixpoint regGet (key : string) (reg : list (string * PortForward))
  : option PortForward :=
  match reg with
  | [] => None
  | (k, v) :: rest => if (key =? k)%string then Some v else regGet key rest
  end.

Fixpoint regSet (key : string) (v : PortForward) (reg : list (string * PortForward))
  : list (string * PortForward) :=
  match reg with
  | [] => [(key, v)]
  | (k, w) :: rest =>
      if (key =? k)%string then (k, v) :: rest else (k, w) :: regSet key v rest
  end.

Definition regDelete (key : string) (reg : list (string * PortForward))
  : list (string * PortForward) :=
  List.filter (fun kv => negb (key =? fst kv)%string) reg.

(** *** State updates *)

Definition setRegistered (reg : list (string * PortForward)) (s : State) : State :=
  {| registeredPortForwards := reg; tunnels := tunnels s; calls := calls s;
     queue := queue s; lock := lock s; uncaught := uncaught s |}.

Definition setTunnels (ts : list Tunnel) (s : State) : State :=
  {| registeredPortForwards := registeredPortForwards s; tunnels := ts;
     calls := calls s; queue := queue s; lock := lock s; uncaught := uncaught s |}.

Definition setCalls (cs : list Call) (s : State) : State :=
  {| registeredPortForwards := registeredPortForwards s; tunnels := tunnels s;
     calls := cs; queue := queue s; lock := lock s; uncaught := uncaught s |}.

Definition setQueue (q : list nat) (s : State) : State :=
  {| registeredPortForwards := registeredPortForwards s; tunnels := tunnels s;
     calls := calls s; queue := q; lock := lock s; uncaught := uncaught s |}.

Definition setLock (l : option nat) (s : State) : State :=
  {| registeredPortForwards := registeredPortForwards s; tunnels := tunnels s;
     calls := calls s; queue := queue s; lock := l; uncaught := uncaught s |}.

Definition setUncaught (u : list string) (s : State) : State :=
  {| registeredPortForwards := registeredPortForwards s; tunnels := tunnels s;
     calls := calls s; queue := queue s; lock := lock s; uncaught := u |}.

Definition setKilled (b : bool) (t : Tunnel) : Tunnel :=
  {| portForward := portForward t; killed := b; resolved := resolved t;
     output := output t; sleeping := sleeping t; promise := promise t |}.

Definition setResolved (b : bool) (t : Tunnel) : Tunnel :=
  {| portForward := portForward t; killed := killed t; resolved := b;
     output := output t; sleeping := sleeping t; promise := promise t |}.

Definition setOutput (o : string) (t : Tunnel) : Tunnel :=
  {| portForward := portForward t; killed := killed t; resolved := resolved t;
     output := o; sleeping := sleeping t; promise := promise t |}.

Definition setSleeping (d : option Z) (t : Tunnel) : Tunnel :=
  {| portForward := portForward t; killed := killed t; resolved := resolved t;
     output := output t; sleeping := d; promise := promise t |}.

Definition setPromise (v : Promise) (t : Tunnel) : Tunnel :=
  {| portForward := portForward t; killed := killed t; resolved := resolved t;
     output := output t; sleeping := sleeping t; promise := v |}.

Definition setStatus (st : CallStatus) (c : Call) : Call :=
  {| c_targetResource := c_targetResource c; c_port := c_port c; c_status := st |}.

(** [proc.killed] read through a descriptor. *)
Definition killedOf (s : State) (p : nat) : bool :=
  match tunnels s !! p with
  | Some t => killed t
  | None => true
  end.

(** What the caller of [getPortForward] has observed so far. *)
Definition result (s : State) (c : Call) : Promise :=
  match c_status c with
  | Queued => Pending
  | Creating p =>
      match tunnels s !! p with
      | Some t => promise t
      | None => Pending
      end
  | Reused registered => Fulfilled registered
  end.

(** *** The event loop

    The program is single-threaded: a state changes by one event at a time,
    a call of [getPortForward], an event emitted by a child process, the
    timer of [sleep(250)], a call of [killPortForward] or the cleanup
    function.  [portForwardRegistrationLock.acquire] runs its function at
    once when the lock is free and queues it otherwise; the lock is released
    when the promise returned by the function settles.  The function reads
    the registry before its first [await], so its decision to reuse or to
    create is taken on entry; the awaits on [getPort()] and on the path of
    [kubectl] only delay the spawn and are not modelled as turns of their
    own.  Logging and the arguments of [kubectl] do not take part. *)

Section WithProcesses.

(** [getPort n] is the free local port that the [n]-th call of [getPort()]
    returns; [killError p] is the exception that [proc.kill()] raises on
    process [p], if it raises one. *)
Variable getPort : nat -> Z.
Variable killError : nat -> option string.

(** [proc.kill()]: sets [proc.killed] once the signal is sent. *)
Definition kill (p : nat) (s : State) : State * option string :=
  match killError p with
  | Some e => (s, Some e)
  | None =>
      match tunnels s !! p with
      | Some t => (setTunnels (<[p := setKilled true t]> (tunnels s)) s, None)
      | None => (s, None)
      end
  end.

(** [!proc.killed && proc.kill()]. *)
Definition killUnlessKilled (p : nat) (s : State) : State * option string :=
  if killedOf s p then (s, None) else kill p s.

(** [resolve] and [reject]: only the first settlement of a promise counts;
    the lock is released when the promise it waits for settles. *)
Definition settle (p : nat) (v : Promise) (s : State) : State :=
  match tunnels s !! p with
  | Some t =>
      match promise t with
      | Pending =>
          let s1 := setTunnels (<[p := setPromise v t]> (tunnels s)) s in
          match lock s with
          | Some q => if Nat.eqb q p then setLock None s1 else s1
          | None => s1
          end
      | _ => s
      end
  | None => s
  end.

Definition exitMessage (code : option Z) (out : string) : string :=
  "Port forward exited with code " +:+ showCode code
    +:+ " before establishing connection:" +:+ newline +:+ newline +:+ out.

(** The [RuntimeError] that the close handler rejects with. *)
Definition exitError (code : option Z) (t : Tunnel) : RuntimeError :=
  {| message := exitMessage code (output t);
     detail_code := code;
     detail_portForward := portForward t |}.

(** [proc.on("close", ...)]. *)
Definition onClose (p : nat) (code : option Z) (s : State) : State * option string :=
  match tunnels s !! p with
  | Some t =>
      let key := keyOf (portForward t) in
      let s1 :=
        match regGet key (registeredPortForwards s) with
        | Some _ => setRegistered (regDelete key (registeredPortForwards s)) s
        | None => s
        end in
      if negb (resolved t)
      then (settle p (Rejected (exitError code t)) s1, None)
      else (s1, None)
  | None => (s, None)
  end.

(** [proc.on("error", ...)]. *)
Definition onError (p : nat) (error : string) (s : State) : State * option string :=
  match tunnels s !! p with
  | Some _ =>
      match killUnlessKilled p s with
      | (s1, Some e) => (s1, Some e)
      | (s1, None) => (s1, Some error)
      end
  | None => (s, None)
  end.

(** [proc.stdout.on("data", ...)]. *)
Definition onStdout (p : nat) (line : string) (s : State) : State * option string :=
  match tunnels s !! p with
  | Some t =>
      if resolved t then (s, None)
      else
        let t1 := setOutput (output t +:+ line) t in
        if includes "Forwarding from " line
        then
          let key := keyOf (portForward t) in
          let t2 := setSleeping (Some 250) (setResolved true t1) in
          (setRegistered (regSet key (portForward t) (registeredPortForwards s))
             (setTunnels (<[p := t2]> (tunnels s)) s), None)
        else (setTunnels (<[p := t1]> (tunnels s)) s, None)
  | None => (s, None)
  end.

Definition fatal (line : string) : bool :=
  includes "error forwarding port" line
  || includes "unable to forward" line
  || includes "error upgrading connection" line.

(** [proc.stderr.on("data", ...)]. *)
Definition onStderr (p : nat) (line : string) (s : State) : State * option string :=
  match tunnels s !! p with
  | Some t =>
      let s1 := setTunnels (<[p := setOutput (output t +:+ line) t]> (tunnels s)) s in
      if fatal line then killUnlessKilled p s1 else (s1, None)
  | None => (s, None)
  end.

(** [sleep(250).then(() => resolve(portForward))]. *)
Definition onTimeout (p : nat) (s : State) : State * option string :=
  match tunnels s !! p with
  | Some t =>
      match sleeping t with
      | Some _ =>
          (settle p (Fulfilled (portForward t))
             (setTunnels (<[p := setSleeping None t]> (tunnels s)) s), None)
      | None => (s, None)
      end
  | None => (s, None)
  end.

Definition killPortForward (targetResource : string) (targetPort : Z) (s : State)
  : State * option string :=
  let key := getPortForwardKey targetResource targetPort in
  match regGet key (registeredPortForwards s) with
  | Some fwd => killUnlessKilled (proc fwd) s
  | None => (s, None)
  end.

(** The loop of the cleanup function over a snapshot of the registry's
    values; an exception leaves the loop. *)
Fixpoint killAll (values : list PortForward) (s : State) : State * option string :=
  match values with
  | [] => (s, None)
  | fwd :: rest =>
      match killPortForward (targetResource fwd) (port fwd) s with
      | (s1, Some e) => (s1, Some e)
      | (s1, None) => killAll rest s1
      end
  end.

Definition cleanup (s : State) : State * option string :=
  killAll (map snd (registeredPortForwards s)) s.

(** The cleanup loop seen through the process handles of the registered
    descriptors. *)
Fixpoint killEach (procs : list nat) (s : State) : State * option string :=
  match procs with
  | [] => (s, None)
  | p :: rest =>
      match killUnlessKilled p s with
      | (s1, Some e) => (s1, Some e)
      | (s1, None) => killEach rest s1
      end
  end.

(** [killedOnly s s']: [s'] is [s] with the [killed] flag set on some of the
    processes that were not killed. *)
Definition killedOnly (s s' : State) : Prop :=
  registeredPortForwards s' = registeredPortForwards s
  /\ calls s' = calls s /\ queue s' = queue s /\ lock s' = lock s
  /\ uncaught s' = uncaught s
  /\ length (tunnels s') = length (tunnels s)
  /\ forall q t, tunnels s !! q = Some t ->
       tunnels s' !! q = Some t
       \/ (killed t = false /\ tunnels s' !! q = Some (setKilled true t)).

(** The registry holds no descriptor with a live process under the key. *)
Definition needsCreation (key : string) (s : State) : Prop :=
  match regGet key (registeredPortForwards s) with
  | Some registered => killedOf s (proc registered) = true
  | None => True
  end.

(** The function passed to [portForwardRegistrationLock.acquire], run for
    call [c] when the lock is free. *)
Definition enter (c : nat) (s : State) : State :=
  match calls s !! c with
  | Some call =>
      let key := getPortForwardKey (c_targetResource call) (c_port call) in
      let create :=
        let p := length (tunnels s) in
        let fwd := {| targetResource := c_targetResource call; port := c_port call;
                      localPort := getPort p; proc := p |} in
        let t := {| portForward := fwd; killed := false; resolved := false;
                    output := ""; sleeping := None; promise := Pending |} in
        setLock (Some p)
          (setCalls (<[c := setStatus (Creating p) call]> (calls s))
             (setTunnels (tunnels s ++ [t])%list s)) in
      match regGet key (registeredPortForwards s) with
      | Some registered =>
          if negb (killedOf s (proc registered))
          then setCalls (<[c := setStatus (Reused registered) call]> (calls s)) s
          else create
      | None => create
      end
  | None => s
  end.

(** Waiting calls enter one at a time, in order, while the lock is free. *)
Fixpoint dispatch (waiting : list nat) (s : State) : State :=
  match waiting with
  | [] => setQueue [] s
  | c :: rest =>
      match lock s with
      | Some _ => setQueue waiting s
      | None => dispatch rest (enter c s)
      end
  end.

Definition schedule (s : State) : State := dispatch (queue s) s.

Definition handle (ev : Event) (s : State) : State * option string :=
  match ev with
  | GetPortForward targetResource port =>
      (setQueue (queue s ++ [length (calls s)])%list
         (setCalls (calls s ++ [ {| c_targetResource := targetResource;
                                    c_port := port; c_status := Queued |} ])%list s),
       None)
  | Close p code => onClose p code s
  | Error p error => onError p error s
  | Stdout p line => onStdout p line s
  | Stderr p line => onStderr p line s
  | Timeout p => onTimeout p s
  | KillPortForward targetResource targetPort => killPortForward targetResource targetPort s
  | Cleanup => cleanup s
  end.

(** One turn of the event loop: the handler runs, an exception that leaves
    it is uncaught, then the lock hands over to the waiting calls. *)
Definition step (ev : Event) (s : State) : State :=
  let (s1, exn) := handle ev s in
  let s2 :=
    match exn with
    | Some e => setUncaught (uncaught s1 ++ [e])%list s1
    | None => s1
    end in
  schedule s2.

Definition run (evs : list Event) (s : State) : State :=
  fold_left (fun st ev => step ev st) evs s.

Definition reachable (s : State) : Prop := exists evs, s = run evs init.

(** What holds of every reachable state: the keys of the registry are
    distinct; a registered descriptor sits under its own key and belongs to
    a tunnel that has seen the readiness marker; a tunnel's descriptor carries
    the tunnel's own handle; the lock is held for every unsettled promise; a
    call that created a tunnel asked for the tunnel's target and port. *)
Record Inv (s : State) : Prop := {
  inv_keys : List.NoDup (map fst (registeredPortForwards s));
  inv_reg : forall k fwd,
      In (k, fwd) (registeredPortForwards s) ->
      k = keyOf fwd
      /\ exists t, tunnels s !! proc fwd = Some t /\ portForward t = fwd
                   /\ resolved t = true;
  inv_proc : forall p t, tunnels s !! p = Some t -> proc (portForward t) = p;
  inv_lock : forall p t,
      tunnels s !! p = Some t -> promise t = Pending -> lock s = Some p;
  inv_calls : forall c call p,
      calls s !! c = Some call -> c_status call = Creating p ->
      exists t, tunnels s !! p = Some t
                /\ portForward t = {| targetResource := c_targetResource call;
                                      port := c_port call;
                                      localPort := getPort p; proc := p |}
}.

(** The state during the creation of tunnel [p] for call [n] with target
    [target] and port [remote], while [k] later calls for the same key wait;
    [ready] tells whether the readiness marker was seen. *)
Definition window (target : string) (remote : Z) (n p : nat)
    (ready : bool) (k : nat) (s : State) : Prop :=
  let call0 := {| c_targetResource := target; c_port := remote; c_status := Queued |} in
  let fwd := {| targetResource := target; port := remote;
                localPort := getPort p; proc := p |} in
  reachable s /\ lock s = Some p
  /\ length (tunnels s) = S p
  /\ (exists t,
        tunnels s !! p = Some t /\ portForward t = fwd /\ killed t = false
        /\ promise t = Pending
        /\ if ready
           then resolved t = true /\ sleeping t = Some 250
                /\ regGet (keyOf fwd) (registeredPortForwards s) = Some fwd
           else resolved t = false)
  /\ length (calls s) = (n + 1 + k)%nat
  /\ (exists c0, calls s !! n = Some c0 /\ c_status c0 = Creating p)
  /\ queue s = seq (n + 1) k
  /\ forall i, (n + 1 <= i < n + 1 + k)%nat -> calls s !! i = Some call0.

End WithProcesses.



(** Instances of the two parameters for concrete runs: local ports handed
    out from 40000 on; a [kill] that never raises; a [kill] that raises on
    the first process only. *)
Definition samplePort (n : nat) : Z := 40000 + Z.of_nat n.

Definition noKillError (p : nat) : option string := None.


Definition readyLine : string := "Forwarding from 127.0.0.1:40000 -> 8080".

(** Two tunnels, created one after the other, both ready and resolved. *)
Definition twoTunnels : list Event :=
  [ GetPortForward "Service/web" 8080; Stdout 0 readyLine; Timeout 0;
    GetPortForward "Service/db" 5432;
    Stdout 1 "Forwarding from 127.0.0.1:40001 -> 5432"; Timeout 1 ].

End Forward.

(** ** The life of a tunnel, and what the reachable states keep *)

Module Lifecycle.
Import Forward.

(** The events whose handlers may call [proc.kill()] on process [p] outside
    the stderr handler: an error event of [p], [killPortForward] and the
    cleanup function. *)
Definition mayKill (p : nat) (ev : Event) : Prop :=
  match ev with
  | Error q _ => q = p
  | KillPortForward _ _ => True
  | Cleanup => True
  | _ => False
  end.

(** [Move p ev t t']: the ways in which one turn of the event loop on event
    [ev] changes tunnel [p] from [t] to [t']. *)
Inductive Move (p : nat) : Event -> Tunnel -> Tunnel -> Prop :=
| MoveStay ev t :
    Move p ev t t
| MoveKilled ev t :
    mayKill p ev -> killed t = false ->
    Move p ev t (setKilled true t)
| MoveStderr line t :
    Move p (Stderr p line) t (setOutput (output t +:+ line) t)
| MoveStderrKilled line t :
    fatal line = true -> killed t = false ->
    Move p (Stderr p line) t (setKilled true (setOutput (output t +:+ line) t))
| MoveStdout line t :
    resolved t = false -> includes "Forwarding from " line = false ->
    Move p (Stdout p line) t (setOutput (output t +:+ line) t)
| MoveReady line t :
    resolved t = false -> includes "Forwarding from " line = true ->
    Move p (Stdout p line) t
      (setSleeping (Some 250) (setResolved true (setOutput (output t +:+ line) t)))
| MoveRejected code t :
    resolved t = false -> promise t = Pending ->
    Move p (Close p code) t (setPromise (Rejected (exitError code t)) t)
| MoveTimer t :
    sleeping t <> None -> promise t <> Pending ->
    Move p (Timeout p) t (setSleeping None t)
| MoveFulfilled t :
    sleeping t <> None -> promise t = Pending ->
    Move p (Timeout p) t (setPromise (Fulfilled (portForward t)) (setSleeping None t)).

(** The tunnel that [getPortForward] spawns as process [p]. *)
Definition fresh (getPort : nat -> Z) (targetResource : string) (port : Z) (p : nat)
  : Tunnel :=
  {| portForward := {| targetResource := targetResource; port := port;
                       localPort := getPort p; proc := p |};
     killed := false; resolved := false; output := "";
     sleeping := None; promise := Pending |}.

(** What holds of every tunnel of a reachable state: its local port is the
    one [getPort] returned for it; the settle timer runs only after the
    readiness marker; a fulfilled promise holds the tunnel's own descriptor
    and a rejected one names it. *)
Definition sound (getPort : nat -> Z) (p : nat) (t : Tunnel) : Prop :=
  localPort (portForward t) = getPort p
  /\ proc (portForward t) = p
  /\ (forall d, sleeping t = Some d -> resolved t = true /\ d = 250)
  /\ match promise t with
     | Pending => True
     | Fulfilled fwd => fwd = portForward t /\ resolved t = true
     | Rejected err => detail_portForward err = portForward t
     end.

(** What holds of the calls of a reachable state: the waiting calls are
    exactly the queued ones, each once; a call that reused a descriptor found
    it under its own key, and the descriptor belongs to a tunnel that has seen
    the readiness marker. *)
Record Calls (s : State) : Prop := {
  calls_nodup : List.NoDup (queue s);
  calls_waiting : forall c,
      In c (queue s)
      <-> exists call, calls s !! c = Some call /\ c_status call = Queued;
  calls_reused : forall c call fwd,
      calls s !! c = Some call -> c_status call = Reused fwd ->
      keyOf fwd = getPortForwardKey (c_targetResource call) (c_port call)
      /\ exists t, tunnels s !! proc fwd = Some t /\ portForward t = fwd
                   /\ resolved t = true
}.

(** The lock is held for an unsettled creation only. *)
Definition held (s : State) : Prop :=
  forall p, lock s = Some p ->
    exists t, tunnels s !! p = Some t /\ promise t = Pending.

(** What never goes back in the life of a tunnel: the descriptor is fixed,
    the [killed] and [resolved] flags stay set, a settled promise stays as it
    is, and the accumulated output only grows. *)
Definition grown (t t' : Tunnel) : Prop :=
  portForward t' = portForward t
  /\ (killed t = true -> killed t' = true)
  /\ (resolved t = true -> resolved t' = true)
  /\ (promise t <> Pending -> promise t' = promise t)
  /\ exists more, output t' = output t +:+ more.

(** A pending creation ends only by a close event of its process or by a
    stdout line with the readiness marker. *)
Definition ends (p : nat) (ev : Event) : Prop :=
  match ev with
  | Close q _ => q = p
  | Stdout q line => q = p /\ includes "Forwarding from " line = true
  | _ => False
  end.

End Lifecycle.

(** ** The handlers built on [getPortForward] and [killPortForward] *)

Module Handlers.
Import Forward.

(** The field of a [GardenService] that the handlers read. *)
Record GardenService := { gs_name : string }.

(** [targetName || `Service/${service.name}`]: a missing and an empty target
    name are both falsy. *)
Definition getTargetResource (service : GardenService) (targetName : option string)
  : string :=
  match targetName with
  | Some n => if (n =? "")%string then "Service/" +:+ gs_name service else n
  | None => "Service/" +:+ gs_name service
  end.

(** The fields of a [ForwardablePort] that [killPortForwards] reads;
    [targetName] is optional in the interface. *)
Record PortTarget := {
  pt_targetName : option string;
  pt_targetPort : Z
}.

Definition portTarget (e : Resolver.ForwardablePort) : PortTarget :=
  {| pt_targetName := Some (Resolver.targetName e);
     pt_targetPort := Resolver.targetPort e |}.

Definition targetKey (service : GardenService) (port : PortTarget) : string :=
  getPortForwardKey (getTargetResource service (pt_targetName port)) (pt_targetPort port).

Section WithProcesses.

Variable killError : nat -> option string.

(** [killPortForwards]: the loop ends when a [kill] raises. *)
Fixpoint killPortForwards (service : GardenService) (forwardablePorts : list PortTarget)
    (s : State) : State * option string :=
  match forwardablePorts with
  | [] => (s, None)
  | port :: rest =>
      let targetResource := getTargetResource service (pt_targetName port) in
      match killPortForward killError targetResource (pt_targetPort port) s with
      | (s1, Some e) => (s1, Some e)
      | (s1, None) => killPortForwards service rest s1
      end
  end.

End WithProcesses.

(** [GetPortForwardResult]. *)
Record GetPortForwardResult := {
  hostname : string;
  gpf_port : Z
}.

(** How a call of [getPortForwardHandler] starts: the lookup of the
    application namespace, made when none is given, may reject the call;
    otherwise [getPortForward] is called for the target resource.
    [appNamespace] is the outcome of [getAppNamespace], a namespace or an
    error. *)
Inductive HandlerStart :=
| HandlerRejects (error : string)
| HandlerCalls (namespace : string) (ev : Event).

Definition getPortForwardHandler (appNamespace : string + string)
    (namespace : option string) (service : GardenService)
    (targetName : option string) (targetPort : Z) : HandlerStart :=
  let ev := GetPortForward (getTargetResource service targetName) targetPort in
  let lookup :=
    match appNamespace with
    | inl ns => HandlerCalls ns ev
    | inr error => HandlerRejects error
    end in
  match namespace with
  | Some ns => if (ns =? "")%string then lookup else HandlerCalls ns ev
  | None => lookup
  end.

(** What the handler answers once the promise of [getPortForward] settles. *)
Definition handlerResult (r : Promise) : option (RuntimeError + GetPortForwardResult) :=
  match r with
  | Pending => None
  | Fulfilled fwd => Some (inr {| hostname := "localhost"; gpf_port := localPort fwd |})
  | Rejected err => Some (inl err)
  end.

End Handlers.

(** * The build handler of jib-container modules

    [jibContainerHandlers.build] is a sequence of awaited calls into the rest
    of the program.  The model keeps the control flow of the handler: the
    calls are recorded in the order they are made, each one answers with a
    value or throws, and the handler's own exceptions, its early return and
    its [finally] block are written out. *)

Module Jib.

(** The exceptions the handler can end with: the two it creates, the
    TypeError of reading a property of [undefined], and whatever an awaited
    call throws. *)
Inductive Error :=
| PluginError (message : string)
| ConfigurationError (message : string) (buildMode : string)
| TypeError
| Thrown (error : string).

(** The result of the base handler.  The handler reads [details.tarPath]
    and hands the result back as it is; [rest] stands for the fields it does
    not read. *)
Record BuildResult := {
  details : option (option string);
  rest : string
}.

(** The calls, with the arguments that the handler computes. *)
Inductive Effect :=
| Base (tarOnly : bool) (tarFormat : string)
| LogWarn
| DockerCli (cwd : string) (args : list string)
| LoadToLocalK8s
| KubeApiFactory
| GetNamespaceStatus
| MakeTempDir
| Mkdirp (path : string)
| LogDebug (msg : string)
| TarX (cwd file : string)
| EnsureUtilDeployment (namespace : string)
| EnsureBuildkit (namespace : string)
| SyncToBuildSync (namespace deploymentName : string) (rsyncPort : Z) (sourcePath : string)
| LogSetState (msg : string)
| GetRunningDeploymentPod (deploymentName namespace : string)
| Exec (pod namespace : string) (command : list string) (timeoutSec : Z)
    (containerName : string)
| Cleanup (path : string).

(** What the handler reads of its parameters: [provider.config.buildMode],
    [usingInClusterRegistry(provider)], and of the module its name, its
    build path, [build.timeout] and [outputs["deployment-image-id"]]. *)
Record Params := {
  buildMode : string;
  inClusterRegistry : bool;
  moduleName : string;
  buildPath : string;
  timeout : option Z;
  deploymentImageId : string
}.

(** How the awaited calls answer: [inl] is the error thrown.  Every call is
    made at most once in a run of the handler, so one answer per call covers
    every behaviour of the callees. *)
Record World := {
  w_base : string + BuildResult;
  w_dockerCli : string + unit;
  w_loadToLocalK8s : string + unit;
  w_factory : string + unit;
  w_namespaceName : string + string;
  w_makeTempDir : string + string;
  w_mkdirp : string + unit;
  w_tarX : string + unit;
  w_ensureUtilDeployment : string + unit;
  w_ensureBuildkit : string + unit;
  w_dataPath : string + string;
  w_pod : string + string;
  w_exec : string + string;
  w_cleanup : string + unit
}.

(** A computation extends the record of calls and ends with a value or an
    exception. *)
Definition M (A : Type) : Type := list Effect -> list Effect * (Error + A).

Definition ret {A} (a : A) : M A := fun tr => (tr, inr a).

Definition throw {A} (e : Error) : M A := fun tr => (tr, inl e).

Definition bind {A B} (m : M A) (k : A -> M B) : M B :=
  fun tr =>
    match m tr with
    | (tr1, inr a) => k a tr1
    | (tr1, inl e) => (tr1, inl e)
    end.

Definition await {A} (eff : Effect) (answer : string + A) : M A :=
  fun tr =>
    match answer with
    | inr a => ((tr ++ [eff])%list, inr a)
    | inl e => ((tr ++ [eff])%list, inl (Thrown e))
    end.

Definition log (eff : Effect) : M unit := fun tr => ((tr ++ [eff])%list, inr tt).

(** [try { body } finally { fin }]: the block runs on every way out of the
    body, and an exception of the block replaces the body's outcome. *)
Definition finally {A} (body : M A) (fin : M unit) : M A :=
  fun tr =>
    match body tr with
    | (tr1, r) =>
        match fin tr1 with
        | (tr2, inr _) => (tr2, r)
        | (tr2, inl e) => (tr2, inl e)
        end
    end.

Notation "'let*' x ':=' m 'in' k" := (bind m (fun x => k))
  (at level 10, x name, m at level 100, k at level 200, only parsing).

Section WithEnvironment.

(** Constants and functions of modules that the handler imports. *)
Variable defaultBuildTimeout : Z.
Variables utilDeploymentName buildkitDeploymentName utilContainerName : string.
Variable utilRsyncPort : Z.
Variable resolve : string -> string -> string.

(** [module.build.timeout || defaultBuildTimeout]. *)
Definition pushTimeout (params : Params) : Z :=
  match timeout params with
  | Some t => if (t =? 0)%Z then defaultBuildTimeout else t
  | None => defaultBuildTimeout
  end.

(** The command that is joined and run in the pod; the timeout is a whole
    number of seconds. *)
Definition syncCommand (params : Params) (dataPath : string) : list string :=
  (["skopeo"; "--command-timeout=" +:+ Forward.showZ (pushTimeout params) +:+ "s";
    "copy"; "--authfile"; "/.docker/config.json"]
   ++ (if inClusterRegistry params then ["--dest-tls-verify=false"] else [])
   ++ ["oci:" +:+ dataPath; "docker://" +:+ deploymentImageId params])%list.

Definition isLocal (mode : string) : bool :=
  (mode =? "local-docker")%string || (mode =? "cluster-docker")%string.

(** The body of the [try] block. *)
Definition push (params : Params) (w : World) (baseResult : BuildResult)
    (tarPath namespace tempDir : string) : M BuildResult :=
  let extractPath := resolve tempDir (moduleName params) in
  let* _ := await (Mkdirp extractPath) (w_mkdirp w) in
  let* _ := log (LogDebug ("Extracting built image tarball from " +:+ tarPath
                           +:+ " to " +:+ extractPath)) in
  let* _ := await (TarX extractPath tarPath) (w_tarX w) in
  let* deploymentName :=
    (if (buildMode params =? "kaniko")%string then
       let* _ := await (EnsureUtilDeployment namespace) (w_ensureUtilDeployment w) in
       ret utilDeploymentName
     else if (buildMode params =? "cluster-buildkit")%string then
       let* _ := await (EnsureBuildkit namespace) (w_ensureBuildkit w) in
       ret buildkitDeploymentName
     else
       throw (ConfigurationError ("Unexpected buildMode " +:+ buildMode params)
                (buildMode params))) in
  let* dataPath :=
    await (SyncToBuildSync namespace deploymentName utilRsyncPort extractPath)
      (w_dataPath w) in
  let* _ := log (LogSetState ("Pushing image " +:+ deploymentImageId params
                              +:+ " to registry")) in
  let* pod := await (GetRunningDeploymentPod deploymentName namespace) (w_pod w) in
  let* skopeoLog :=
    await (Exec pod namespace
             ["sh"; "-c"; String.concat " " (syncCommand params dataPath)]
             (pushTimeout params + 5) utilContainerName)
      (w_exec w) in
  let* _ := log (LogDebug skopeoLog) in
  let* _ := log (LogSetState ("Image " +:+ deploymentImageId params
                              +:+ " built and pushed to registry")) in
  ret baseResult.

(** [jibContainerHandlers.build]. *)
Definition build (params : Params) (w : World) : M BuildResult :=
  let* baseResult := await (Base true "oci") (w_base w) in
  match details baseResult with
  | None => throw TypeError
  | Some tarPath =>
      match tarPath with
      | Some tarPath =>
          if (tarPath =? "")%string then
            throw (PluginError
                     "Expected details.tarPath from the jib-container build handler.")
          else if isLocal (buildMode params) then
            let* _ := (if (buildMode params =? "cluster-docker")%string
                       then log LogWarn else ret tt) in
            let* _ := await (DockerCli (buildPath params) ["load"; "--input"; tarPath])
                        (w_dockerCli w) in
            let* _ := await LoadToLocalK8s (w_loadToLocalK8s w) in
            ret baseResult
          else
            let* _ := await KubeApiFactory (w_factory w) in
            let* namespace := await GetNamespaceStatus (w_namespaceName w) in
            let* tempDir := await MakeTempDir (w_makeTempDir w) in
            finally (push params w baseResult tarPath namespace tempDir)
              (await (Cleanup tempDir) (w_cleanup w))
      | None =>
          throw (PluginError
                   "Expected details.tarPath from the jib-container build handler.")
      end
  end.

(** The calls made by a run of the handler, and how the run ends. *)
Definition trace (params : Params) (w : World) : list Effect :=
  fst (build params w []).

Definition outcome (params : Params) (w : World) : Error + BuildResult :=
  snd (build params w []).

End WithEnvironment.

(** *** Sample data *)

Definition remoteParams (mode : string) : Params :=
  {| buildMode := mode; inClusterRegistry := true; moduleName := "api";
     buildPath := "/project/.garden/build/api"; timeout := None;
     deploymentImageId := "registry.local/api:v-1" |}.

Definition builtResult : BuildResult :=
  {| details := Some (Some "/project/api/target/jib-image.tar"); rest := "built" |}.

(** Every call succeeds. *)
Definition fineWorld : World :=
  {| w_base := inr builtResult; w_dockerCli := inr tt; w_loadToLocalK8s := inr tt;
     w_factory := inr tt; w_namespaceName := inr "dev"; w_makeTempDir := inr "/tmp/garden-1";
     w_mkdirp := inr tt; w_tarX := inr tt; w_ensureUtilDeployment := inr tt;
     w_ensureBuildkit := inr tt; w_dataPath := inr "/data/tmp/api";
     w_pod := inr "garden-util-0"; w_exec := inr "Copying blob"; w_cleanup := inr tt |}.

Definition joinPath (dir name : string) : string := dir +:+ "/" +:+ name.

End Jib.

(** * Properties of the resolver *)

Module ResolverProofs.
Import Resolver.

Section WithUtil.

Variable isBuiltIn : KubernetesResource -> bool.
Variable matchSelector : gmap string string -> gmap string string -> bool.

Local Abbreviation isServiceb := (isServiceb isBuiltIn).
Local Abbreviation isWorkloadb := (isWorkloadb isBuiltIn).
Local Abbreviation matchesService := (matchesService matchSelector).
Local Abbreviation workloadPorts := (workloadPorts matchSelector).
Local Abbreviation getForwardablePorts := (getForwardablePorts isBuiltIn matchSelector).
Local Abbreviation Suppresses := (Suppresses matchSelector).
Local Abbreviation Suppressed := (Suppressed isBuiltIn matchSelector).
Local Abbreviation wellFormed := (wellFormed isBuiltIn).

Lemma truthy_strictEq v n :
  truthy v && strictEq v n = true <-> v = Some (IntVal n) /\ n <> 0.
Proof.
  destruct v as [[m|str]|]; simpl.
  - rewrite andb_true_iff, negb_true_iff, Z.eqb_neq, Z.eqb_eq.
    split.
    + intros [Hm ->]. auto.
    + intros [Heq Hn]. injection Heq as ->. auto.
  - rewrite andb_false_r. split; [discriminate | intros [? _]; discriminate].
  - split; [discriminate | intros [? _]; discriminate].
Qed.

Lemma anyTargetPort_true sps cp :
  anyTargetPort sps cp = true <->
  exists sp, In sp sps /\ sp_targetPort sp = Some (IntVal (containerPort cp))
             /\ containerPort cp <> 0.
Proof.
  induction sps as [|sp sps IH]; simpl.
  - split; [discriminate | intros (? & [] & _)].
  - destruct (truthy (sp_targetPort sp) && strictEq (sp_targetPort sp) (containerPort cp))
      eqn:E.
    + apply truthy_strictEq in E. split; [|reflexivity].
      intros _. exists sp. tauto.
    + rewrite IH. split.
      * intros (x & Hin & H). exists x. tauto.
      * intros (x & [<-|Hin] & H1 & H2).
        -- assert (truthy (sp_targetPort sp) && strictEq (sp_targetPort sp) (containerPort cp) = true)
             by (apply truthy_strictEq; auto).
           congruence.
        -- exists x. auto.
Qed.

Lemma matchesService_true services pt cp :
  matchesService services pt cp = true <->
  exists service, In service services /\ Suppresses service pt cp.
Proof.
  unfold Resolver.Suppresses, selectorOf, labelsOf, declaredPorts.
  induction services as [|service services IH]; simpl.
  - split; [discriminate | intros (? & [] & _)].
  - destruct (matchSelector _ _) eqn:Esel; simpl.
    + destruct (anyTargetPort _ cp) eqn:Eany.
      * split; [|reflexivity]. intros _. exists service.
        apply anyTargetPort_true in Eany. auto.
      * rewrite IH. split.
        -- intros (x & Hin & H). exists x. auto.
        -- intros (x & [<-|Hin] & Hsel & Hp).
           ++ apply anyTargetPort_true in Hp. congruence.
           ++ exists x. auto.
    + rewrite IH. split.
      * intros (x & Hin & H). exists x. auto.
      * intros (x & [<-|Hin] & Hsel & Hp); [congruence|]. exists x. auto.
Qed.

Lemma matchesService_Suppressed rs pt cp :
  matchesService (List.filter isServiceb rs) pt cp = true <-> Suppressed rs pt cp.
Proof.
  rewrite matchesService_true. unfold Resolver.Suppressed. split.
  - intros (x & Hin & H). apply filter_In in Hin as [Hin Hs]. eauto.
  - intros (x & Hin & Hs & H). exists x. split; [|assumption].
    apply filter_In. auto.
Qed.

Lemma servicePorts_spec service :
  is_Some (spec service) ->
  servicePorts service = Some (map (serviceEntry service) (declaredPorts service)).
Proof.
  intros [sp Hsp]. unfold servicePorts, declaredPorts. rewrite Hsp. reflexivity.
Qed.

Lemma workloadPorts_spec services workload pt :
  podTemplateOf workload = Some pt ->
  workloadPorts services workload =
  Some (map (workloadEntry workload)
          (List.filter (fun cp => negb (matchesService services pt cp)) (portSpecsOf pt))).
Proof.
  unfold podTemplateOf, Resolver.workloadPorts. intros H.
  destruct (spec workload) as [sp|]; [|discriminate]. simpl in *.
  rewrite H. reflexivity.
Qed.

Lemma mapM_defined {A B} (f : A -> option B) (g : A -> B) (l : list A) :
  (forall x, In x l -> f x = Some (g x)) -> mapM f l = Some (map g l).
Proof.
  intros H. apply mapM_Some_2.
  induction l as [|x l IH]; simpl; constructor.
  - apply H. now left.
  - apply IH. intros y Hy. apply H. now right.
Qed.

Lemma mapM_app_cons {A B} (f : A -> option (list B)) (l1 l2 : list A) (x : A) :
  f x = Some [] ->
  @concat B <$> mapM f (l1 ++ x :: l2)%list = @concat B <$> mapM f (l1 ++ l2)%list.
Proof.
  intros Hx. induction l1 as [|y l1 IH]; simpl.
  - rewrite Hx. simpl. destruct (mapM f l2); reflexivity.
  - destruct (f y) as [b|]; simpl; [|reflexivity].
    destruct (mapM f (l1 ++ x :: l2)%list) as [k1|],
             (mapM f (l1 ++ l2)%list) as [k2|]; simpl in *; congruence.
Qed.

Lemma Forall2_map_r_In {A B} (P : A -> B -> Prop) (g : A -> B) (l : list A) :
  (forall x, In x l -> P x (g x)) -> Forall2 P l (map g l).
Proof.
  induction l as [|x l IH]; simpl; intros H; constructor.
  - apply H. now left.
  - apply IH. intros y Hy. apply H. now right.
Qed.

(** The resolver in closed form on a well-formed resource list. *)
Lemma getForwardablePorts_spec rs :
  wellFormed rs ->
  getForwardablePorts rs =
  Some (concat (map (fun service => map (serviceEntry service) (declaredPorts service))
                  (List.filter isServiceb rs))
        ++ concat (map (fun workload =>
                          match podTemplateOf workload with
                          | Some pt =>
                              map (workloadEntry workload)
                                (List.filter
                                   (fun cp => negb (matchesService
                                                      (List.filter isServiceb rs) pt cp))
                                   (portSpecsOf pt))
                          | None => []
                          end)
                     (List.filter isWorkloadb rs)))%list.
Proof.
  intros Hwf. unfold Resolver.getForwardablePorts.
  erewrite (mapM_defined servicePorts); cycle 1.
  { intros x Hx. apply filter_In in Hx as [Hin Hs].
    apply servicePorts_spec. now apply (Hwf x Hin). }
  simpl.
  erewrite (mapM_defined (workloadPorts _)); [reflexivity|].
  intros x Hx. apply filter_In in Hx as [Hin Hw].
  destruct (proj2 (Hwf x Hin) Hw) as [pt Hpt].
  rewrite Hpt. now apply workloadPorts_spec.
Qed.

Lemma workloadEntry_port workload cp cp' :
  workloadEntry workload cp = workloadEntry workload cp' ->
  containerPort cp = containerPort cp'.
Proof. unfold workloadEntry. intros H. now injection H. Qed.

Lemma matchesService_port services pt cp cp' :
  containerPort cp = containerPort cp' ->
  matchesService services pt cp = matchesService services pt cp'.
Proof.
  intros Heq.
  assert (Hany : forall sps, anyTargetPort sps cp = anyTargetPort sps cp').
  { induction sps as [|sp sps IH]; simpl; [reflexivity|]. now rewrite Heq, IH. }
  induction services as [|service services IH]; simpl; [reflexivity|].
  now rewrite Hany, IH.
Qed.

(** The entries of one workload: exactly those of its container ports that
    no selected Service suppresses. *)
Lemma workload_entries rs workload pt cp :
  In cp (portSpecsOf pt) ->
  In (workloadEntry workload cp)
     (map (workloadEntry workload)
        (List.filter (fun cp => negb (matchesService (List.filter isServiceb rs) pt cp))
           (portSpecsOf pt)))
  <-> ~ Suppressed rs pt cp.
Proof.
  intros Hin. rewrite <- matchesService_Suppressed, in_map_iff. split.
  - intros (cp' & Heq & Hf). apply filter_In in Hf as [_ Hneg].
    apply workloadEntry_port in Heq.
    rewrite (matchesService_port _ _ _ _ Heq) in Hneg.
    apply negb_true_iff in Hneg. congruence.
  - intros Hn. exists cp. split; [reflexivity|].
    apply filter_In. split; [assumption|].
    apply negb_true_iff. now destruct (matchesService _ pt cp).
Qed.

Lemma getForwardablePorts_concat rs :
  getForwardablePorts rs =
  (a ← @concat ForwardablePort <$> mapM servicePorts (List.filter isServiceb rs);
   b ← @concat ForwardablePort
         <$> mapM (workloadPorts (List.filter isServiceb rs)) (List.filter isWorkloadb rs);
   Some (a ++ b)%list).
Proof.
  unfold Resolver.getForwardablePorts.
  destruct (mapM servicePorts _) as [a|]; simpl; [|reflexivity].
  destruct (mapM _ (List.filter isWorkloadb rs)) as [b|]; reflexivity.
Qed.

Lemma matchesService_drop s1 s2 service pt cp :
  declaredPorts service = [] ->
  matchesService (s1 ++ service :: s2)%list pt cp = matchesService (s1 ++ s2)%list pt cp.
Proof.
  unfold declaredPorts. intros Hports.
  induction s1 as [|x s1 IH]; simpl.
  - rewrite Hports. simpl. now destruct (matchSelector _ _).
  - now rewrite IH.
Qed.

Lemma workloadPorts_drop s1 s2 service workload :
  declaredPorts service = [] ->
  workloadPorts (s1 ++ service :: s2)%list workload = workloadPorts (s1 ++ s2)%list workload.
Proof.
  intros Hports. unfold Resolver.workloadPorts.
  destruct (spec workload) as [sp|]; simpl; [|reflexivity].
  destruct (template sp) as [pt|]; simpl; [|reflexivity].
  do 2 f_equal. apply filter_ext. intros cp.
  now rewrite matchesService_drop.
Qed.

Lemma workload_not_service r : isWorkloadb r = true -> isServiceb r = false.
Proof.
  unfold Resolver.isWorkloadb, Resolver.isServiceb.
  rewrite orb_true_iff, andb_true_iff. intros [[_ H]|H];
    apply String.eqb_eq in H; rewrite H; simpl; apply andb_false_r.
Qed.

Lemma service_not_workload r : kind r = "Service" -> isWorkloadb r = false.
Proof.
  unfold Resolver.isWorkloadb. intros ->. simpl. now rewrite andb_false_r.
Qed.

Lemma drop_service rs1 rs2 r :
  kind r = "Service" -> is_Some (spec r) -> declaredPorts r = [] ->
  getForwardablePorts (rs1 ++ r :: rs2)%list = getForwardablePorts (rs1 ++ rs2)%list.
Proof.
  intros Hkind Hspec Hports.
  rewrite !getForwardablePorts_concat, !List.filter_app. simpl.
  rewrite (service_not_workload r Hkind).
  destruct (isServiceb r) eqn:Hs; [|reflexivity].
  rewrite (mapM_app_cons servicePorts).
  2:{ rewrite servicePorts_spec by assumption. now rewrite Hports. }
  destruct (_ <$> mapM servicePorts _) as [a|]; simpl; [|reflexivity].
  erewrite (mapM_ext (workloadPorts (_ ++ r :: _)%list)); [reflexivity|].
  intros w. now apply workloadPorts_drop.
Qed.

Lemma drop_workload rs1 rs2 r pt :
  isWorkloadb r = true -> podTemplateOf r = Some pt -> portSpecsOf pt = [] ->
  getForwardablePorts (rs1 ++ r :: rs2)%list = getForwardablePorts (rs1 ++ rs2)%list.
Proof.
  intros Hw Hpt Hports.
  rewrite !getForwardablePorts_concat, !List.filter_app. simpl.
  rewrite Hw, (workload_not_service r Hw).
  destruct (_ <$> mapM servicePorts _) as [a|]; simpl; [|reflexivity].
  rewrite (mapM_app_cons (workloadPorts _)); [reflexivity|].
  rewrite (workloadPorts_spec _ _ _ Hpt), Hports. reflexivity.
Qed.

Lemma service_entries_emitted rs service :
  wellFormed rs -> In service rs -> isServiceb service = true ->
  exists out,
    getForwardablePorts rs = Some out
    /\ forall sp, In sp (declaredPorts service) -> In (serviceEntry service sp) out.
Proof.
  intros Hwf Hin Hs. rewrite (getForwardablePorts_spec rs Hwf).
  eexists. split; [reflexivity|]. intros sp Hsp.
  apply in_or_app. left. apply in_concat.
  exists (map (serviceEntry service) (declaredPorts service)). split.
  - apply in_map_iff. exists service. split; [reflexivity|]. now apply filter_In.
  - now apply in_map.
Qed.

Lemma workload_entry_emitted rs workload pt cp :
  wellFormed rs -> In workload rs -> isWorkloadb workload = true ->
  podTemplateOf workload = Some pt -> In cp (portSpecsOf pt) ->
  ~ Suppressed rs pt cp ->
  exists out,
    getForwardablePorts rs = Some out /\ In (workloadEntry workload cp) out.
Proof.
  intros Hwf Hin Hw Hpt Hcp Hn. rewrite (getForwardablePorts_spec rs Hwf).
  eexists. split; [reflexivity|].
  apply in_or_app. right. apply in_concat.
  eexists. split.
  - apply in_map_iff. exists workload. split; [reflexivity|]. now apply filter_In.
  - rewrite Hpt. now apply workload_entries.
Qed.

(** C1 (as amended).  On every resource list on which the resolver does not
    throw, the result is the entries of the selected Services followed by
    those of the workloads: a built-in Service contributes exactly one entry
    per declared port, in order, and a workload contributes, for each of its
    container ports, the entry [<Kind>/<name>] if and only if no selected
    Service whose selector matches the pod-template labels declares that
    container port, as a number other than zero, as the target of one of its
    ports.  The Service [web] with the Deployment [web] yields the single
    entry [Service/web] for port 8080. *)
Theorem forwardable_ports_resolved rs :
  (wellFormed rs ->
   exists fromServices fromWorkloads,
     getForwardablePorts rs = Some (concat fromServices ++ concat fromWorkloads)%list
     /\ Forall2 (fun service entries =>
                   entries = map (serviceEntry service) (declaredPorts service))
          (List.filter isServiceb rs) fromServices
     /\ Forall2 (fun workload entries =>
                   exists pt,
                     podTemplateOf workload = Some pt
                     /\ (forall e, In e entries ->
                           exists cp, In cp (portSpecsOf pt) /\ e = workloadEntry workload cp)
                     /\ (forall cp, In cp (portSpecsOf pt) ->
                           In (workloadEntry workload cp) entries <-> ~ Suppressed rs pt cp))
          (List.filter isWorkloadb rs) fromWorkloads)
  /\ (isBuiltIn webService = true -> isBuiltIn webDeployment = true ->
      matchSelector appWeb appWeb = true ->
      getForwardablePorts [webService; webDeployment] =
      Some [ {| fp_name := None; protocol := "TCP";
                targetName := "Service/web"; targetPort := 8080 |} ]).
Proof.
  split.
  - intros Hwf. do 2 eexists. split; [apply (getForwardablePorts_spec rs Hwf)|]. split.
    + apply Forall2_map_r_In. reflexivity.
    + apply Forall2_map_r_In. intros w Hw. apply filter_In in Hw as [Hin Hw].
      destruct (proj2 (Hwf w Hin) Hw) as [pt Hpt]. exists pt. rewrite Hpt.
      split; [reflexivity|]. split.
      * intros e He. apply in_map_iff in He as (cp & <- & Hcp).
        apply filter_In in Hcp as [Hcp _]. eauto.
      * intros cp Hcp. now apply workload_entries.
  - intros Hsvc Hdep Hsel.
    assert (Hm : matchesService [webService]
                   {| pt_metadata := Some {| labels := Some appWeb |};
                      pt_spec := Some {| containers :=
                        [ {| c_ports := Some [ {| cp_name := None; containerPort := 8080 |} ] |} ] |} |}
                   {| cp_name := None; containerPort := 8080 |} = true).
    { apply matchesService_true. exists webService. split; [now left|]. split.
      - exact Hsel.
      - eexists. split; [now left|]. split; [reflexivity|discriminate]. }
    unfold Resolver.getForwardablePorts. cbn [List.filter].
    unfold Resolver.isServiceb, Resolver.isWorkloadb. rewrite Hsvc, Hdep.
    cbn [kind webService webDeployment mkService mkWorkload String.eqb Ascii.eqb
         Bool.eqb andb orb].
    unfold Resolver.workloadPorts.
    cbn [mapM mbind option_bind mret option_ret spec template webDeployment mkWorkload
         webService].
    unfold portSpecsOf.
    cbn [pt_spec fmap option_fmap option_map containers default flat_map c_ports app
         List.filter].
    unfold id. cbn [flat_map default c_ports app List.filter].
    rewrite Hm. reflexivity.
Qed.

Lemma servicePorts_defined service : is_Some (servicePorts service) -> is_Some (spec service).
Proof.
  unfold servicePorts. destruct (spec service); [eauto|]. intros [x H]. discriminate H.
Qed.

Lemma workloadPorts_defined services workload :
  is_Some (workloadPorts services workload) -> is_Some (podTemplateOf workload).
Proof.
  unfold Resolver.workloadPorts, podTemplateOf.
  destruct (spec workload) as [sp|]; simpl; [|intros [x H]; discriminate H].
  destruct (template sp); [eauto|]. intros [x H]. discriminate H.
Qed.

Lemma getForwardablePorts_defined rs :
  is_Some (getForwardablePorts rs) <-> wellFormed rs.
Proof.
  split.
  - intros [out Hout] r Hin. unfold Resolver.getForwardablePorts in Hout.
    destruct (mapM servicePorts _) as [a|] eqn:Ha; [|discriminate]. simpl in Hout.
    destruct (mapM _ (List.filter isWorkloadb rs)) as [b|] eqn:Hb; [|discriminate].
    assert (Hsa : is_Some (mapM servicePorts (List.filter isServiceb rs))) by eauto.
    assert (Hsb : is_Some (mapM (workloadPorts (List.filter isServiceb rs))
                             (List.filter isWorkloadb rs))) by eauto.
    apply mapM_is_Some_1 in Hsa, Hsb. rewrite List.Forall_forall in Hsa, Hsb.
    split; intros Hsel.
    + apply servicePorts_defined. apply (Hsa r). now apply filter_In.
    + eapply workloadPorts_defined. apply (Hsb r). now apply filter_In.
  - intros Hwf. rewrite (getForwardablePorts_spec rs Hwf). eauto.
Qed.

(** The resolver throws on a list that holds a selected Service without a
    [spec], or a selected workload without a [spec] or a pod template. *)
Lemma getForwardablePorts_throws rs r :
  In r rs ->
  (isServiceb r = true /\ spec r = None)
  \/ (isWorkloadb r = true /\ podTemplateOf r = None) ->
  getForwardablePorts rs = None.
Proof.
  intros Hin Hbad.
  destruct (getForwardablePorts rs) as [out|] eqn:E; [|reflexivity]. exfalso.
  assert (Hwf : wellFormed rs) by (apply getForwardablePorts_defined; eauto).
  destruct (Hwf r Hin) as [Hs Hw].
  destruct Hbad as [[Hsel Hnone]|[Hsel Hnone]].
  - destruct (Hs Hsel) as [x Hx]. congruence.
  - destruct (Hw Hsel) as [x Hx]. congruence.
Qed.

(** C9 (as amended).  A Service that has a [spec] but declares no ports, and
    a selected workload that has a pod template whose containers declare no
    ports, contribute nothing: the outcome of the resolver, a list or the
    exception, is the one obtained without the resource.  A selected Service
    without a [spec] declares no ports either, and a selected workload may
    lack its [spec] or its pod template, but these make the resolver throw.
    On the lists on which the resolver does not throw, a selected Service
    without a selector still contributes the entry of each of its declared
    ports. *)
Theorem resources_without_ports rs1 rs2 service workload headless :
  (kind service = "Service" -> is_Some (spec service) -> declaredPorts service = [] ->
   getForwardablePorts (rs1 ++ service :: rs2)%list = getForwardablePorts (rs1 ++ rs2)%list)
  /\ (isWorkloadb workload = true ->
      forall pt, podTemplateOf workload = Some pt -> portSpecsOf pt = [] ->
      getForwardablePorts (rs1 ++ workload :: rs2)%list
      = getForwardablePorts (rs1 ++ rs2)%list)
  /\ (isServiceb service = true -> spec service = None ->
      declaredPorts service = []
      /\ getForwardablePorts (rs1 ++ service :: rs2)%list = None)
  /\ (isWorkloadb workload = true -> podTemplateOf workload = None ->
      getForwardablePorts (rs1 ++ workload :: rs2)%list = None)
  /\ (isServiceb headless = true -> spec headless ≫= selector = None ->
      wellFormed (rs1 ++ headless :: rs2)%list ->
      exists out,
        getForwardablePorts (rs1 ++ headless :: rs2)%list = Some out
        /\ forall sp, In sp (declaredPorts headless) -> In (serviceEntry headless sp) out).
Proof.
  split; [|split; [|split; [|split]]].
  - apply drop_service.
  - intros Hw pt. now apply drop_workload.
  - intros Hs Hnone. split; [unfold declaredPorts; now rewrite Hnone|].
    apply (getForwardablePorts_throws _ service); [|now left].
    apply in_or_app. right. now left.
  - intros Hw Hnone. apply (getForwardablePorts_throws _ workload); [|now right].
    apply in_or_app. right. now left.
  - intros Hs _ Hwf. apply service_entries_emitted; try assumption.
    apply in_or_app. right. now left.
Qed.

(** C10 (as amended).  [matchesService] holds only through a Service whose
    selector matches and one of whose ports has the container port, a number
    other than zero, as its target port.  When the ports of every matching
    selected Service name their target port, or give it as 0 (or not at all),
    the container port is not suppressed, and on the lists on which the
    resolver does not throw it is emitted under the workload's own target
    name. *)
Theorem suppression_needs_numeric_target rs workload pt cp :
  (forall services,
     matchesService services pt cp = true ->
     exists service servicePort,
       In service services
       /\ matchSelector (selectorOf service) (labelsOf pt) = true
       /\ In servicePort (declaredPorts service)
       /\ sp_targetPort servicePort = Some (IntVal (containerPort cp))
       /\ containerPort cp <> 0)
  /\ (wellFormed rs -> In workload rs -> isWorkloadb workload = true ->
      podTemplateOf workload = Some pt -> In cp (portSpecsOf pt) ->
      (forall service, In service rs -> isServiceb service = true ->
         matchSelector (selectorOf service) (labelsOf pt) = true ->
         forall sp, In sp (declaredPorts service) -> namedOrZero (sp_targetPort sp)) ->
      matchesService (List.filter isServiceb rs) pt cp = false
      /\ exists out,
           getForwardablePorts rs = Some out
           /\ targetName (workloadEntry workload cp) = kind workload +:+ "/" +:+ name workload
           /\ In (workloadEntry workload cp) out).
Proof.
  split.
  - intros services H. apply matchesService_true in H as (service & Hin & Hsel & sp & Hp).
    exists service, sp. tauto.
  - intros Hwf Hin Hw Hpt Hcp Hnamed.
    assert (Hn : ~ Suppressed rs pt cp).
    { intros (service & Hs & Hb & Hsel & sp & Hsp & Htp & Hnz).
      specialize (Hnamed service Hs Hb Hsel sp Hsp). rewrite Htp in Hnamed.
      simpl in Hnamed. contradiction. }
    split.
    + destruct (matchesService _ pt cp) eqn:E; [|reflexivity].
      apply matchesService_Suppressed in E. contradiction.
    + destruct (workload_entry_emitted rs workload pt cp Hwf Hin Hw Hpt Hcp Hn)
        as (out & Hout & Hentry).
      exists out. auto.
Qed.

End WithUtil.

Ltac list_cases H :=
  repeat (destruct H as [<-|H]); [..|destruct H].

Ltac decide_wellFormed :=
  let r := fresh "r" in
  let H := fresh "H" in
  intros r H; list_cases H;
  (split; intros H; first [eexists; reflexivity | vm_compute in H; discriminate H]).

Lemma forwardable_ports_resolved_witness :
  wellFormed coreApiVersion [webService; webDeployment]
  /\ getForwardablePorts coreApiVersion matchSelector_subset [webService; webDeployment]
     = Some [ {| fp_name := None; protocol := "TCP";
                 targetName := "Service/web"; targetPort := 8080 |} ]
  /\ exists fromServices fromWorkloads,
       getForwardablePorts coreApiVersion matchSelector_subset [webService; webDeployment]
       = Some (concat fromServices ++ concat fromWorkloads)%list
       /\ length fromServices = 1%nat /\ length fromWorkloads = 1%nat.
Proof.
  assert (Hwf : wellFormed coreApiVersion [webService; webDeployment])
    by decide_wellFormed.
  destruct (forwardable_ports_resolved coreApiVersion matchSelector_subset
              [webService; webDeployment]) as [Hgen Hweb].
  split; [exact Hwf|]. split.
  - apply Hweb; reflexivity.
  - destruct (Hgen Hwf) as (a & b & Hout & Ha & Hb).
    exists a, b. split; [exact Hout|]. split.
    + symmetry. apply (Forall2_length _ _ _ Ha).
    + symmetry. apply (Forall2_length _ _ _ Hb).
Defined.

(** C1 fails as stated: the target port 0 of a matching Service equals the
    container port 0 of the Deployment, and the Deployment's entry is emitted
    all the same. *)
Lemma zero_target_port_not_suppressed :
  getForwardablePorts coreApiVersion matchSelector_subset [zeroService; zeroDeployment]
  = Some [ {| fp_name := None; protocol := "TCP";
              targetName := "Service/web"; targetPort := 80 |};
           workloadEntry zeroDeployment zeroPort ]
  /\ podTemplateOf zeroDeployment = Some zeroTemplate
  /\ In zeroPort (portSpecsOf zeroTemplate)
  /\ ReachedByService matchSelector_subset [zeroService; zeroDeployment]
       zeroTemplate zeroPort.
Proof.
  split; [reflexivity|]. split; [reflexivity|]. split; [now left|].
  exists zeroService. eexists. split; [now left|]. split; [reflexivity|].
  split; [reflexivity|]. split; [now left|reflexivity].
Qed.

(** The same for every [isBuiltIn] that accepts the two resources and every
    [matchSelector] that matches equal maps. *)
Lemma zero_target_port_for_all_util isBuiltIn matchSelector :
  isBuiltIn zeroService = true -> isBuiltIn zeroDeployment = true ->
  matchSelector appWeb appWeb = true ->
  getForwardablePorts isBuiltIn matchSelector [zeroService; zeroDeployment]
  = Some [ {| fp_name := None; protocol := "TCP";
              targetName := "Service/web"; targetPort := 80 |};
           workloadEntry zeroDeployment zeroPort ]
  /\ ReachedByService matchSelector [zeroService; zeroDeployment] zeroTemplate zeroPort.
Proof.
  intros Hsvc Hdep Hsel. split.
  - assert (Hwf : wellFormed isBuiltIn [zeroService; zeroDeployment]).
    { intros r H. list_cases H; split; intros Hr;
        first [ eexists; reflexivity
              | unfold isServiceb, isWorkloadb in Hr; simpl in Hr;
                rewrite andb_false_r in Hr; discriminate Hr ]. }
    rewrite (getForwardablePorts_spec isBuiltIn matchSelector _ Hwf).
    cbn [List.filter]. unfold isServiceb, isWorkloadb. rewrite Hsvc, Hdep.
    cbn -[appWeb]. destruct (matchSelector _ _); reflexivity.
  - exists zeroService. eexists. split; [now left|]. split; [reflexivity|].
    split; [exact Hsel|]. split; [now left|reflexivity].
Qed.

Lemma resources_without_ports_witness :
  getForwardablePorts coreApiVersion matchSelector_subset
    [webService; mkService "idle" (Some appWeb) None; webDeployment]
  = getForwardablePorts coreApiVersion matchSelector_subset [webService; webDeployment]
  /\ getForwardablePorts coreApiVersion matchSelector_subset
       [webService; mkWorkload "DaemonSet" "agent" None []; webDeployment]
     = getForwardablePorts coreApiVersion matchSelector_subset [webService; webDeployment]
  /\ (declaredPorts speclessService = []
      /\ getForwardablePorts coreApiVersion matchSelector_subset
           [webService; speclessService; webDeployment] = None)
  /\ exists out,
       getForwardablePorts coreApiVersion matchSelector_subset
         [webService; headlessService; webDeployment] = Some out
       /\ forall sp, In sp (declaredPorts headlessService) ->
                     In (serviceEntry headlessService sp) out.
Proof.
  destruct (resources_without_ports coreApiVersion matchSelector_subset
              [webService] [webDeployment]
              (mkService "idle" (Some appWeb) None)
              (mkWorkload "DaemonSet" "agent" None [])
              headlessService) as (Hs & Hw & _ & _ & Hh).
  destruct (resources_without_ports coreApiVersion matchSelector_subset
              [webService] [webDeployment] speclessService webDeployment
              headlessService) as (_ & _ & Hthrows & _).
  split; [|split; [|split]].
  - apply Hs; [reflexivity | eexists; reflexivity | reflexivity].
  - apply (Hw eq_refl _ eq_refl). reflexivity.
  - apply Hthrows; reflexivity.
  - apply Hh; [reflexivity | reflexivity | decide_wellFormed].
Defined.

(** C9 fails as stated: a Service without a selector contributes the entry of
    its declared port. *)
Lemma service_without_selector_emitted :
  spec headlessService ≫= selector = None
  /\ getForwardablePorts coreApiVersion matchSelector_subset [headlessService]
     = Some [ {| fp_name := Some "pg"; protocol := "TCP";
                 targetName := "Service/db"; targetPort := 5432 |} ].
Proof. split; reflexivity. Qed.

Lemma suppression_needs_numeric_target_witness :
  (exists service servicePort,
     In service [webService]
     /\ sp_targetPort servicePort = Some (IntVal 8080))
  /\ getForwardablePorts coreApiVersion matchSelector_subset [namedService; webDeployment]
     = Some [ {| fp_name := None; protocol := "TCP";
                 targetName := "Service/web"; targetPort := 80 |};
              {| fp_name := None; protocol := "TCP";
                 targetName := "Deployment/web"; targetPort := 8080 |} ]
  /\ exists out,
       getForwardablePorts coreApiVersion matchSelector_subset [namedService; webDeployment]
       = Some out
       /\ In {| fp_name := None; protocol := "TCP";
                targetName := "Deployment/web"; targetPort := 8080 |} out.
Proof.
  destruct (suppression_needs_numeric_target coreApiVersion matchSelector_subset
              [namedService; webDeployment] webDeployment
              {| pt_metadata := Some {| labels := Some appWeb |};
                 pt_spec := Some {| containers :=
                   [ {| c_ports := Some [ {| cp_name := None; containerPort := 8080 |} ] |} ] |} |}
              {| cp_name := None; containerPort := 8080 |}) as [Hneed Hemit].
  split; [|split].
  - destruct (Hneed [webService] eq_refl) as (service & sp & Hin & _ & _ & Htp & _).
    exists service, sp. split; [exact Hin | exact Htp].
  - reflexivity.
  - destruct Hemit as (_ & out & Hout & _ & Hentry).
    + decide_wellFormed.
    + right. now left.
    + reflexivity.
    + reflexivity.
    + now left.
    + intros service H. list_cases H; intros Hb Hsel sp Hsp.
      * destruct Hsp as [<-|[]]. exact I.
      * vm_compute in Hb. discriminate Hb.
    + exists out. split; [exact Hout | exact Hentry].
Defined.

(** C10 fails as stated: the one port of the matching Service names its
    target port, so the container port of the Deployment is not suppressed;
    but the list also holds a Service without a [spec], the resolver throws,
    and no entry is emitted for the container port. *)
Lemma named_target_not_emitted_on_throw :
  In webDeployment [namedService; webDeployment; speclessService]
  /\ podTemplateOf webDeployment
     = Some {| pt_metadata := Some {| labels := Some appWeb |};
               pt_spec := Some {| containers :=
                                    [ {| c_ports := Some [ {| cp_name := None;
                                                              containerPort := 8080 |} ] |} ] |} |}
  /\ matchSelector_subset (selectorOf namedService) appWeb = true
  /\ (forall service sp,
        In service [namedService; webDeployment; speclessService] ->
        In sp (declaredPorts service) -> namedOrZero (sp_targetPort sp))
  /\ getForwardablePorts coreApiVersion matchSelector_subset
       [namedService; webDeployment; speclessService] = None.
Proof.
  split; [right; now left|]. split; [reflexivity|]. split; [reflexivity|].
  split; [|reflexivity].
  intros service sp Hin Hsp. list_cases Hin; vm_compute in Hsp;
    [destruct Hsp as [<-|[]]; exact I | destruct Hsp | destruct Hsp].
Qed.

End ResolverProofs.

(** * Properties of the registry and of [getPortForward] *)

Module ForwardProofs.
Import Forward.

(** ** The registry object *)

Lemma regGet_regSet_eq key v reg : regGet key (regSet key v reg) = Some v.
Proof.
  induction reg as [|[k w] reg IH]; simpl.
  - now rewrite String.eqb_refl.
  - destruct (String.eqb_spec key k) as [->|Hne]; simpl.
    + now rewrite String.eqb_refl.
    + destruct (String.eqb_spec key k); [contradiction|assumption].
Qed.

Lemma regGet_regSet_ne key key' v reg :
  key <> key' -> regGet key' (regSet key v reg) = regGet key' reg.
Proof.
  intros Hne. induction reg as [|[k w] reg IH]; simpl.
  - destruct (String.eqb_spec key' key); [congruence|reflexivity].
  - destruct (String.eqb_spec key k) as [->|Hk]; simpl.
    + destruct (String.eqb_spec key' k); [congruence|reflexivity].
    + now rewrite IH.
Qed.

Lemma regGet_regDelete_eq key reg : regGet key (regDelete key reg) = None.
Proof.
  induction reg as [|[k w] reg IH]; simpl; [reflexivity|].
  destruct (String.eqb_spec key k) as [->|Hk]; simpl; [assumption|].
  destruct (String.eqb_spec key k); [contradiction|assumption].
Qed.

Lemma regDelete_absent key reg : regGet key reg = None -> regDelete key reg = reg.
Proof.
  induction reg as [|[k w] reg IH]; simpl; [reflexivity|].
  destruct (String.eqb_spec key k) as [->|Hk]; simpl; [discriminate|].
  intros H. now rewrite (IH H).
Qed.

Lemma regGet_In key v reg : regGet key reg = Some v -> In (key, v) reg.
Proof.
  induction reg as [|[k w] reg IH]; simpl; [discriminate|].
  destruct (String.eqb_spec key k) as [->|Hk].
  - intros [= ->]. now left.
  - intros H. right. now apply IH.
Qed.


Lemma In_regSet kv key v reg : In kv (regSet key v reg) -> kv = (key, v) \/ In kv reg.
Proof.
  induction reg as [|[k w] reg IH]; simpl.
  - intros [<-|[]]. now left.
  - destruct (String.eqb_spec key k) as [->|Hk]; simpl.
    + intros [<-|H]; auto.
    + intros [<-|H]; auto. destruct (IH H); auto.
Qed.

Lemma In_regDelete kv key reg : In kv (regDelete key reg) -> In kv reg.
Proof. unfold regDelete. intros H. now apply filter_In in H. Qed.

Lemma regSet_keys key v reg :
  map fst (regSet key v reg) = map fst reg
  \/ (~ In key (map fst reg) /\ map fst (regSet key v reg) = (map fst reg ++ [key])%list).
Proof.
  induction reg as [|[k w] reg IH]; simpl.
  - right. auto.
  - destruct (String.eqb_spec key k) as [->|Hk]; simpl.
    + now left.
    + destruct IH as [->|[Hn ->]]; [now left|]. right. split; [|reflexivity].
      intros [?|?]; [congruence|contradiction].
Qed.

Lemma regSet_NoDup key v reg :
  List.NoDup (map fst reg) -> List.NoDup (map fst (regSet key v reg)).
Proof.
  intros Hnd. destruct (regSet_keys key v reg) as [->|[Hn ->]]; [assumption|].
  apply List.NoDup_app; [assumption| |].
  - constructor; [intros []|constructor].
  - intros x Hx [<-|[]]. contradiction.
Qed.

Lemma regDelete_NoDup key reg :
  List.NoDup (map fst reg) -> List.NoDup (map fst (regDelete key reg)).
Proof.
  induction reg as [|[k w] reg IH]; simpl; [auto|].
  intros Hnd. apply List.NoDup_cons_iff in Hnd as [Hk Hnd].
  destruct (negb (key =? k)%string); simpl; [|auto].
  constructor; [|auto]. intros Hin. apply Hk.
  apply in_map_iff in Hin as (kv & Hfst & Hkv).
  apply in_map_iff. exists kv. split; [assumption|]. now apply In_regDelete in Hkv.
Qed.

Ltac split_all := repeat match goal with |- _ /\ _ => split end.

(** Closes a conjunction of equations between fields and of implications
    whose premises decide them. *)
Ltac fields :=
  split_all; simpl;
  first [ assumption | reflexivity | congruence
        | intros; split_all; simpl; congruence
        | intros; split_all; simpl in *; congruence ].

(** ** Invariants of the reachable states *)

Section WithProcesses.

Variable getPort : nat -> Z.
Variable killError : nat -> option string.

Local Abbreviation kill := (kill killError).
Local Abbreviation killUnlessKilled := (killUnlessKilled killError).
Local Abbreviation onError := (onError killError).
Local Abbreviation onStderr := (onStderr killError).
Local Abbreviation killPortForward := (killPortForward killError).
Local Abbreviation killAll := (killAll killError).
Local Abbreviation cleanup := (cleanup killError).
Local Abbreviation enter := (enter getPort).
Local Abbreviation dispatch := (dispatch getPort).
Local Abbreviation schedule := (schedule getPort).
Local Abbreviation handle := (handle killError).
Local Abbreviation step := (step getPort killError).
Local Abbreviation run := (run getPort killError).
Local Abbreviation reachable := (reachable getPort killError).
Local Abbreviation Inv := (Inv getPort).

Lemma Inv_init : Inv init.
Proof.
  constructor; simpl.
  - constructor.
  - intros k fwd [].
  - intros p t H. discriminate H.
  - intros p t H. discriminate H.
  - intros c call p H. discriminate H.
Qed.

Lemma lookup_insert_Some {A} (l : list A) (i j : nat) (x y : A) :
  <[i := x]> l !! j = Some y ->
  (i = j /\ x = y /\ i < length l)%nat \/ (i <> j /\ l !! j = Some y).
Proof.
  rewrite list_lookup_insert. destruct (decide _) as [[-> Hlt]|Hn].
  - intros [= ->]. left. auto.
  - intros H. destruct (decide (i = j)) as [->|Hne]; [|right; auto].
    exfalso. apply Hn. split; [reflexivity|]. now apply lookup_lt_Some in H.
Qed.

(** Replacing a tunnel by one with the same descriptor and promise, whose
    [resolved] flag did not go back. *)
Lemma Inv_update s p t t' :
  Inv s -> tunnels s !! p = Some t ->
  portForward t' = portForward t -> (resolved t = true -> resolved t' = true) ->
  promise t' = promise t ->
  Inv (setTunnels (<[p := t']> (tunnels s)) s).
Proof.
  intros [Hk Hr Hp Hl Hc] Ht Hfwd Hres Hprom. constructor; simpl.
  - assumption.
  - intros k fwd Hin. destruct (Hr k fwd Hin) as (-> & u & Hu & Hufwd & Hures).
    split; [reflexivity|].
    destruct (decide (p = proc fwd)) as [->|Hne].
    + exists t'. rewrite list_lookup_insert_eq by now apply lookup_lt_Some in Ht.
      rewrite Hu in Ht. injection Ht as ->. split; [reflexivity|]. split; [congruence|auto].
    + exists u. now rewrite list_lookup_insert_ne.
  - intros q u Hq. apply lookup_insert_Some in Hq as [(<- & <- & _)|[_ Hq]].
    + rewrite Hfwd. now apply Hp.
    + now apply Hp.
  - intros q u Hq Hpend. apply lookup_insert_Some in Hq as [(<- & <- & _)|[_ Hq]].
    + apply (Hl p t Ht). congruence.
    + now apply (Hl q u).
  - intros c call q Hcall Hst. destruct (Hc c call q Hcall Hst) as (u & Hu & Hufwd).
    destruct (decide (p = q)) as [->|Hne].
    + exists t'. rewrite list_lookup_insert_eq by now apply lookup_lt_Some in Ht.
      split; [reflexivity|]. congruence.
    + exists u. now rewrite list_lookup_insert_ne.
Qed.

Lemma Inv_settle s p v : Inv s -> v <> Pending -> Inv (settle p v s).
Proof.
  intros HI Hv. unfold settle.
  destruct (tunnels s !! p) as [t|] eqn:Ht; [|assumption].
  destruct (promise t) eqn:Hprom; try assumption.
  pose proof (inv_lock _ _ HI p t Ht Hprom) as Hlock. rewrite Hlock, Nat.eqb_refl.
  destruct HI as [Hk Hr Hp Hl Hc]. constructor; simpl.
  - assumption.
  - intros k fwd Hin. destruct (Hr k fwd Hin) as (-> & u & Hu & Hufwd & Hures).
    split; [reflexivity|].
    destruct (decide (p = proc fwd)) as [->|Hne].
    + exists (setPromise v t).
      rewrite list_lookup_insert_eq by now apply lookup_lt_Some in Ht.
      rewrite Hu in Ht. injection Ht as ->. auto.
    + exists u. now rewrite list_lookup_insert_ne.
  - intros q u Hq. apply lookup_insert_Some in Hq as [(<- & <- & _)|[_ Hq]].
    + simpl. now apply Hp.
    + now apply Hp.
  - intros q u Hq Hpend. apply lookup_insert_Some in Hq as [(<- & <- & _)|[Hne Hq]].
    + simpl in Hpend. contradiction.
    + pose proof (Hl q u Hq Hpend). congruence.
  - intros c call q Hcall Hst. destruct (Hc c call q Hcall Hst) as (u & Hu & Hufwd).
    destruct (decide (p = q)) as [->|Hne].
    + exists (setPromise v t).
      rewrite list_lookup_insert_eq by now apply lookup_lt_Some in Ht.
      split; [reflexivity|]. simpl. congruence.
    + exists u. now rewrite list_lookup_insert_ne.
Qed.

Lemma Inv_regDelete s key :
  Inv s -> Inv (setRegistered (regDelete key (registeredPortForwards s)) s).
Proof.
  intros [Hk Hr Hp Hl Hc]. constructor; simpl; try assumption.
  - now apply regDelete_NoDup.
  - intros k fwd Hin. apply Hr. now apply In_regDelete in Hin.
Qed.

Lemma Inv_register s p t :
  Inv s -> tunnels s !! p = Some t -> resolved t = true ->
  Inv (setRegistered (regSet (keyOf (portForward t)) (portForward t)
                        (registeredPortForwards s)) s).
Proof.
  intros [Hk Hr Hp Hl Hc] Ht Hres. constructor; simpl; try assumption.
  - now apply regSet_NoDup.
  - intros k fwd Hin. apply In_regSet in Hin as [[= -> ->]|Hin]; [|now apply Hr].
    split; [reflexivity|]. exists t. rewrite (Hp p t Ht). auto.
Qed.

Lemma Inv_setUncaught s u : Inv s -> Inv (setUncaught u s).
Proof. intros [Hk Hr Hp Hl Hc]. constructor; assumption. Qed.

Lemma Inv_setQueue s q : Inv s -> Inv (setQueue q s).
Proof. intros [Hk Hr Hp Hl Hc]. constructor; assumption. Qed.

Lemma Inv_kill s p : Inv s -> Inv (fst (kill p s)).
Proof.
  intros HI. unfold Forward.kill. destruct (killError p); [assumption|].
  destruct (tunnels s !! p) as [t|] eqn:Ht; [|assumption]. simpl.
  now apply (Inv_update s p t).
Qed.

Lemma Inv_killUnlessKilled s p : Inv s -> Inv (fst (killUnlessKilled p s)).
Proof.
  intros HI. unfold Forward.killUnlessKilled.
  destruct (killedOf s p); [assumption|]. now apply Inv_kill.
Qed.

Lemma Inv_onClose s p code : Inv s -> Inv (fst (onClose p code s)).
Proof.
  intros HI. unfold onClose. destruct (tunnels s !! p) as [t|]; [|assumption].
  set (s1 := match regGet _ _ with Some _ => _ | None => s end).
  assert (HI1 : Inv s1).
  { subst s1. destruct (regGet _ _); [now apply Inv_regDelete|assumption]. }
  destruct (negb (resolved t)); simpl; [|assumption].
  now apply Inv_settle.
Qed.

Lemma Inv_onError s p error : Inv s -> Inv (fst (onError p error s)).
Proof.
  intros HI. unfold Forward.onError. destruct (tunnels s !! p); [|assumption].
  pose proof (Inv_killUnlessKilled s p HI) as H.
  destruct (killUnlessKilled p s) as [s1 [e|]]; assumption.
Qed.

Lemma Inv_onStdout s p line : Inv s -> Inv (fst (onStdout p line s)).
Proof.
  intros HI. unfold onStdout. destruct (tunnels s !! p) as [t|] eqn:Ht; [|assumption].
  destruct (resolved t) eqn:Hres; [assumption|].
  destruct (includes _ line); simpl.
  - set (t2 := setSleeping (Some 250) (setResolved true (setOutput (output t +:+ line) t))).
    assert (HI1 : Inv (setTunnels (<[p := t2]> (tunnels s)) s))
      by now apply (Inv_update s p t).
    refine (Inv_register _ p t2 HI1 _ eq_refl). simpl.
    apply list_lookup_insert_eq. now apply lookup_lt_Some in Ht.
  - now apply (Inv_update s p t).
Qed.

Lemma Inv_onStderr s p line : Inv s -> Inv (fst (onStderr p line s)).
Proof.
  intros HI. unfold Forward.onStderr. destruct (tunnels s !! p) as [t|] eqn:Ht; [|assumption].
  assert (HI1 : Inv (setTunnels (<[p := setOutput (output t +:+ line) t]> (tunnels s)) s))
    by now apply (Inv_update s p t).
  destruct (fatal line); [|assumption]. now apply Inv_killUnlessKilled.
Qed.

Lemma Inv_onTimeout s p : Inv s -> Inv (fst (onTimeout p s)).
Proof.
  intros HI. unfold onTimeout. destruct (tunnels s !! p) as [t|] eqn:Ht; [|assumption].
  destruct (sleeping t); [|assumption]. simpl.
  apply Inv_settle; [|discriminate]. now apply (Inv_update s p t).
Qed.

Lemma Inv_killPortForward s target port :
  Inv s -> Inv (fst (killPortForward target port s)).
Proof.
  intros HI. unfold Forward.killPortForward.
  destruct (regGet _ _); [now apply Inv_killUnlessKilled|assumption].
Qed.

Lemma Inv_killAll values s : Inv s -> Inv (fst (killAll values s)).
Proof.
  revert s. induction values as [|fwd values IH]; intros s HI; simpl; [assumption|].
  pose proof (Inv_killPortForward s (targetResource fwd) (port fwd) HI) as H.
  destruct (killPortForward _ _ s) as [s1 [e|]]; [assumption|]. now apply IH.
Qed.

Lemma lookup_snoc_Some {A} (l : list A) (x y : A) (i : nat) :
  (l ++ [x])%list !! i = Some y ->
  l !! i = Some y \/ (i = length l /\ x = y).
Proof.
  rewrite lookup_app. destruct (l !! i) eqn:E; [auto|].
  apply lookup_ge_None in E. intros H. right.
  destruct (i - length l)%nat eqn:D; simpl in H; [|discriminate].
  injection H as ->. split; [lia|reflexivity].
Qed.

Lemma lookup_snoc_old {A} (l : list A) (x y : A) (i : nat) :
  l !! i = Some y -> (l ++ [x])%list !! i = Some y.
Proof. intros H. rewrite lookup_app_l; [assumption|]. now apply lookup_lt_Some in H. Qed.

Lemma Inv_setStatus s c call st :
  Inv s -> calls s !! c = Some call ->
  (forall p, st = Creating p ->
     exists t, tunnels s !! p = Some t
               /\ portForward t = {| targetResource := c_targetResource call;
                                     port := c_port call;
                                     localPort := getPort p; proc := p |}) ->
  Inv (setCalls (<[c := setStatus st call]> (calls s)) s).
Proof.
  intros [Hk Hr Hp Hl Hc] Hcall Hst. constructor; simpl; try assumption.
  intros c' call' q Hc' Hst'.
  apply lookup_insert_Some in Hc' as [(<- & <- & _)|[_ Hc']].
  - simpl in *. now apply Hst.
  - now apply (Hc c' call').
Qed.

Lemma Inv_enter s c : Inv s -> lock s = None -> Inv (enter c s).
Proof.
  intros HI Hlock. unfold Forward.enter.
  destruct (calls s !! c) as [call|] eqn:Hcall; [|assumption].
  set (create := setLock _ _).
  assert (Hcreate : Inv create).
  { subst create. destruct HI as [Hk Hr Hp Hl Hc]. constructor; simpl.
    - assumption.
    - intros k fwd Hin. destruct (Hr k fwd Hin) as (-> & u & Hu & Hrest).
      split; [reflexivity|]. exists u. split; [now apply lookup_snoc_old|assumption].
    - intros q u Hq. apply lookup_snoc_Some in Hq as [Hq|[-> <-]]; [now apply Hp|reflexivity].
    - intros q u Hq Hpend. apply lookup_snoc_Some in Hq as [Hq|[-> <-]]; [|reflexivity].
      pose proof (Hl q u Hq Hpend). congruence.
    - intros c' call' q Hc' Hst.
      apply lookup_insert_Some in Hc' as [(<- & <- & _)|[_ Hc']].
      + simpl in Hst. injection Hst as <-. eexists. split.
        * rewrite lookup_app_r by reflexivity. now rewrite Nat.sub_diag.
        * reflexivity.
      + destruct (Hc c' call' q Hc' Hst) as (u & Hu & Hfwd).
        exists u. split; [now apply lookup_snoc_old|assumption]. }
  destruct (regGet _ _) as [registered|]; [|assumption].
  destruct (negb _); [|assumption].
  apply Inv_setStatus; [assumption..|]. discriminate.
Qed.

Lemma Inv_dispatch waiting s : Inv s -> Inv (dispatch waiting s).
Proof.
  revert s. induction waiting as [|c rest IH]; intros s HI; simpl.
  - now apply Inv_setQueue.
  - destruct (lock s) eqn:Hlock; [now apply Inv_setQueue|].
    apply IH. now apply Inv_enter.
Qed.

Lemma Inv_handle ev s : Inv s -> Inv (fst (handle ev s)).
Proof.
  intros HI. destruct ev; simpl.
  - destruct HI as [Hk Hr Hp Hl Hc]. constructor; simpl; try assumption.
    intros c call p Hcall Hst.
    apply lookup_snoc_Some in Hcall as [Hcall|[_ <-]]; [now apply (Hc c call)|].
    discriminate Hst.
  - now apply Inv_onClose.
  - now apply Inv_onError.
  - now apply Inv_onStdout.
  - now apply Inv_onStderr.
  - now apply Inv_onTimeout.
  - now apply Inv_killPortForward.
  - now apply Inv_killAll.
Qed.

Lemma Inv_step ev s : Inv s -> Inv (step ev s).
Proof.
  intros HI. unfold Forward.step.
  pose proof (Inv_handle ev s HI) as H.
  destruct (handle ev s) as [s1 [e|]]; simpl in H; apply Inv_dispatch;
    [now apply Inv_setUncaught|assumption].
Qed.

(** When the lock is free after a turn, no call is left waiting. *)
Lemma dispatch_idle waiting s :
  lock (dispatch waiting s) = None -> queue (dispatch waiting s) = [].
Proof.
  revert s. induction waiting as [|c rest IH]; intros s; simpl; [reflexivity|].
  destruct (lock s) eqn:Hlock; simpl; [congruence|]. apply IH.
Qed.

Lemma step_idle ev s : lock (step ev s) = None -> queue (step ev s) = [].
Proof.
  unfold Forward.step. destruct (handle ev s) as [s1 [e|]]; apply dispatch_idle.
Qed.

Lemma run_snoc evs ev s : run (evs ++ [ev])%list s = step ev (run evs s).
Proof. unfold Forward.run. now rewrite fold_left_app. Qed.

Lemma run_app evs1 evs2 s : run (evs1 ++ evs2)%list s = run evs2 (run evs1 s).
Proof. unfold Forward.run. now rewrite fold_left_app. Qed.

Lemma reachable_step ev s : reachable s -> reachable (step ev s).
Proof. intros [evs ->]. exists (evs ++ [ev])%list. now rewrite run_snoc. Qed.

Lemma reachable_run evs s : reachable s -> reachable (run evs s).
Proof. intros [evs0 ->]. exists (evs0 ++ evs)%list. now rewrite run_app. Qed.

Lemma reachable_Inv s : reachable s -> Inv s /\ (lock s = None -> queue s = []).
Proof.
  intros [evs ->]. induction evs as [|ev evs IH] using rev_ind.
  - split; [apply Inv_init|reflexivity].
  - rewrite run_snoc. split; [apply Inv_step, IH|apply step_idle].
Qed.

(** Nothing is left to hand over in a reachable state. *)
Lemma schedule_stable s : (lock s = None -> queue s = []) -> schedule s = s.
Proof.
  unfold Forward.schedule. destruct s as [reg ts cs q l u]. simpl. intros H.
  destruct q as [|c rest]; simpl; [reflexivity|].
  destruct l; [reflexivity|]. discriminate (H eq_refl).
Qed.

(** ** What a turn of the event loop does to one tunnel *)

Lemma after_refl ev p t : after ev p t t.
Proof. unfold after. auto. Qed.

Lemma after_trans ev p t1 t2 t3 : after ev p t1 t2 -> after ev p t2 t3 -> after ev p t1 t3.
Proof.
  unfold after. intros (H1 & H2 & H3) (H4 & H5 & H6).
  split; [congruence|]. split; [auto|].
  intros Hres. destruct (H3 Hres) as [Hr2 Hk2]. destruct (H6 Hr2) as [Hr3 Hk3].
  split; [assumption|]. intros Hev. destruct (Hk2 Hev), (Hk3 Hev). split; congruence.
Qed.

Ltac insert_cases p q :=
  rewrite list_lookup_insert; destruct (decide (q = p /\ _)) as [[-> _]|_].

Lemma kill_tunnel ev q s p t :
  tunnels s !! p = Some t ->
  exists t', tunnels (fst (kill q s)) !! p = Some t' /\ after ev p t t'.
Proof.
  intros Ht. unfold Forward.kill. destruct (killError q).
  - exists t. split; [assumption|apply after_refl].
  - destruct (tunnels s !! q) as [u|] eqn:Hu; simpl.
    + insert_cases p q.
      * rewrite Ht in Hu. injection Hu as <-. eexists. split; [reflexivity|].
        unfold after. simpl. auto.
      * exists t. split; [assumption|apply after_refl].
    + exists t. split; [assumption|apply after_refl].
Qed.

Lemma killUnlessKilled_tunnel ev q s p t :
  tunnels s !! p = Some t ->
  exists t', tunnels (fst (killUnlessKilled q s)) !! p = Some t' /\ after ev p t t'.
Proof.
  intros Ht. unfold Forward.killUnlessKilled. destruct (killedOf s q).
  - exists t. split; [assumption|apply after_refl].
  - now apply kill_tunnel.
Qed.

Lemma settle_tunnel ev q v s p t :
  tunnels s !! p = Some t -> (q = p -> resolved t = true -> ev = Timeout p) ->
  exists t', tunnels (settle q v s) !! p = Some t' /\ after ev p t t'.
Proof.
  intros Ht Hq. unfold settle.
  destruct (tunnels s !! q) as [u|] eqn:Hu; [|exists t; split; [assumption|apply after_refl]].
  destruct (promise u) eqn:Hprom;
    try (exists t; split; [assumption|apply after_refl]).
  assert (Hgoal : exists t', <[q := setPromise v u]> (tunnels s) !! p = Some t'
                             /\ after ev p t t').
  { insert_cases p q.
    - rewrite Ht in Hu. injection Hu as <-. eexists. split; [reflexivity|].
      unfold after. simpl. split; [reflexivity|]. split; [auto|].
      intros Hres. split; [assumption|]. intros Hev.
      exfalso. apply Hev. now apply Hq.
    - exists t. split; [assumption|apply after_refl]. }
  destruct (lock s) as [l|]; [destruct (Nat.eqb l q)|]; exact Hgoal.
Qed.

Lemma handle_tunnel ev s p t :
  tunnels s !! p = Some t ->
  exists t', tunnels (fst (handle ev s)) !! p = Some t' /\ after ev p t t'.
Proof.
  intros Ht.
  assert (Hsame : exists t', tunnels s !! p = Some t' /\ after ev p t t')
    by (exists t; split; [assumption|apply after_refl]).
  destruct ev as [target port|q code|q error|q line|q line|q|target port|]; simpl.
  - exact Hsame.
  - unfold onClose. destruct (tunnels s !! q) as [u|] eqn:Hu; [|exact Hsame].
    set (s1 := match regGet _ _ with Some _ => _ | None => s end).
    assert (Ht1 : tunnels s1 !! p = Some t) by (subst s1; now destruct (regGet _ _)).
    destruct (resolved u) eqn:Hres; simpl.
    + exists t. split; [assumption|apply after_refl].
    + apply settle_tunnel; [assumption|]. intros ->. rewrite Ht in Hu. congruence.
  - unfold Forward.onError. destruct (tunnels s !! q); [|exact Hsame].
    destruct (killUnlessKilled_tunnel (Error q error) q s p t Ht) as (t' & Ht' & Ha).
    destruct (killUnlessKilled q s) as [s1 [e|]]; eauto.
  - unfold onStdout. destruct (tunnels s !! q) as [u|] eqn:Hu; [|exact Hsame].
    destruct (resolved u) eqn:Hres; [exact Hsame|].
    destruct (includes _ line); simpl; insert_cases p q;
      try (exists t; split; [assumption|apply after_refl]);
      rewrite Ht in Hu; injection Hu as <-; eexists; (split; [reflexivity|]);
      unfold after; simpl; (split; [reflexivity|]); (split; [auto|]); congruence.
  - unfold Forward.onStderr. destruct (tunnels s !! q) as [u|] eqn:Hu; [|exact Hsame].
    set (s1 := setTunnels _ s).
    assert (H1 : exists t1, tunnels s1 !! p = Some t1 /\ after (Stderr q line) p t t1).
    { subst s1. simpl. insert_cases p q.
      - rewrite Ht in Hu. injection Hu as <-. eexists. split; [reflexivity|].
        unfold after. simpl. auto.
      - exists t. split; [assumption|apply after_refl]. }
    destruct (fatal line); [|exact H1].
    destruct H1 as (t1 & Ht1 & Ha1).
    destruct (killUnlessKilled_tunnel (Stderr q line) q s1 p t1 Ht1) as (t' & Ht' & Ha).
    exists t'. split; [assumption|]. now apply (after_trans _ _ t t1 t').
  - unfold onTimeout. destruct (tunnels s !! q) as [u|] eqn:Hu; [|exact Hsame].
    destruct (sleeping u) eqn:Hsl; [|exact Hsame]. simpl.
    set (s1 := setTunnels _ s).
    assert (H1 : exists t1, tunnels s1 !! p = Some t1 /\ after (Timeout q) p t t1
                            /\ resolved t1 = resolved t).
    { subst s1. simpl. insert_cases p q.
      - rewrite Ht in Hu. injection Hu as <-. eexists. split; [reflexivity|].
        unfold after. simpl. split; [|reflexivity]. split; [reflexivity|].
        split; [auto|]. intros Hres. split; [assumption|]. intros Hev. congruence.
      - exists t. split; [assumption|]. split; [apply after_refl|reflexivity]. }
    destruct H1 as (t1 & Ht1 & Ha1 & Hr1).
    destruct (settle_tunnel (Timeout q) q (Fulfilled (portForward u)) s1 p t1 Ht1)
      as (t' & Ht' & Ha); [congruence|].
    exists t'. split; [assumption|]. now apply (after_trans _ _ t t1 t').
  - unfold Forward.killPortForward. destruct (regGet _ _); [|exact Hsame].
    now apply killUnlessKilled_tunnel.
  - unfold Forward.cleanup. generalize (map snd (registeredPortForwards s)) at 1.
    intros values. revert s t Ht Hsame.
    induction values as [|fwd values IH]; intros s t Ht Hsame; simpl; [exact Hsame|].
    unfold Forward.killPortForward. destruct (regGet _ _) as [reg|].
    + destruct (killUnlessKilled_tunnel Cleanup (proc reg) s p t Ht) as (t1 & Ht1 & Ha1).
      destruct (killUnlessKilled (proc reg) s) as [s1 [e|]]; simpl in *; [eauto|].
      destruct (IH s1 t1 Ht1) as (t' & Ht' & Ha).
      { exists t1. split; [assumption|apply after_refl]. }
      exists t'. split; [assumption|]. now apply (after_trans _ _ t t1 t').
    + apply IH; assumption.
Qed.

Lemma enter_tunnel c s p t :
  tunnels s !! p = Some t -> tunnels (enter c s) !! p = Some t.
Proof.
  intros Ht. unfold Forward.enter. destruct (calls s !! c); [|assumption].
  destruct (regGet _ _); [destruct (negb _)|]; simpl;
    first [assumption | now apply lookup_snoc_old].
Qed.

Lemma enter_registered c s :
  registeredPortForwards (enter c s) = registeredPortForwards s.
Proof.
  unfold Forward.enter. destruct (calls s !! c); [|reflexivity].
  destruct (regGet _ _); [destruct (negb _)|]; reflexivity.
Qed.

Lemma enter_uncaught c s : uncaught (enter c s) = uncaught s.
Proof.
  unfold Forward.enter. destruct (calls s !! c); [|reflexivity].
  destruct (regGet _ _); [destruct (negb _)|]; reflexivity.
Qed.

Lemma dispatch_tunnel waiting s p t :
  tunnels s !! p = Some t -> tunnels (dispatch waiting s) !! p = Some t.
Proof.
  revert s. induction waiting as [|c rest IH]; intros s Ht; simpl; [assumption|].
  destruct (lock s); [assumption|]. apply IH. now apply enter_tunnel.
Qed.

Lemma dispatch_registered waiting s :
  registeredPortForwards (dispatch waiting s) = registeredPortForwards s.
Proof.
  revert s. induction waiting as [|c rest IH]; intros s; simpl; [reflexivity|].
  destruct (lock s); [reflexivity|]. now rewrite IH, enter_registered.
Qed.

Lemma dispatch_uncaught waiting s : uncaught (dispatch waiting s) = uncaught s.
Proof.
  revert s. induction waiting as [|c rest IH]; intros s; simpl; [reflexivity|].
  destruct (lock s); [reflexivity|]. now rewrite IH, enter_uncaught.
Qed.

Lemma step_tunnels ev s p t :
  tunnels (fst (handle ev s)) !! p = Some t -> tunnels (step ev s) !! p = Some t.
Proof.
  unfold Forward.step. destruct (handle ev s) as [s1 [e|]]; simpl; intros H;
    now apply dispatch_tunnel.
Qed.

Lemma step_registered ev s :
  registeredPortForwards (step ev s) = registeredPortForwards (fst (handle ev s)).
Proof.
  unfold Forward.step, Forward.schedule. destruct (handle ev s) as [s1 [e|]]; simpl;
    now rewrite dispatch_registered.
Qed.

Lemma step_uncaught ev s :
  uncaught (step ev s)
  = match snd (handle ev s) with
    | Some e => (uncaught (fst (handle ev s)) ++ [e])%list
    | None => uncaught (fst (handle ev s))
    end.
Proof.
  unfold Forward.step, Forward.schedule. destruct (handle ev s) as [s1 [e|]]; simpl;
    now rewrite dispatch_uncaught.
Qed.

(** A turn in which the handler leaves lock and queue alone ends with the
    handler. *)
Lemma step_quiet ev s :
  reachable s ->
  lock (fst (handle ev s)) = lock s -> queue (fst (handle ev s)) = queue s ->
  step ev s
  = match snd (handle ev s) with
    | Some e => setUncaught (uncaught (fst (handle ev s)) ++ [e])%list (fst (handle ev s))
    | None => fst (handle ev s)
    end.
Proof.
  intros Hr Hlock Hqueue. unfold Forward.step.
  destruct (handle ev s) as [s1 [e|]]; simpl in *;
    apply schedule_stable; simpl; rewrite Hlock, Hqueue; now apply reachable_Inv.
Qed.

Lemma step_quiet_eq ev s s1 exn :
  reachable s -> handle ev s = (s1, exn) -> lock s1 = lock s -> queue s1 = queue s ->
  step ev s
  = match exn with
    | Some e => setUncaught (uncaught s1 ++ [e])%list s1
    | None => s1
    end.
Proof.
  intros Hr Hh Hlock Hqueue. rewrite step_quiet; rewrite ?Hh; auto.
Qed.

Lemma dispatch_busy waiting s q :
  lock s = Some q -> dispatch waiting s = setQueue waiting s.
Proof. intros H. destruct waiting; simpl; [reflexivity|]. now rewrite H. Qed.

Lemma settle_registered p v s :
  registeredPortForwards (settle p v s) = registeredPortForwards s.
Proof.
  unfold settle. destruct (tunnels s !! p) as [t|]; [|reflexivity].
  destruct (promise t); try reflexivity.
  destruct (lock s) as [l|]; [destruct (Nat.eqb l p)|]; reflexivity.
Qed.

Lemma settle_pending p v s t :
  tunnels s !! p = Some t -> promise t = Pending ->
  tunnels (settle p v s) !! p = Some (setPromise v t).
Proof.
  intros Ht Hp. unfold settle. rewrite Ht, Hp.
  assert (H : <[p := setPromise v t]> (tunnels s) !! p = Some (setPromise v t))
    by (apply list_lookup_insert_eq; now apply lookup_lt_Some in Ht).
  destruct (lock s) as [l|]; [destruct (Nat.eqb l p)|]; exact H.
Qed.

Lemma setRegistered_same s : setRegistered (registeredPortForwards s) s = s.
Proof. now destruct s. Qed.

(** The close handler, as the statements on close and on stderr use it. *)
Lemma close_effect s p t code :
  reachable s -> tunnels s !! p = Some t ->
  regGet (keyOf (portForward t)) (registeredPortForwards (step (Close p code) s)) = None
  /\ (resolved t = false -> promise t = Pending ->
      tunnels (step (Close p code) s) !! p
      = Some (setPromise (Rejected (exitError code t)) t))
  /\ (resolved t = true ->
      step (Close p code) s
      = setRegistered (regDelete (keyOf (portForward t)) (registeredPortForwards s)) s).
Proof.
  intros Hr Ht.
  set (s1 := match regGet (keyOf (portForward t)) (registeredPortForwards s) with
             | Some _ => setRegistered
                           (regDelete (keyOf (portForward t)) (registeredPortForwards s)) s
             | None => s
             end).
  assert (Hs1 : s1 = setRegistered
                       (regDelete (keyOf (portForward t)) (registeredPortForwards s)) s).
  { subst s1. destruct (regGet _ _) eqn:E; [reflexivity|].
    rewrite (regDelete_absent _ _ E). symmetry. apply setRegistered_same. }
  assert (Hh : handle (Close p code) s
               = if negb (resolved t)
                 then (settle p (Rejected (exitError code t)) s1, None)
                 else (s1, None)).
  { simpl. unfold onClose. rewrite Ht. reflexivity. }
  split; [|split].
  - rewrite step_registered, Hh.
    destruct (negb (resolved t)); simpl; rewrite ?settle_registered, Hs1; simpl;
      apply regGet_regDelete_eq.
  - intros Hres Hp. apply step_tunnels. rewrite Hh, Hres. simpl.
    apply settle_pending; [|assumption]. rewrite Hs1. exact Ht.
  - intros Hres. rewrite Hres in Hh. simpl in Hh.
    rewrite (step_quiet_eq (Close p code) s s1 None Hr Hh); rewrite Hs1; reflexivity.
Qed.

Lemma step_tunnel ev s p t :
  tunnels s !! p = Some t ->
  exists t', tunnels (step ev s) !! p = Some t' /\ after ev p t t'.
Proof.
  intros Ht. destruct (handle_tunnel ev s p t Ht) as (t' & Ht' & Ha).
  exists t'. split; [now apply step_tunnels|assumption].
Qed.

Lemma status_pending t : status t = StatusPending <-> resolved t = false.
Proof. unfold status. destruct (resolved t); split; congruence. Qed.

Lemma status_active t : status t = StatusActive <-> resolved t = true.
Proof. unfold status. destruct (resolved t); split; congruence. Qed.

Lemma result_creating s call p t :
  c_status call = Creating p -> tunnels s !! p = Some t -> result s call = promise t.
Proof. unfold result. now intros -> ->. Qed.

(** C5.  A close event of a tunnel's process removes the tunnel's key from
    the registry.  If readiness was never observed and the caller still
    waits, the call is rejected with an error that carries the exit code and,
    in its message, the whole accumulated output.  If the tunnel was active,
    the state changes in nothing but the registry. *)
Theorem close_removes_and_rejects s p t code :
  reachable s -> tunnels s !! p = Some t ->
  regGet (keyOf (portForward t)) (registeredPortForwards (step (Close p code) s)) = None
  /\ (status t = StatusPending -> promise t = Pending ->
      (forall call, c_status call = Creating p ->
         result (step (Close p code) s) call = Rejected (exitError code t))
      /\ detail_code (exitError code t) = code
      /\ message (exitError code t)
         = "Port forward exited with code " +:+ showCode code
           +:+ " before establishing connection:" +:+ newline +:+ newline +:+ output t)
  /\ (status t = StatusActive ->
      step (Close p code) s
      = setRegistered (regDelete (keyOf (portForward t)) (registeredPortForwards s)) s).
Proof.
  intros Hr Ht. destruct (close_effect s p t code Hr Ht) as (Hgone & Hrej & Hact).
  split; [exact Hgone|]. split.
  - intros Hst Hp. apply status_pending in Hst. split; [|split; reflexivity].
    intros call Hcall. now rewrite (result_creating _ call p _ Hcall (Hrej Hst Hp)).
  - intros Hst. apply Hact. now apply status_active.
Qed.

(** The stderr handler on a fatal line. *)
Lemma stderr_effect s p t line :
  reachable s -> tunnels s !! p = Some t -> fatal line = true ->
  let t0 := setOutput (output t +:+ line) t in
  let s0 := setTunnels (<[p := t0]> (tunnels s)) s in
  (killed t = true -> step (Stderr p line) s = s0)
  /\ (killed t = false -> killError p = None ->
      step (Stderr p line) s = setTunnels (<[p := setKilled true t0]> (tunnels s0)) s0)
  /\ (killed t = false -> forall e, killError p = Some e ->
      step (Stderr p line) s = setUncaught (uncaught s ++ [e])%list s0).
Proof.
  intros Hr Ht Hfatal t0 s0.
  assert (Ht0 : tunnels s0 !! p = Some t0)
    by (apply list_lookup_insert_eq; now apply lookup_lt_Some in Ht).
  assert (Hh : handle (Stderr p line) s = killUnlessKilled p s0).
  { simpl. unfold Forward.onStderr. now rewrite Ht, Hfatal. }
  assert (Hk : killedOf s0 p = killed t) by (unfold killedOf; now rewrite Ht0).
  unfold Forward.killUnlessKilled, Forward.kill in Hh. rewrite Hk, Ht0 in Hh.
  split; [|split].
  - intros Hkilled. rewrite Hkilled in Hh.
    now rewrite (step_quiet_eq _ _ _ _ Hr Hh).
  - intros Hkilled Hnone. rewrite Hkilled, Hnone in Hh.
    now rewrite (step_quiet_eq _ _ _ _ Hr Hh).
  - intros Hkilled e He. rewrite Hkilled, He in Hh.
    now rewrite (step_quiet_eq _ _ _ _ Hr Hh).
Qed.

(** C6.  A stderr line with one of the fatal substrings makes the handler
    kill the process unless it is killed already: the [killed] flag is set
    when [kill] succeeds, and an exception of [kill] is all that escapes.
    The handler neither settles the promise nor touches the registry or the
    lock, so a waiting caller stays waiting; the close event that follows
    removes the key and rejects the caller that is still pending. *)
Theorem fatal_stderr_kills s p t line code :
  reachable s -> tunnels s !! p = Some t -> fatal line = true ->
  registeredPortForwards (step (Stderr p line) s) = registeredPortForwards s
  /\ lock (step (Stderr p line) s) = lock s
  /\ (exists t1,
        tunnels (step (Stderr p line) s) !! p = Some t1
        /\ promise t1 = promise t /\ resolved t1 = resolved t
        /\ output t1 = output t +:+ line
        /\ (killed t = true -> killed t1 = true
            /\ uncaught (step (Stderr p line) s) = uncaught s)
        /\ (killed t = false -> killError p = None -> killed t1 = true
            /\ uncaught (step (Stderr p line) s) = uncaught s)
        /\ (killed t = false -> forall e, killError p = Some e -> killed t1 = false
            /\ uncaught (step (Stderr p line) s) = (uncaught s ++ [e])%list)
        /\ (forall call, c_status call = Creating p ->
              result (step (Stderr p line) s) call = result s call)
        /\ regGet (keyOf (portForward t))
             (registeredPortForwards (step (Close p code) (step (Stderr p line) s))) = None
        /\ (status t = StatusPending -> promise t = Pending ->
            forall call, c_status call = Creating p ->
              result (step (Close p code) (step (Stderr p line) s)) call
              = Rejected (exitError code t1))).
Proof.
  intros Hr Ht Hfatal.
  destruct (stderr_effect s p t line Hr Ht Hfatal) as (Hdead & Hkill & Hthrow).
  set (t0 := setOutput (output t +:+ line) t) in *.
  set (s0 := setTunnels (<[p := t0]> (tunnels s)) s) in *.
  assert (Hlt : (p < length (tunnels s))%nat) by now apply lookup_lt_Some in Ht.
  assert (Ht0 : tunnels s0 !! p = Some t0) by now apply list_lookup_insert_eq.
  assert (Hmain : exists t1,
             tunnels (step (Stderr p line) s) !! p = Some t1
             /\ registeredPortForwards (step (Stderr p line) s) = registeredPortForwards s
             /\ lock (step (Stderr p line) s) = lock s
             /\ portForward t1 = portForward t
             /\ promise t1 = promise t /\ resolved t1 = resolved t
             /\ output t1 = output t +:+ line
             /\ (killed t = true -> killed t1 = true
                 /\ uncaught (step (Stderr p line) s) = uncaught s)
             /\ (killed t = false -> killError p = None -> killed t1 = true
                 /\ uncaught (step (Stderr p line) s) = uncaught s)
             /\ (killed t = false -> forall e, killError p = Some e -> killed t1 = false
                 /\ uncaught (step (Stderr p line) s) = (uncaught s ++ [e])%list)).
  { destruct (killed t) eqn:Hkilled.
    - rewrite (Hdead eq_refl). exists t0. split; [exact Ht0|]. fields.
    - destruct (killError p) as [e|] eqn:He.
      + rewrite (Hthrow eq_refl e eq_refl). exists t0. split; [exact Ht0|]. fields.
      + rewrite (Hkill eq_refl eq_refl). exists (setKilled true t0). split.
        * simpl. apply list_lookup_insert_eq. now rewrite length_insert.
        * fields. }
  destruct Hmain as (t1 & Ht1 & Hreg & Hlock & Hfwd & Hprom & Hres & Hout & H1 & H2 & H3).
  split; [exact Hreg|]. split; [exact Hlock|].
  exists t1. repeat (split; [assumption|]).
  pose proof (reachable_step (Stderr p line) s Hr) as Hr1.
  destruct (close_effect _ p t1 code Hr1 Ht1) as (Hgone & Hrej & _).
  split; [|split].
  - intros call Hcall. rewrite (result_creating _ call p t1 Hcall Ht1).
    rewrite (result_creating _ call p t Hcall Ht). exact Hprom.
  - now rewrite <- Hfwd.
  - intros Hst Hp call Hcall. apply status_pending in Hst.
    rewrite (result_creating _ call p _ Hcall (Hrej ltac:(congruence) ltac:(congruence))).
    reflexivity.
Qed.

(** The error handler never settles the promise of its tunnel. *)
Lemma error_effect s p t error :
  tunnels s !! p = Some t ->
  exists t' e,
    tunnels (step (Error p error) s) !! p = Some t'
    /\ promise t' = promise t
    /\ uncaught (step (Error p error) s) = (uncaught s ++ [e])%list.
Proof.
  intros Ht.
  assert (Hh : forall s1 exn, killUnlessKilled p s = (s1, exn) ->
             uncaught s1 = uncaught s
             /\ exists t', tunnels s1 !! p = Some t' /\ promise t' = promise t).
  { unfold Forward.killUnlessKilled, Forward.kill. intros s1 exn.
    destruct (killedOf s p); [intros [= <- <-]; eauto|].
    destruct (killError p); [intros [= <- <-]; eauto|].
    rewrite Ht. intros [= <- <-]. split; [reflexivity|].
    exists (setKilled true t). split; [|reflexivity].
    apply list_lookup_insert_eq. now apply lookup_lt_Some in Ht. }
  destruct (killUnlessKilled p s) as [s1 exn] eqn:E.
  destruct (Hh s1 exn eq_refl) as (Hu & t' & Ht' & Hp).
  assert (Hhandle : exists e, handle (Error p error) s = (s1, Some e)).
  { simpl. unfold Forward.onError. rewrite Ht, E. destruct exn; eauto. }
  destruct Hhandle as [e Hhandle]. exists t', e. split; [|split].
  - apply step_tunnels. now rewrite Hhandle.
  - exact Hp.
  - rewrite step_uncaught, Hhandle. simpl. now rewrite Hu.
Qed.

(** ** The cleanup function *)

Lemma killedOnly_refl s : killedOnly s s.
Proof. unfold killedOnly. repeat split; auto. Qed.

Lemma killedOnly_trans s1 s2 s3 : killedOnly s1 s2 -> killedOnly s2 s3 -> killedOnly s1 s3.
Proof.
  unfold killedOnly.
  intros (Hr1 & Hc1 & Hq1 & Hl1 & Hu1 & Hn1 & Ht1) (Hr2 & Hc2 & Hq2 & Hl2 & Hu2 & Hn2 & Ht2).
  repeat (split; [congruence|]).
  intros q t Hq. destruct (Ht1 q t Hq) as [H|[Hk H]].
  - apply Ht2 in H. exact H.
  - right. split; [assumption|]. destruct (Ht2 q _ H) as [H'|[Hk' H']]; [assumption|].
    simpl in Hk'. discriminate.
Qed.

Lemma killedOnly_killedOf s s' q : killedOnly s s' -> killedOf s q = true -> killedOf s' q = true.
Proof.
  intros (_ & _ & _ & _ & _ & Hlen & Ht). unfold killedOf.
  destruct (tunnels s !! q) as [t|] eqn:E.
  - destruct (Ht q t E) as [->|[_ ->]]; auto.
  - intros _. apply lookup_ge_None in E. rewrite <- Hlen in E.
    apply lookup_ge_None in E. now rewrite E.
Qed.

(** The three ways of [!proc.killed && proc.kill()]. *)
Lemma killUnlessKilled_cases p s :
  (killedOf s p = true /\ killUnlessKilled p s = (s, None))
  \/ (killedOf s p = false
      /\ exists e, killError p = Some e /\ killUnlessKilled p s = (s, Some e))
  \/ (killedOf s p = false /\ killError p = None
      /\ exists s1, killUnlessKilled p s = (s1, None)
                    /\ killedOnly s s1 /\ killedOf s1 p = true
                    /\ forall q, q <> p -> tunnels s1 !! q = tunnels s !! q).
Proof.
  unfold Forward.killUnlessKilled, Forward.kill.
  destruct (killedOf s p) eqn:Hk; [now left|]. right.
  destruct (killError p) as [e|]; [left; eauto|]. right.
  split; [reflexivity|]. split; [reflexivity|].
  unfold killedOf in Hk. destruct (tunnels s !! p) as [t|] eqn:Ht; [|discriminate].
  eexists. split; [reflexivity|].
  assert (Hlt : (p < length (tunnels s))%nat) by now apply lookup_lt_Some in Ht.
  split; [|split].
  - unfold killedOnly. simpl. repeat (split; [reflexivity|]).
    split; [apply length_insert|].
    intros q u Hu. destruct (decide (q = p)) as [->|Hne].
    + right. rewrite Ht in Hu. injection Hu as <-. split; [assumption|].
      now apply list_lookup_insert_eq.
    + left. now rewrite list_lookup_insert_ne.
  - unfold killedOf. simpl. now rewrite list_lookup_insert_eq.
  - intros q Hne. simpl. now rewrite list_lookup_insert_ne.
Qed.

Lemma killEach_killedOnly procs s : killedOnly s (fst (killEach killError procs s)).
Proof.
  revert s. induction procs as [|p procs IH]; intros s; simpl; [apply killedOnly_refl|].
  destruct (killUnlessKilled_cases p s)
    as [[_ ->]|[(_ & e & _ & ->)|(_ & _ & s1 & -> & Hs1 & _)]].
  - apply IH.
  - apply killedOnly_refl.
  - eapply killedOnly_trans; [exact Hs1|apply IH].
Qed.

Lemma killEach_all procs s :
  (forall p, In p procs -> killedOf s p = false -> killError p = None) ->
  snd (killEach killError procs s) = None
  /\ forall p, In p procs -> killedOf (fst (killEach killError procs s)) p = true.
Proof.
  revert s. induction procs as [|p procs IH]; intros s Hok; simpl.
  - split; [reflexivity|intros p []].
  - destruct (killUnlessKilled_cases p s)
      as [[Hk ->]|[(Hk & e & He & _)|(_ & _ & s1 & -> & Hs1 & Hk1 & _)]].
    + destruct (IH s) as [Hnone Hall]; [intros q Hq; apply Hok; now right|].
      split; [exact Hnone|]. intros q [<-|Hq]; [|now apply Hall].
      eapply killedOnly_killedOf; [apply killEach_killedOnly|exact Hk].
    + rewrite (Hok p (or_introl eq_refl) Hk) in He. discriminate.
    + destruct (IH s1) as [Hnone Hall].
      { intros q Hq Hkq. apply Hok; [now right|].
        destruct (killedOf s q) eqn:E; [|reflexivity].
        rewrite (killedOnly_killedOf s s1 q Hs1 E) in Hkq. discriminate. }
      split; [exact Hnone|]. intros q [<-|Hq]; [|now apply Hall].
      eapply killedOnly_killedOf; [apply killEach_killedOnly|exact Hk1].
Qed.

Lemma killEach_untouched procs s q :
  ~ In q procs -> tunnels (fst (killEach killError procs s)) !! q = tunnels s !! q.
Proof.
  revert s. induction procs as [|p procs IH]; intros s Hq; simpl; [reflexivity|].
  assert (Hne : q <> p) by (intros ->; apply Hq; now left).
  assert (Hrest : ~ In q procs) by (intros H; apply Hq; now right).
  destruct (killUnlessKilled_cases p s)
    as [[_ ->]|[(_ & e & _ & ->)|(_ & _ & s1 & -> & _ & _ & Hsame)]].
  - now apply IH.
  - reflexivity.
  - rewrite IH by assumption. now apply Hsame.
Qed.








(** The stdout handler on the first line with the readiness marker. *)
Lemma stdout_ready_effect s p t line :
  reachable s -> tunnels s !! p = Some t -> resolved t = false ->
  includes "Forwarding from " line = true ->
  step (Stdout p line) s
  = setRegistered
      (regSet (keyOf (portForward t)) (portForward t) (registeredPortForwards s))
      (setTunnels
         (<[p := setSleeping (Some 250)
                   (setResolved true (setOutput (output t +:+ line) t))]> (tunnels s)) s).
Proof.
  intros Hr Ht Hres Hline.
  assert (Hh : handle (Stdout p line) s
               = (setRegistered
                    (regSet (keyOf (portForward t)) (portForward t)
                       (registeredPortForwards s))
                    (setTunnels
                       (<[p := setSleeping (Some 250)
                                 (setResolved true (setOutput (output t +:+ line) t))]>
                          (tunnels s)) s), None)).
  { simpl. unfold onStdout. now rewrite Ht, Hres, Hline. }
  now rewrite (step_quiet_eq _ _ _ _ Hr Hh).
Qed.

Lemma stdout_resolved_noop s p t line :
  reachable s -> tunnels s !! p = Some t -> resolved t = true ->
  step (Stdout p line) s = s.
Proof.
  intros Hr Ht Hres.
  assert (Hh : handle (Stdout p line) s = (s, None)).
  { simpl. unfold onStdout. now rewrite Ht, Hres. }
  now rewrite (step_quiet_eq _ _ _ _ Hr Hh).
Qed.

Lemma timeout_effect s p t d :
  tunnels s !! p = Some t -> sleeping t = Some d -> promise t = Pending ->
  tunnels (step (Timeout p) s) !! p
  = Some (setPromise (Fulfilled (portForward t)) (setSleeping None t)).
Proof.
  intros Ht Hsl Hp. apply step_tunnels. simpl. unfold onTimeout. rewrite Ht, Hsl. simpl.
  apply settle_pending; [|assumption]. simpl.
  apply list_lookup_insert_eq. now apply lookup_lt_Some in Ht.
Qed.

(** Once the marker was seen, nothing but the settle timer touches the
    promise of the tunnel. *)
Lemma waiting_preserved p evs s t :
  tunnels s !! p = Some t -> resolved t = true -> ~ In (Timeout p) evs ->
  exists t', tunnels (run evs s) !! p = Some t'
             /\ portForward t' = portForward t /\ resolved t' = true
             /\ promise t' = promise t /\ sleeping t' = sleeping t.
Proof.
  revert s t. induction evs as [|ev evs IH]; intros s t Ht Hres Hnot.
  - exists t. auto.
  - destruct (step_tunnel ev s p t Ht) as (t1 & Ht1 & Hfwd & _ & Hafter).
    destruct (Hafter Hres) as [Hres1 Hkeep].
    destruct Hkeep as [Hp1 Hs1]; [intros ->; apply Hnot; now left|].
    destruct (IH (step ev s) t1 Ht1 Hres1) as (t' & Ht' & Hfwd' & Hres' & Hp' & Hs').
    { intros Hin. apply Hnot. now right. }
    exists t'. split; [exact Ht'|]. repeat split; congruence.
Qed.

(** C4.  For a pending creation, the first stdout line with the readiness
    marker registers the descriptor under the key and turns the tunnel from
    pending to active; the caller is not resolved by that line but by the
    timer of the settle delay of 250 ms, whatever happens in between, with
    the descriptor made of the requested target and port and the allocated
    local port; no stdout line after the marker changes anything. *)
Theorem readiness_resolves s p t line :
  reachable s -> tunnels s !! p = Some t -> status t = StatusPending ->
  promise t = Pending -> includes "Forwarding from " line = true ->
  regGet (keyOf (portForward t)) (registeredPortForwards (step (Stdout p line) s))
  = Some (portForward t)
  /\ (exists t1,
        tunnels (step (Stdout p line) s) !! p = Some t1
        /\ status t1 = StatusActive /\ promise t1 = Pending /\ sleeping t1 = Some 250)
  /\ (forall evs, ~ In (Timeout p) evs ->
        (exists t2,
           tunnels (run evs (step (Stdout p line) s)) !! p = Some t2
           /\ status t2 = StatusActive /\ promise t2 = Pending)
        /\ (exists t3,
              tunnels (step (Timeout p) (run evs (step (Stdout p line) s))) !! p = Some t3
              /\ promise t3 = Fulfilled (portForward t))
        /\ (forall call, c_status call = Creating p ->
              result (step (Timeout p) (run evs (step (Stdout p line) s))) call
              = Fulfilled (portForward t))
        /\ (forall later,
              step (Stdout p later) (run evs (step (Stdout p line) s))
              = run evs (step (Stdout p line) s))
        /\ (forall later,
              step (Stdout p later) (step (Timeout p) (run evs (step (Stdout p line) s)))
              = step (Timeout p) (run evs (step (Stdout p line) s))))
  /\ (forall c call, calls s !! c = Some call -> c_status call = Creating p ->
        portForward t = {| targetResource := c_targetResource call; port := c_port call;
                           localPort := getPort p; proc := p |}).
Proof.
  intros Hr Ht Hst Hp Hline. apply status_pending in Hst.
  pose proof (stdout_ready_effect s p t line Hr Ht Hst Hline) as Hstep.
  set (t1 := setSleeping (Some 250) (setResolved true (setOutput (output t +:+ line) t)))
    in Hstep.
  assert (Ht1 : tunnels (step (Stdout p line) s) !! p = Some t1).
  { rewrite Hstep. simpl. apply list_lookup_insert_eq. now apply lookup_lt_Some in Ht. }
  pose proof (reachable_step (Stdout p line) s Hr) as Hr1.
  split; [|split; [|split]].
  - rewrite Hstep. simpl. apply regGet_regSet_eq.
  - exists t1. split; [exact Ht1|]. fields.
  - intros evs Hnot.
    destruct (waiting_preserved p evs _ t1 Ht1 eq_refl Hnot)
      as (t2 & Ht2 & Hfwd2 & Hres2 & Hp2 & Hs2).
    pose proof (reachable_run evs _ Hr1) as Hr2.
    pose proof (timeout_effect _ p t2 250 Ht2 Hs2 ltac:(now rewrite Hp2)) as Ht3.
    rewrite Hfwd2 in Ht3. simpl in Ht3.
    split; [|split; [|split; [|split]]].
    + exists t2. split; [exact Ht2|]. split; [now apply status_active|].
      now rewrite Hp2.
    + eexists. split; [exact Ht3|reflexivity].
    + intros call Hcall. now rewrite (result_creating _ call p _ Hcall Ht3).
    + intros later. now apply (stdout_resolved_noop _ p t2).
    + intros later. eapply stdout_resolved_noop;
        [now apply reachable_step | exact Ht3 | exact Hres2].
  - intros c call Hcall Hstatus.
    destruct (inv_calls _ _ (proj1 (reachable_Inv _ Hr)) c call p Hcall Hstatus)
      as (u & Hu & Hfwd).
    rewrite Ht in Hu. injection Hu as <-. exact Hfwd.
Qed.

Lemma acquire_queued s q target port :
  lock s = Some q ->
  step (GetPortForward target port) s
  = setQueue (queue s ++ [length (calls s)])%list
      (setCalls (calls s ++ [ {| c_targetResource := target; c_port := port;
                                 c_status := Queued |} ])%list s).
Proof.
  intros Hlock. unfold Forward.step, Forward.schedule. simpl.
  now rewrite (dispatch_busy _ _ q).
Qed.

(** C3 (as amended).  While the promise of a creation is unsettled the
    registration lock is held by that creation, through the wait for
    readiness and the settle delay: a later call of [getPortForward] is put
    in the queue and inspects nothing.  While readiness is awaited the
    registry holds no descriptor of the new process; the stdout handler
    inserts it when it sees the readiness marker, still under the lock. *)
Theorem registered_on_readiness s p t :
  reachable s -> tunnels s !! p = Some t -> promise t = Pending ->
  lock s = Some p
  /\ (status t = StatusPending ->
      forall k fwd, In (k, fwd) (registeredPortForwards s) -> proc fwd <> p)
  /\ (forall target port,
        calls (step (GetPortForward target port) s) !! length (calls s)
        = Some {| c_targetResource := target; c_port := port; c_status := Queued |}
        /\ tunnels (step (GetPortForward target port) s) = tunnels s
        /\ registeredPortForwards (step (GetPortForward target port) s)
           = registeredPortForwards s
        /\ lock (step (GetPortForward target port) s) = Some p)
  /\ (forall line,
        status t = StatusPending -> includes "Forwarding from " line = true ->
        regGet (keyOf (portForward t)) (registeredPortForwards (step (Stdout p line) s))
        = Some (portForward t)
        /\ lock (step (Stdout p line) s) = Some p).
Proof.
  intros Hr Ht Hp. destruct (reachable_Inv _ Hr) as [HI _].
  pose proof (inv_lock _ _ HI p t Ht Hp) as Hlock.
  split; [exact Hlock|]. split; [|split].
  - intros Hst k fwd Hin Heq. apply status_pending in Hst.
    destruct (inv_reg _ _ HI k fwd Hin) as (_ & u & Hu & _ & Hres).
    rewrite Heq, Ht in Hu. congruence.
  - intros target port. rewrite (acquire_queued s p target port Hlock). simpl.
    split; [|auto]. rewrite lookup_app_r by reflexivity. now rewrite Nat.sub_diag.
  - intros line Hst Hline. apply status_pending in Hst.
    rewrite (stdout_ready_effect s p t line Hr Ht Hst Hline). simpl.
    split; [apply regGet_regSet_eq|exact Hlock].
Qed.

(** ** Reuse and the creation window *)

Lemma enter_reuse c s call registered :
  calls s !! c = Some call ->
  regGet (getPortForwardKey (c_targetResource call) (c_port call))
    (registeredPortForwards s) = Some registered ->
  killedOf s (proc registered) = false ->
  enter c s = setCalls (<[c := setStatus (Reused registered) call]> (calls s)) s.
Proof. intros Hc Hreg Hk. unfold Forward.enter. now rewrite Hc, Hreg, Hk. Qed.

Lemma enter_create c s call :
  calls s !! c = Some call ->
  needsCreation (getPortForwardKey (c_targetResource call) (c_port call)) s ->
  enter c s
  = setLock (Some (length (tunnels s)))
      (setCalls (<[c := setStatus (Creating (length (tunnels s))) call]> (calls s))
         (setTunnels
            (tunnels s ++ [ {| portForward :=
                                 {| targetResource := c_targetResource call;
                                    port := c_port call;
                                    localPort := getPort (length (tunnels s));
                                    proc := length (tunnels s) |};
                               killed := false; resolved := false; output := "";
                               sleeping := None; promise := Pending |} ])%list s)).
Proof.
  intros Hc Hneed. unfold Forward.enter, needsCreation in *. rewrite Hc.
  destruct (regGet _ _); [|reflexivity]. now rewrite Hneed.
Qed.

Lemma lookup_snoc_new {A} (l : list A) (x : A) : (l ++ [x])%list !! length l = Some x.
Proof. rewrite lookup_app_r by reflexivity. now rewrite Nat.sub_diag. Qed.

Lemma acquire_idle s target port :
  lock s = None -> queue s = [] ->
  step (GetPortForward target port) s
  = setQueue []
      (enter (length (calls s))
         (setQueue [length (calls s)]
            (setCalls (calls s ++ [ {| c_targetResource := target; c_port := port;
                                       c_status := Queued |} ])%list s))).
Proof.
  intros Hlock Hqueue. unfold Forward.step, Forward.schedule. simpl.
  rewrite Hqueue. simpl. now rewrite Hlock.
Qed.

Section Window.

Variables (target : string) (remote : Z) (n p : nat).

Let call0 : Call := {| c_targetResource := target; c_port := remote; c_status := Queued |}.
Let fwd : PortForward :=
  {| targetResource := target; port := remote; localPort := getPort p; proc := p |}.

Local Abbreviation window := (window getPort killError target remote n p).

Lemma window_acquire ready k s :
  window ready k s -> window ready (S k) (step (GetPortForward target remote) s).
Proof.
  intros (Hr & Hlock & Hlen & Ht & Hcalls & Hc0 & Hq & Hwait).
  pose proof (reachable_step (GetPortForward target remote) s Hr) as Hr'.
  rewrite (acquire_queued s p target remote Hlock) in *.
  split; [exact Hr'|]. simpl. split; [exact Hlock|]. split; [exact Hlen|].
  split; [exact Ht|]. split; [rewrite length_app; simpl; lia|]. split; [|split].
  - destruct Hc0 as (c0 & Hc0 & Hst). exists c0. split; [|exact Hst].
    now apply lookup_snoc_old.
  - rewrite Hq, Hcalls. change (seq (n + 1) k ++ [(n + 1 + k)%nat] = seq (n + 1) (S k))%list.
    now rewrite seq_S.
  - intros i Hi. destruct (decide (i = n + 1 + k)%nat) as [->|Hne].
    + rewrite <- Hcalls. apply lookup_snoc_new.
    + apply lookup_snoc_old. apply Hwait. lia.
Qed.

Lemma window_acquires ready a k s :
  window ready k s ->
  window ready (k + a) (run (repeat (GetPortForward target remote) a) s).
Proof.
  revert k s. induction a as [|a IH]; intros k s Hw; simpl.
  - now rewrite Nat.add_0_r.
  - replace (k + S a)%nat with (S k + a)%nat by lia.
    apply IH. now apply window_acquire.
Qed.

Lemma window_ready k s line :
  window false k s -> includes "Forwarding from " line = true ->
  window true k (step (Stdout p line) s).
Proof.
  intros (Hr & Hlock & Hlen & (t & Ht & Hfwd & Hk & Hp & Hres) & Hcalls & Hc0 & Hq & Hwait)
         Hline.
  pose proof (reachable_step (Stdout p line) s Hr) as Hr'.
  rewrite (stdout_ready_effect s p t line Hr Ht Hres Hline) in *.
  split; [exact Hr'|]. simpl. split; [exact Hlock|].
  split; [now rewrite length_insert|]. split.
  - eexists. split; [apply list_lookup_insert_eq; lia|]. simpl.
    repeat (split; [assumption || reflexivity|]).
    rewrite Hfwd. apply regGet_regSet_eq.
  - auto.
Qed.

(** Under a free lock and with a live descriptor in the registry, every
    waiting call for the key returns that descriptor. *)
Lemma dispatch_reuse waiting s :
  lock s = None ->
  regGet (keyOf fwd) (registeredPortForwards s) = Some fwd ->
  killedOf s p = false ->
  (forall c, In c waiting ->
     exists call, calls s !! c = Some call
                  /\ c_targetResource call = target /\ c_port call = remote) ->
  tunnels (dispatch waiting s) = tunnels s
  /\ (forall c, In c waiting ->
        exists call, calls (dispatch waiting s) !! c = Some call
                     /\ c_status call = Reused fwd)
  /\ (forall c, ~ In c waiting -> calls (dispatch waiting s) !! c = calls s !! c).
Proof.
  revert s. induction waiting as [|c rest IH]; intros s Hlock Hreg Hk Hcalls; simpl.
  - split; [reflexivity|]. split; [intros c []|reflexivity].
  - rewrite Hlock. destruct (Hcalls c (or_introl eq_refl)) as (call & Hc & Htarget & Hport).
    assert (Henter : enter c s
                     = setCalls (<[c := setStatus (Reused fwd) call]> (calls s)) s).
    { apply enter_reuse; [assumption| |exact Hk]. rewrite Htarget, Hport. exact Hreg. }
    rewrite Henter.
    assert (Hlt : (c < length (calls s))%nat) by now apply lookup_lt_Some in Hc.
    destruct (IH (setCalls (<[c := setStatus (Reused fwd) call]> (calls s)) s))
      as (Ht & Hin & Hout); try assumption.
    { intros c' Hc'. simpl. destruct (decide (c' = c)) as [->|Hne].
      - rewrite list_lookup_insert_eq by assumption. eexists. split; [reflexivity|].
        simpl. auto.
      - rewrite list_lookup_insert_ne by congruence. apply Hcalls. now right. }
    split; [exact Ht|]. split.
    + intros c' [<-|Hc']; [|now apply Hin].
      destruct (in_dec Nat.eq_dec c rest) as [Hi|Hn]; [now apply Hin|].
      rewrite (Hout c Hn). simpl. rewrite list_lookup_insert_eq by assumption.
      eexists. split; reflexivity.
    + intros c' Hn. rewrite Hout by (intros H; apply Hn; now right).
      simpl. apply list_lookup_insert_ne. intros ->. apply Hn. now left.
Qed.

Lemma window_timeout k s :
  window true k s ->
  length (tunnels (step (Timeout p) s)) = S p
  /\ forall i, (n <= i < n + 1 + k)%nat ->
       exists call, calls (step (Timeout p) s) !! i = Some call
                    /\ result (step (Timeout p) s) call = Fulfilled fwd.
Proof.
  intros (Hr & Hlock & Hlen & (t & Ht & Hfwd & Hk & Hp & Hres & Hsl & Hreg)
          & Hcalls & (c0 & Hc0 & Hst0) & Hq & Hwait).
  set (t1 := setPromise (Fulfilled fwd) (setSleeping None t)).
  set (s2 := setLock None
               (setTunnels (<[p := t1]> (<[p := setSleeping None t]> (tunnels s)))
                  (setTunnels (<[p := setSleeping None t]> (tunnels s)) s))).
  assert (Hh : handle (Timeout p) s = (s2, None)).
  { simpl. unfold onTimeout. rewrite Ht, Hsl. unfold settle. simpl.
    rewrite list_lookup_insert_eq by lia. simpl. rewrite Hp, Hlock, Nat.eqb_refl.
    subst s2 t1. now rewrite Hfwd. }
  assert (Hstep : step (Timeout p) s = dispatch (seq (n + 1) k) s2).
  { unfold Forward.step, Forward.schedule. rewrite Hh. subst s2. simpl. now rewrite Hq. }
  assert (Ht2 : tunnels s2 !! p = Some t1).
  { subst s2. simpl. apply list_lookup_insert_eq. rewrite length_insert. lia. }
  destruct (dispatch_reuse (seq (n + 1) k) s2) as (Htun & Hin & Hout).
  - reflexivity.
  - exact Hreg.
  - unfold killedOf. rewrite Ht2. exact Hk.
  - intros c Hc. apply in_seq in Hc. exists call0. split; [|auto].
    subst s2. simpl. apply Hwait. lia.
  - rewrite Hstep, Htun. split; [subst s2; simpl; rewrite !length_insert; lia|].
    intros i Hi. destruct (decide (i = n)) as [->|Hne].
    + exists c0. split.
      * rewrite Hout; [exact Hc0|]. rewrite in_seq. lia.
      * unfold result. now rewrite Hst0, Htun, Ht2.
    + destruct (Hin i) as (call & Hcall & Hst); [apply in_seq; lia|].
      exists call. split; [exact Hcall|]. unfold result. now rewrite Hst.
Qed.






End Window.

Lemma window_open s target port :
  reachable s -> lock s = None ->
  needsCreation (getPortForwardKey target port) s ->
  Forward.window getPort killError target port (length (calls s)) (length (tunnels s))
    false 0 (step (GetPortForward target port) s).
Proof.
  intros Hr Hlock Hneed.
  pose proof (proj2 (reachable_Inv s Hr) Hlock) as Hqueue.
  pose proof (reachable_step (GetPortForward target port) s Hr) as Hr'.
  rewrite (acquire_idle s target port Hlock Hqueue) in *.
  set (s1 := setQueue _ (setCalls _ s)) in *.
  assert (Hc : calls s1 !! length (calls s)
               = Some {| c_targetResource := target; c_port := port; c_status := Queued |})
    by apply lookup_snoc_new.
  rewrite (enter_create _ s1 _ Hc Hneed) in *. subst s1. simpl in *.
  split; [exact Hr'|]. split; [reflexivity|]. simpl.
  split; [rewrite length_app; simpl; lia|]. split.
  - eexists. split; [apply lookup_snoc_new|]. simpl. auto.
  - split; [rewrite length_insert, length_app; simpl; lia|]. split; [|split].
    + eexists. split.
      * apply list_lookup_insert_eq. rewrite length_app. simpl. lia.
      * reflexivity.
    + reflexivity.
    + intros i Hi. lia.
Qed.


End WithProcesses.

Lemma reachable_sample evs : reachable samplePort noKillError (run samplePort noKillError evs init).
Proof. now exists evs. Qed.

Lemma close_removes_and_rejects_witness :
  (forall call, c_status call = Creating 0 ->
     result (run samplePort noKillError
               [GetPortForward "Service/web" 8080; Stderr 0 "dial tcp: timeout";
                Close 0 (Some 1)] init) call
     = Rejected {| message := exitMessage (Some 1) "dial tcp: timeout";
                   detail_code := Some 1;
                   detail_portForward := {| targetResource := "Service/web"; port := 8080;
                                            localPort := 40000; proc := 0 |} |})
  /\ registeredPortForwards
       (run samplePort noKillError
          [GetPortForward "Service/web" 8080; Stdout 0 readyLine; Close 0 None] init) = [].
Proof.
  split.
  - pose proof (close_removes_and_rejects samplePort noKillError
                  (run samplePort noKillError
                     [GetPortForward "Service/web" 8080; Stderr 0 "dial tcp: timeout"] init)
                  0%nat _ (Some 1) (reachable_sample _) eq_refl) as (_ & Hrej & _).
    destruct (Hrej eq_refl eq_refl) as (Hcall & _). exact Hcall.
  - pose proof (close_removes_and_rejects samplePort noKillError
                  (run samplePort noKillError
                     [GetPortForward "Service/web" 8080; Stdout 0 readyLine] init)
                  0%nat _ None (reachable_sample _) eq_refl) as (_ & _ & Hact).
    change (run samplePort noKillError
              [GetPortForward "Service/web" 8080; Stdout 0 readyLine; Close 0 None] init)
      with (step samplePort noKillError (Close 0 None)
              (run samplePort noKillError
                 [GetPortForward "Service/web" 8080; Stdout 0 readyLine] init)).
    rewrite (Hact eq_refl). reflexivity.
Defined.

Lemma fatal_stderr_kills_witness :
  exists t1,
    tunnels (run samplePort noKillError
               [GetPortForward "Service/web" 8080;
                Stderr 0 "error: unable to forward port"] init) !! 0%nat = Some t1
    /\ killed t1 = true /\ promise t1 = Pending.
Proof.
  destruct (fatal_stderr_kills samplePort noKillError
              (run samplePort noKillError [GetPortForward "Service/web" 8080] init)
              0%nat _ "error: unable to forward port" (Some 1)
              (reachable_sample _) eq_refl eq_refl)
    as (_ & _ & t1 & Ht1 & Hp & _ & _ & _ & Hk & _).
  exists t1. split; [exact Ht1|]. split; [|exact Hp].
  now destruct (Hk eq_refl eq_refl).
Defined.

(** C8 fails on the code: an error event of the process kills it and throws
    from the event handler; the promise of the waiting call stays unsettled
    and the error is an uncaught exception of the event loop. *)
Theorem process_error_escapes :
  exists call t,
    calls (run samplePort noKillError
             [GetPortForward "Service/web" 8080; Error 0 "spawn kubectl ENOENT"] init)
      !! 0%nat = Some call
    /\ tunnels (run samplePort noKillError
                  [GetPortForward "Service/web" 8080; Error 0 "spawn kubectl ENOENT"] init)
         !! 0%nat = Some t
    /\ c_status call = Creating 0
    /\ killed t = true
    /\ result (run samplePort noKillError
                 [GetPortForward "Service/web" 8080; Error 0 "spawn kubectl ENOENT"] init)
         call = Pending
    /\ uncaught (run samplePort noKillError
                   [GetPortForward "Service/web" 8080; Error 0 "spawn kubectl ENOENT"] init)
       = ["spawn kubectl ENOENT"].
Proof. do 2 eexists. repeat split; reflexivity. Qed.

Lemma readiness_resolves_witness :
  exists t3,
    tunnels (run samplePort noKillError
               [GetPortForward "Service/web" 8080; Stdout 0 readyLine;
                Stderr 0 "Handling connection for 40000"; Timeout 0] init) !! 0%nat = Some t3
    /\ promise t3 = Fulfilled {| targetResource := "Service/web"; port := 8080;
                                 localPort := 40000; proc := 0 |}.
Proof.
  destruct (readiness_resolves samplePort noKillError
              (run samplePort noKillError [GetPortForward "Service/web" 8080] init)
              0%nat _ readyLine (reachable_sample _) eq_refl eq_refl eq_refl eq_refl)
    as (_ & _ & Hlater & _).
  destruct (Hlater [Stderr 0 "Handling connection for 40000"]) as (_ & Hdone & _).
  - intros [H|[]]. discriminate H.
  - exact Hdone.
Defined.

(** C3 fails as stated: with two calls for the same key, the first creation
    awaits readiness while the registry holds nothing under the key, the lock
    is still held and the second call waits in the queue. *)
Lemma no_pending_entry_while_awaiting :
  regGet (getPortForwardKey "Service/web" 8080)
    (registeredPortForwards
       (run samplePort noKillError
          [GetPortForward "Service/web" 8080; GetPortForward "Service/web" 8080] init))
  = None
  /\ lock (run samplePort noKillError
             [GetPortForward "Service/web" 8080; GetPortForward "Service/web" 8080] init)
     = Some 0%nat
  /\ tunnels (run samplePort noKillError
                [GetPortForward "Service/web" 8080; GetPortForward "Service/web" 8080] init)
     = [ {| portForward := {| targetResource := "Service/web"; port := 8080;
                              localPort := 40000; proc := 0 |};
            killed := false; resolved := false; output := "";
            sleeping := None; promise := Pending |} ]
  /\ calls (run samplePort noKillError
              [GetPortForward "Service/web" 8080; GetPortForward "Service/web" 8080] init)
       !! 1%nat
     = Some {| c_targetResource := "Service/web"; c_port := 8080; c_status := Queued |}.
Proof. repeat split; reflexivity. Qed.

Lemma registered_on_readiness_witness :
  lock (run samplePort noKillError [GetPortForward "Service/web" 8080] init) = Some 0%nat
  /\ regGet (getPortForwardKey "Service/web" 8080)
       (registeredPortForwards
          (run samplePort noKillError
             [GetPortForward "Service/web" 8080; Stdout 0 readyLine] init))
     = Some {| targetResource := "Service/web"; port := 8080;
               localPort := 40000; proc := 0 |}.
Proof.
  destruct (registered_on_readiness samplePort noKillError
              (run samplePort noKillError [GetPortForward "Service/web" 8080] init)
              0%nat _ (reachable_sample _) eq_refl eq_refl)
    as (Hlock & _ & _ & Hready).
  split; [exact Hlock|].
  exact (proj1 (Hready readyLine eq_refl eq_refl)).
Defined.






End ForwardProofs.

(** * Further properties of the resolver *)

Module ResolverMore.
Import Resolver ResolverProofs.

Section WithUtil.

Variable isBuiltIn : KubernetesResource -> bool.
Variable matchSelector : gmap string string -> gmap string string -> bool.

Local Abbreviation isServiceb := (isServiceb isBuiltIn).
Local Abbreviation isWorkloadb := (isWorkloadb isBuiltIn).
Local Abbreviation matchesService := (matchesService matchSelector).
Local Abbreviation workloadPorts := (workloadPorts matchSelector).
Local Abbreviation getForwardablePorts := (getForwardablePorts isBuiltIn matchSelector).
Local Abbreviation Suppresses := (Suppresses matchSelector).
Local Abbreviation Suppressed := (Suppressed isBuiltIn matchSelector).
Local Abbreviation wellFormed := (wellFormed isBuiltIn).

(** X1.  The resolver returns a list exactly on the well-formed resource
    lists: it throws if and only if a selected Service has no [spec] or a
    selected workload has no [spec] or no pod template; resources of other
    kinds may lack anything. *)
Theorem resolver_defined_iff_wellFormed rs :
  is_Some (getForwardablePorts rs) <-> wellFormed rs.
Proof. exact (getForwardablePorts_defined isBuiltIn matchSelector rs). Qed.

Lemma workload_kind r :
  isWorkloadb r = true -> kind r = "Deployment" \/ kind r = "DaemonSet".
Proof.
  unfold Resolver.isWorkloadb. rewrite orb_true_iff, andb_true_iff.
  intros [[_ H]|H]; apply String.eqb_eq in H; auto.
Qed.

(** Where an entry of the result comes from. *)
Lemma entry_origin rs out e :
  getForwardablePorts rs = Some out -> In e out ->
  (exists service sp,
     In service rs /\ isServiceb service = true /\ In sp (declaredPorts service)
     /\ e = serviceEntry service sp)
  \/ (exists workload pt cp,
        In workload rs /\ isWorkloadb workload = true
        /\ podTemplateOf workload = Some pt /\ In cp (portSpecsOf pt)
        /\ ~ Suppressed rs pt cp /\ e = workloadEntry workload cp).
Proof.
  intros Hout Hin.
  assert (Hwf : wellFormed rs) by (apply (getForwardablePorts_defined isBuiltIn matchSelector); eauto).
  rewrite (getForwardablePorts_spec isBuiltIn matchSelector rs Hwf) in Hout.
  injection Hout as <-. apply in_app_or in Hin as [Hin|Hin];
    apply in_concat in Hin as (l & Hl & He); apply in_map_iff in Hl as (r & <- & Hr);
    apply filter_In in Hr as [Hr Hsel].
  - left. apply in_map_iff in He as (sp & <- & Hsp). exists r, sp. auto.
  - right. destruct (proj2 (Hwf r Hr) Hsel) as [pt Hpt]. rewrite Hpt in He.
    apply in_map_iff in He as (cp & <- & Hcp). apply filter_In in Hcp as [Hcp Hneg].
    exists r, pt, cp. repeat (split; [assumption|]). split; [|reflexivity].
    rewrite <- (matchesService_Suppressed isBuiltIn matchSelector).
    apply negb_true_iff in Hneg. congruence.
Qed.

(** X2.  Every entry of the result has protocol "TCP", whatever the resource
    declares, and carries the name and port of a resource of the input: its
    target is "Service/<name>" with the [port] (not the target port) of a
    declared port of a selected Service, or "Deployment/<name>" or
    "DaemonSet/<name>" with a container port of a selected workload. *)
Theorem entries_come_from_resources rs out e :
  getForwardablePorts rs = Some out -> In e out ->
  protocol e = "TCP"
  /\ exists r,
       In r rs
       /\ ((isServiceb r = true
            /\ targetName e = "Service/" +:+ name r
            /\ exists sp, In sp (declaredPorts r)
                          /\ targetPort e = sp_port sp /\ fp_name e = sp_name sp)
           \/ (isWorkloadb r = true
               /\ (targetName e = "Deployment/" +:+ name r
                   \/ targetName e = "DaemonSet/" +:+ name r)
               /\ exists pt cp, podTemplateOf r = Some pt /\ In cp (portSpecsOf pt)
                                /\ targetPort e = containerPort cp
                                /\ fp_name e = cp_name cp)).
Proof.
  intros Hout Hin.
  destruct (entry_origin rs out e Hout Hin)
    as [(r & sp & Hr & Hsel & Hsp & ->)|(r & pt & cp & Hr & Hsel & Hpt & Hcp & _ & ->)].
  - split; [reflexivity|]. exists r. split; [assumption|]. left.
    split; [assumption|]. split; [reflexivity|]. exists sp. auto.
  - split; [reflexivity|]. exists r. split; [assumption|]. right.
    split; [assumption|]. split.
    + unfold workloadEntry. simpl. destruct (workload_kind r Hsel) as [->| ->]; auto.
    + exists pt, cp. auto.
Qed.

(** X3.  A resource that is neither selected as a Service nor as a workload
    is ignored altogether, whatever it holds or lacks: the result, or the
    failure, is the one obtained without it.  This covers every other kind
    and the Services and Deployments that [isBuiltIn] rejects. *)
Theorem unselected_resource_ignored rs1 rs2 r :
  isServiceb r = false -> isWorkloadb r = false ->
  getForwardablePorts (rs1 ++ r :: rs2)%list = getForwardablePorts (rs1 ++ rs2)%list.
Proof.
  intros Hs Hw. unfold Resolver.getForwardablePorts.
  rewrite !List.filter_app. simpl. now rewrite Hs, Hw.
Qed.

(** X4.  A DaemonSet is resolved whether or not [isBuiltIn] accepts it (the
    test is [(isBuiltIn(r) && kind === "Deployment") || kind === "DaemonSet"]):
    each of its container ports that no Service suppresses is emitted under
    "DaemonSet/<name>". *)
Theorem daemonset_always_selected rs workload pt cp :
  kind workload = "DaemonSet" -> wellFormed rs -> In workload rs ->
  podTemplateOf workload = Some pt -> In cp (portSpecsOf pt) ->
  ~ Suppressed rs pt cp ->
  exists out,
    getForwardablePorts rs = Some out
    /\ In {| fp_name := cp_name cp; protocol := "TCP";
             targetName := "DaemonSet/" +:+ name workload;
             targetPort := containerPort cp |} out.
Proof.
  intros Hkind Hwf Hin Hpt Hcp Hn.
  assert (Hw : isWorkloadb workload = true).
  { unfold Resolver.isWorkloadb. rewrite Hkind. simpl. apply orb_true_r. }
  destruct (workload_entry_emitted isBuiltIn matchSelector rs workload pt cp
              Hwf Hin Hw Hpt Hcp Hn) as (out & Hout & He).
  exists out. split; [assumption|]. unfold workloadEntry in He. now rewrite Hkind in He.
Qed.

(** X5.  Without a selected Service nothing is suppressed: the result lists
    every container port of every selected workload, in the order of the
    input. *)
Theorem no_service_no_suppression rs :
  (forall r, In r rs -> isServiceb r = false) -> wellFormed rs ->
  getForwardablePorts rs
  = Some (flat_map (fun workload =>
                      map (workloadEntry workload)
                        (default [] (portSpecsOf <$> podTemplateOf workload)))
            (List.filter isWorkloadb rs)).
Proof.
  intros Hnone Hwf. rewrite (getForwardablePorts_spec isBuiltIn matchSelector rs Hwf).
  assert (Hs : List.filter isServiceb rs = []).
  { induction rs as [|r rs' IH]; simpl; [reflexivity|].
    rewrite (Hnone r (or_introl eq_refl)). apply IH.
    - intros x Hx. apply Hnone. now right.
    - intros x Hx. apply Hwf. now right. }
  rewrite Hs. simpl. rewrite flat_map_concat_map. do 2 f_equal.
  apply map_ext. intros w. destruct (podTemplateOf w) as [pt|]; simpl; [|reflexivity].
  f_equal. clear. induction (portSpecsOf pt) as [|cp l IH]; simpl; [reflexivity|].
  now rewrite IH.
Qed.

(** X6.  Whether a container port is suppressed depends on which Services
    there are, not on their order or number: the early return at the first
    match changes nothing. *)
Theorem suppression_order_independent services1 services2 pt cp :
  (forall service, In service services1 <-> In service services2) ->
  matchesService services1 pt cp = matchesService services2 pt cp.
Proof.
  intros Hsame.
  destruct (matchesService services1 pt cp) eqn:E1, (matchesService services2 pt cp) eqn:E2;
    try reflexivity.
  - apply (matchesService_true matchSelector) in E1 as (x & Hx & Hs).
    assert (matchesService services2 pt cp = true)
      by (apply (matchesService_true matchSelector); exists x; split;
          [now apply Hsame|assumption]).
    congruence.
  - apply (matchesService_true matchSelector) in E2 as (x & Hx & Hs).
    assert (matchesService services1 pt cp = true)
      by (apply (matchesService_true matchSelector); exists x; split;
          [now apply Hsame|assumption]).
    congruence.
Qed.

(** X7.  A suppressed container port stays reachable: the result holds the
    entry of a Service port whose target is that container port. *)
Theorem suppressed_port_has_service_entry rs pt cp :
  wellFormed rs -> Suppressed rs pt cp ->
  exists out service sp,
    getForwardablePorts rs = Some out
    /\ In service rs /\ In sp (declaredPorts service)
    /\ sp_targetPort sp = Some (IntVal (containerPort cp))
    /\ In {| fp_name := sp_name sp; protocol := "TCP";
             targetName := "Service/" +:+ name service;
             targetPort := sp_port sp |} out.
Proof.
  intros Hwf (service & Hin & Hsel & _ & sp & Hsp & Htp & _).
  destruct (service_entries_emitted isBuiltIn matchSelector rs service Hwf Hin Hsel)
    as (out & Hout & Hall).
  exists out, service, sp. repeat (split; [assumption|]). apply (Hall sp Hsp).
Qed.

Lemma Suppressed_more rs1 rs2 r pt cp :
  Suppressed (rs1 ++ rs2)%list pt cp -> Suppressed (rs1 ++ r :: rs2)%list pt cp.
Proof.
  intros (service & Hin & H). exists service. split; [|assumption].
  apply in_app_or in Hin. apply in_or_app. destruct Hin; [left|right; right]; assumption.
Qed.

(** X8.  Adding a Service to the input adds at most the entries of that
    Service: every other entry of the new result is an entry of the old one
    (workload entries can only disappear). *)
Theorem added_service_adds_only_its_entries rs1 rs2 service out out' e :
  kind service = "Service" ->
  getForwardablePorts (rs1 ++ rs2)%list = Some out ->
  getForwardablePorts (rs1 ++ service :: rs2)%list = Some out' ->
  In e out' ->
  In e out \/ exists sp, In sp (declaredPorts service) /\ e = serviceEntry service sp.
Proof.
  intros Hkind Hout Hout' He.
  assert (Hwf : wellFormed (rs1 ++ rs2)%list)
    by (apply (getForwardablePorts_defined isBuiltIn matchSelector); eauto).
  assert (Hmid : forall x, In x (rs1 ++ service :: rs2)%list ->
                           x = service \/ In x (rs1 ++ rs2)%list).
  { intros x Hx. apply in_app_or in Hx as [Hx|[<-|Hx]]; auto;
      right; apply in_or_app; auto. }
  destruct (entry_origin _ _ _ Hout' He)
    as [(r & sp & Hr & Hsel & Hsp & ->)|(r & pt & cp & Hr & Hsel & Hpt & Hcp & Hn & ->)].
  - destruct (Hmid r Hr) as [->|Hr']; [right; eauto|]. left.
    destruct (service_entries_emitted isBuiltIn matchSelector _ r Hwf Hr' Hsel)
      as (o & Ho & Hall).
    rewrite Hout in Ho. injection Ho as <-. now apply Hall.
  - destruct (Hmid r Hr) as [->|Hr'].
    + rewrite (service_not_workload isBuiltIn service Hkind) in Hsel. discriminate.
    + left.
      destruct (workload_entry_emitted isBuiltIn matchSelector _ r pt cp Hwf Hr' Hsel Hpt Hcp)
        as (o & Ho & Hentry).
      { intros Hs. apply Hn. now apply Suppressed_more. }
      rewrite Hout in Ho. injection Ho as <-. assumption.
Qed.

End WithUtil.

Lemma entries_come_from_resources_witness :
  protocol {| fp_name := None; protocol := "TCP";
              targetName := "Service/web"; targetPort := 8080 |} = "TCP"
  /\ exists r, In r [webService; webDeployment] /\ name r = "web".
Proof.
  destruct (entries_come_from_resources coreApiVersion matchSelector_subset
              [webService; webDeployment] _
              {| fp_name := None; protocol := "TCP";
                 targetName := "Service/web"; targetPort := 8080 |}
              eq_refl (or_introl eq_refl)) as (Htcp & r & Hr & Hfrom).
  split; [exact Htcp|]. exists r. split; [exact Hr|].
  list_cases Hr; reflexivity.
Defined.

Lemma unselected_resource_ignored_witness :
  getForwardablePorts coreApiVersion matchSelector_subset
    [webService;
     {| apiVersion := "v1"; kind := "ConfigMap"; name := "settings"; spec := None |};
     webDeployment]
  = getForwardablePorts coreApiVersion matchSelector_subset [webService; webDeployment]
  /\ getForwardablePorts coreApiVersion matchSelector_subset
       [webService;
        {| apiVersion := "example.io/v1"; kind := "Deployment"; name := "custom";
           spec := None |};
        webDeployment]
     = getForwardablePorts coreApiVersion matchSelector_subset [webService; webDeployment].
Proof.
  split.
  - exact (unselected_resource_ignored coreApiVersion matchSelector_subset
             [webService] [webDeployment]
             {| apiVersion := "v1"; kind := "ConfigMap"; name := "settings"; spec := None |}
             eq_refl eq_refl).
  - exact (unselected_resource_ignored coreApiVersion matchSelector_subset
             [webService] [webDeployment]
             {| apiVersion := "example.io/v1"; kind := "Deployment"; name := "custom";
                spec := None |}
             eq_refl eq_refl).
Defined.

Lemma daemonset_always_selected_witness :
  exists out,
    getForwardablePorts coreApiVersion matchSelector_subset
      [ {| apiVersion := "example.io/v1"; kind := "DaemonSet"; name := "agent";
           spec := Some {| ports := None; selector := None;
                           template := Some zeroTemplate |} |} ] = Some out
    /\ In {| fp_name := None; protocol := "TCP";
             targetName := "DaemonSet/agent"; targetPort := 0 |} out.
Proof.
  apply (daemonset_always_selected coreApiVersion matchSelector_subset
           [ {| apiVersion := "example.io/v1"; kind := "DaemonSet"; name := "agent";
                spec := Some {| ports := None; selector := None;
                                template := Some zeroTemplate |} |} ]
           {| apiVersion := "example.io/v1"; kind := "DaemonSet"; name := "agent";
              spec := Some {| ports := None; selector := None;
                              template := Some zeroTemplate |} |}
           zeroTemplate zeroPort).
  - reflexivity.
  - intros r H. list_cases H. split; intros Hr; [vm_compute in Hr; discriminate Hr|].
    eexists. reflexivity.
  - now left.
  - reflexivity.
  - now left.
  - intros (service & Hin & Hsel & _). list_cases Hin.
    vm_compute in Hsel. discriminate Hsel.
Defined.

Lemma no_service_no_suppression_witness :
  getForwardablePorts coreApiVersion matchSelector_subset
    [ mkWorkload "Deployment" "worker" None [ {| cp_name := None; containerPort := 9000 |} ] ]
  = Some [ {| fp_name := None; protocol := "TCP";
              targetName := "Deployment/worker"; targetPort := 9000 |} ].
Proof.
  apply (no_service_no_suppression coreApiVersion matchSelector_subset
           [ mkWorkload "Deployment" "worker" None
               [ {| cp_name := None; containerPort := 9000 |} ] ]).
  - intros r H. list_cases H. reflexivity.
  - decide_wellFormed.
Defined.

Lemma suppression_order_independent_witness :
  matchesService matchSelector_subset [webService; namedService] zeroTemplate
    {| cp_name := None; containerPort := 8080 |}
  = matchesService matchSelector_subset [namedService; webService; webService] zeroTemplate
      {| cp_name := None; containerPort := 8080 |}.
Proof.
  apply suppression_order_independent. intros service. simpl. tauto.
Defined.

Lemma suppressed_port_has_service_entry_witness :
  exists out service sp,
    getForwardablePorts coreApiVersion matchSelector_subset [webService; webDeployment]
    = Some out
    /\ In service [webService; webDeployment] /\ In sp (declaredPorts service)
    /\ sp_targetPort sp = Some (IntVal 8080)
    /\ In {| fp_name := sp_name sp; protocol := "TCP";
             targetName := "Service/" +:+ name service;
             targetPort := sp_port sp |} out.
Proof.
  apply (suppressed_port_has_service_entry coreApiVersion matchSelector_subset
           [webService; webDeployment] zeroTemplate
           {| cp_name := None; containerPort := 8080 |}).
  - decide_wellFormed.
  - exists webService. split; [now left|]. split; [reflexivity|]. split; [reflexivity|].
    eexists. split; [now left|]. split; [reflexivity|discriminate].
Defined.

Lemma added_service_adds_only_its_entries_witness :
  In {| fp_name := None; protocol := "TCP";
        targetName := "Service/web"; targetPort := 8080 |}
     [ {| fp_name := None; protocol := "TCP";
          targetName := "Deployment/web"; targetPort := 8080 |} ]
  \/ exists sp, In sp (declaredPorts webService)
                /\ {| fp_name := None; protocol := "TCP";
                      targetName := "Service/web"; targetPort := 8080 |}
                   = serviceEntry webService sp.
Proof.
  apply (added_service_adds_only_its_entries coreApiVersion matchSelector_subset
           [] [webDeployment] webService _
           [ {| fp_name := None; protocol := "TCP";
                targetName := "Service/web"; targetPort := 8080 |} ]).
  - reflexivity.
  - reflexivity.
  - reflexivity.
  - now left.
Defined.

End ResolverMore.

(** * Further properties of the registry and of [getPortForward] *)

Module ForwardMore.
Import Forward Lifecycle Handlers ForwardProofs.

(** ** Keys *)

Lemma append_cons (c : ascii) (s1 s2 : string) :
  String c s1 +:+ s2 = String c (s1 +:+ s2).
Proof. reflexivity. Qed.

Lemma append_nil_l (s : string) : "" +:+ s = s.
Proof. reflexivity. Qed.

Lemma append_nil_r (s : string) : s +:+ "" = s.
Proof.
  induction s as [|c s IH]; [reflexivity|]. now rewrite append_cons, IH.
Qed.

Lemma append_assoc (s1 s2 s3 : string) : (s1 +:+ s2) +:+ s3 = s1 +:+ (s2 +:+ s3).
Proof.
  induction s1 as [|c s1 IH]; [reflexivity|]. now rewrite !append_cons, IH.
Qed.

Lemma chars_append (s1 s2 : string) :
  list_ascii_of_string (s1 +:+ s2)
  = (list_ascii_of_string s1 ++ list_ascii_of_string s2)%list.
Proof.
  induction s1 as [|c s1 IH]; [reflexivity|]. rewrite append_cons. simpl. now rewrite IH.
Qed.

Lemma uint_chars_no_colon (d : Decimal.uint) :
  ~ In ":"%char (list_ascii_of_string (NilEmpty.string_of_uint d)).
Proof.
  induction d; simpl; intros H; try contradiction;
    destruct H as [H|H]; try discriminate H; contradiction.
Qed.

Lemma nilzero_chars_no_colon (d : Decimal.uint) :
  ~ In ":"%char (list_ascii_of_string (NilZero.string_of_uint d)).
Proof.
  assert (H : NilZero.string_of_uint d = "0"
              \/ NilZero.string_of_uint d = NilEmpty.string_of_uint d)
    by (destruct d; auto).
  destruct H as [-> | ->]; [|apply uint_chars_no_colon].
  intros [H|[]]. discriminate H.
Qed.

Lemma showZ_no_colon (n : Z) : ~ In ":"%char (list_ascii_of_string (showZ n)).
Proof.
  unfold showZ, NilZero.string_of_int.
  destruct (Z.to_int n) as [d|d]; [apply nilzero_chars_no_colon|].
  intros [H|H]; [discriminate H|]. revert H. apply nilzero_chars_no_colon.
Qed.

Lemma showZ_inj (n m : Z) : showZ n = showZ m -> n = m.
Proof.
  unfold showZ. intros H. apply DecimalZ.to_int_inj.
  assert (Hn : forall z, NilZero.int_of_string (NilZero.string_of_int (Z.to_int z))
                         = Some (Z.to_int z)).
  { intros z. apply NilZero.isi; destruct z; simpl; try discriminate;
      intros [= E]; now apply DecimalPos.Unsigned.to_uint_nonnil in E. }
  pose proof (Hn n) as H1. rewrite H, Hn in H1. now injection H1.
Qed.

Lemma split_at_colon (t1 t2 d1 d2 : string) :
  ~ In ":"%char (list_ascii_of_string d1) ->
  ~ In ":"%char (list_ascii_of_string d2) ->
  t1 +:+ ":" +:+ d1 = t2 +:+ ":" +:+ d2 -> t1 = t2 /\ d1 = d2.
Proof.
  intros H1 H2. revert t2. induction t1 as [|c t1 IH]; intros [|c' t2];
    repeat (rewrite append_nil_l || rewrite append_cons); intros H.
  - injection H as ->. auto.
  - injection H as <- ->. exfalso. apply H1. rewrite chars_append. simpl.
    apply in_or_app. right. now left.
  - injection H as -> <-. exfalso. apply H2. rewrite chars_append. simpl.
    apply in_or_app. right. now left.
  - injection H as -> H. destruct (IH t2 H) as [-> ->]. auto.
Qed.

Lemma key_inj target1 port1 target2 port2 :
  getPortForwardKey target1 port1 = getPortForwardKey target2 port2 ->
  target1 = target2 /\ port1 = port2.
Proof.
  unfold getPortForwardKey. intros H.
  apply split_at_colon in H as [-> H]; try apply showZ_no_colon.
  split; [reflexivity|]. now apply showZ_inj.
Qed.

(** X9.  The key of the registry tells target and port apart: two calls
    share a key only if they name the same target resource and the same
    port, whatever characters the target holds. *)
Theorem getPortForwardKey_inj target1 port1 target2 port2 :
  getPortForwardKey target1 port1 = getPortForwardKey target2 port2 ->
  target1 = target2 /\ port1 = port2.
Proof. exact (key_inj target1 port1 target2 port2). Qed.

Lemma keyOf_inj fwd target port :
  keyOf fwd = getPortForwardKey target port ->
  targetResource fwd = target /\ Forward.port fwd = port.
Proof. apply key_inj. Qed.

Section WithProcesses.

Variable getPort : nat -> Z.
Variable killError : nat -> option string.

Local Abbreviation kill := (kill killError).
Local Abbreviation killUnlessKilled := (killUnlessKilled killError).
Local Abbreviation onError := (onError killError).
Local Abbreviation onStderr := (onStderr killError).
Local Abbreviation killPortForward := (killPortForward killError).
Local Abbreviation killPortForwards := (killPortForwards killError).
Local Abbreviation killAll := (killAll killError).
Local Abbreviation cleanup := (cleanup killError).
Local Abbreviation enter := (enter getPort).
Local Abbreviation dispatch := (dispatch getPort).
Local Abbreviation schedule := (schedule getPort).
Local Abbreviation handle := (handle killError).
Local Abbreviation step := (step getPort killError).
Local Abbreviation run := (run getPort killError).
Local Abbreviation reachable := (reachable getPort killError).
Local Abbreviation Inv := (Inv getPort).
Local Abbreviation sound := (sound getPort).
Local Abbreviation fresh := (fresh getPort).

(** ** The moves of a tunnel *)

Lemma killUnlessKilled_killedOnly q s : killedOnly s (fst (killUnlessKilled q s)).
Proof.
  destruct (killUnlessKilled_cases killError q s)
    as [[_ ->]|[(_ & e & _ & ->)|(_ & _ & s1 & -> & Hs1 & _)]]; simpl;
    [apply killedOnly_refl..|assumption].
Qed.

Lemma killUnlessKilled_at q s p t :
  tunnels s !! p = Some t ->
  tunnels (fst (killUnlessKilled q s)) !! p = Some t
  \/ (p = q /\ killed t = false
      /\ tunnels (fst (killUnlessKilled q s)) !! p = Some (setKilled true t)).
Proof.
  intros Ht.
  destruct (killUnlessKilled_cases killError q s)
    as [[_ ->]|[(_ & e & _ & ->)|(_ & _ & s1 & -> & Hs1 & _ & Hother)]]; simpl; auto.
  destruct (decide (p = q)) as [->|Hne].
  - destruct Hs1 as (_ & _ & _ & _ & _ & _ & Hs1).
    destruct (Hs1 q t Ht) as [H|[Hk H]]; auto.
  - left. now rewrite Hother.
Qed.

Lemma killPortForward_killedOnly target port s :
  killedOnly s (fst (killPortForward target port s)).
Proof.
  unfold Forward.killPortForward.
  destruct (regGet _ _); [apply killUnlessKilled_killedOnly|apply killedOnly_refl].
Qed.

Lemma killAll_killedOnly values s : killedOnly s (fst (killAll values s)).
Proof.
  revert s. induction values as [|fwd values IH]; intros s; simpl; [apply killedOnly_refl|].
  pose proof (killPortForward_killedOnly (targetResource fwd) (port fwd) s) as H.
  destruct (Forward.killPortForward killError _ _ s) as [s1 [e|]]; simpl in H; [assumption|].
  eapply killedOnly_trans; [exact H|apply IH].
Qed.

Lemma killedOnly_move ev s s' p t :
  killedOnly s s' -> mayKill p ev -> tunnels s !! p = Some t ->
  exists t', tunnels s' !! p = Some t' /\ Move p ev t t'.
Proof.
  intros (_ & _ & _ & _ & _ & _ & H) Hev Ht.
  destruct (H p t Ht) as [H'|[Hk H']]; eexists; (split; [exact H'|]);
    [apply MoveStay|now apply MoveKilled].
Qed.

Lemma handle_move ev s p t :
  tunnels s !! p = Some t ->
  exists t', tunnels (fst (handle ev s)) !! p = Some t' /\ Move p ev t t'.
Proof.
  intros Ht.
  assert (Hstay : exists t', tunnels s !! p = Some t' /\ Move p ev t t')
    by (exists t; split; [assumption|apply MoveStay]).
  destruct ev as [target port|q code|q error|q line|q line|q|target port|]; simpl.
  - exact Hstay.
  - unfold onClose. destruct (tunnels s !! q) as [u|] eqn:Hu; [|exact Hstay].
    set (s1 := match regGet _ _ with Some _ => _ | None => s end).
    assert (Ht1 : tunnels s1 = tunnels s) by (subst s1; now destruct (regGet _ _)).
    assert (Hl1 : lock s1 = lock s) by (subst s1; now destruct (regGet _ _)).
    destruct (resolved u) eqn:Hres; simpl; [rewrite Ht1; exact Hstay|].
    unfold settle. rewrite Ht1, Hu.
    destruct (promise u) eqn:Hprom; try (rewrite Ht1; exact Hstay).
    assert (Hgoal : exists t',
               <[q := setPromise (Rejected (exitError code u)) u]> (tunnels s) !! p = Some t'
               /\ Move p (Close q code) t t').
    { destruct (decide (q = p)) as [->|Hne].
      - rewrite list_lookup_insert_eq by now apply lookup_lt_Some in Ht.
        rewrite Ht in Hu. injection Hu as <-. eexists. split; [reflexivity|].
        now apply MoveRejected.
      - rewrite list_lookup_insert_ne by assumption. exact Hstay. }
    destruct (lock s1) as [l|]; [destruct (Nat.eqb l q)|]; simpl; exact Hgoal.
  - unfold Forward.onError. destruct (tunnels s !! q) as [u|] eqn:Hu; [|exact Hstay].
    destruct (killUnlessKilled_at q s p t Ht) as [H|(-> & Hk & H)];
      destruct (killUnlessKilled q s) as [s1 [e|]]; simpl in *;
      eexists; (split; [exact H|]); first [apply MoveStay | now apply MoveKilled].
  - unfold onStdout. destruct (tunnels s !! q) as [u|] eqn:Hu; [|exact Hstay].
    destruct (resolved u) eqn:Hres; [exact Hstay|].
    destruct (includes _ line) eqn:Hline; simpl;
      (destruct (decide (q = p)) as [->|Hne];
       [ rewrite list_lookup_insert_eq by (now apply lookup_lt_Some in Ht);
         rewrite Ht in Hu; injection Hu as <-; eexists; (split; [reflexivity|]);
         first [now apply MoveReady | now apply MoveStdout]
       | rewrite list_lookup_insert_ne by assumption; exact Hstay ]).
  - unfold Forward.onStderr. destruct (tunnels s !! q) as [u|] eqn:Hu; [|exact Hstay].
    set (s1 := setTunnels _ s).
    destruct (decide (q = p)) as [->|Hne].
    + rewrite Ht in Hu. injection Hu as <-.
      assert (Ht1 : tunnels s1 !! p = Some (setOutput (output t +:+ line) t)).
      { subst s1. simpl. apply list_lookup_insert_eq. now apply lookup_lt_Some in Ht. }
      destruct (fatal line) eqn:Hfatal.
      * destruct (killUnlessKilled_at p s1 p _ Ht1) as [H|(_ & Hk & H)];
          eexists; (split; [exact H|]); [apply MoveStderr|now apply MoveStderrKilled].
      * eexists. split; [exact Ht1|apply MoveStderr].
    + assert (Ht1 : tunnels s1 !! p = Some t).
      { subst s1. simpl. now rewrite list_lookup_insert_ne. }
      destruct (fatal line); [|exists t; split; [assumption|apply MoveStay]].
      destruct (killUnlessKilled_at q s1 p t Ht1) as [H|(Heq & _)]; [|congruence].
      exists t. split; [assumption|apply MoveStay].
  - unfold onTimeout. destruct (tunnels s !! q) as [u|] eqn:Hu; [|exact Hstay].
    destruct (sleeping u) as [d|] eqn:Hsl; [|exact Hstay]. simpl.
    unfold settle. simpl.
    assert (Hlt : (q < length (tunnels s))%nat) by now apply lookup_lt_Some in Hu.
    rewrite list_lookup_insert_eq by assumption. simpl.
    destruct (decide (q = p)) as [->|Hne].
    + rewrite Ht in Hu. injection Hu as <-.
      destruct (promise t) eqn:Hprom.
      * assert (Hgoal : exists t',
                   <[p := setPromise (Fulfilled (portForward t)) (setSleeping None t)]>
                     (<[p := setSleeping None t]> (tunnels s)) !! p = Some t'
                   /\ Move p (Timeout p) t t').
        { rewrite list_lookup_insert_eq by now rewrite length_insert.
          eexists. split; [reflexivity|]. apply MoveFulfilled; congruence. }
        destruct (lock s) as [l|]; [destruct (Nat.eqb l p)|]; exact Hgoal.
      * simpl. rewrite list_lookup_insert_eq by assumption.
        eexists. split; [reflexivity|]. apply MoveTimer; congruence.
      * simpl. rewrite list_lookup_insert_eq by assumption.
        eexists. split; [reflexivity|]. apply MoveTimer; congruence.
    + assert (Hgoal : forall v, exists t',
                 <[q := v]> (<[q := setSleeping None u]> (tunnels s)) !! p = Some t'
                 /\ Move p (Timeout q) t t').
      { intros v. rewrite !list_lookup_insert_ne by assumption. exact Hstay. }
      destruct (promise u); simpl;
        [ destruct (lock s) as [l|]; [destruct (Nat.eqb l q)|]; apply Hgoal
        | rewrite list_lookup_insert_ne by assumption; exact Hstay
        | rewrite list_lookup_insert_ne by assumption; exact Hstay ].
  - now apply (killedOnly_move _ s); [apply killPortForward_killedOnly|..].
  - now apply (killedOnly_move _ s); [apply killAll_killedOnly|..].
Qed.

Lemma step_move ev s p t :
  tunnels s !! p = Some t ->
  exists t', tunnels (step ev s) !! p = Some t' /\ Move p ev t t'.
Proof.
  intros Ht. destruct (handle_move ev s p t Ht) as (t' & Ht' & Hm).
  exists t'. split; [now apply step_tunnels|assumption].
Qed.

(** X10.  One turn of the event loop changes a tunnel in one of nine ways
    and never removes it: no change; the [killed] flag set by a handler that
    calls [kill]; a stderr line appended, with or without a kill; a stdout
    line appended while readiness is awaited; the readiness marker seen
    (registered, timer started); rejection on close while readiness was never
    seen; the timer firing, which fulfils the promise if it is unsettled. *)
Theorem tunnel_moves ev s p t :
  tunnels s !! p = Some t ->
  exists t', tunnels (step ev s) !! p = Some t' /\ Move p ev t t'.
Proof. exact (step_move ev s p t). Qed.

Lemma reachable_run_init evs : reachable (run evs init).
Proof. now exists evs. Qed.

(** ** What every tunnel of a reachable state satisfies *)

Lemma Move_sound ev p t t' : Move p ev t t' -> sound p t -> sound p t'.
Proof.
  intros Hm (Hport & Hproc & Hsl & Hprom).
  destruct Hm; unfold Lifecycle.sound; simpl;
    (split; [assumption|]); (split; [assumption|]); (split; [|]);
    try assumption; try (intros d Hd; discriminate Hd).
  - intros d [= <-]. auto.
  - destruct (promise t); auto. destruct Hprom. auto.
  - reflexivity.
  - split; [reflexivity|].
    destruct (sleeping t) as [d|] eqn:E; [|contradiction]. now destruct (Hsl d eq_refl).
Qed.

Lemma settle_length p v s : length (tunnels (settle p v s)) = length (tunnels s).
Proof.
  unfold settle. destruct (tunnels s !! p) as [t|]; [|reflexivity].
  destruct (promise t); try reflexivity.
  destruct (lock s) as [l|]; [destruct (Nat.eqb l p)|]; simpl; apply length_insert.
Qed.

Lemma handle_length ev s : length (tunnels (fst (handle ev s))) = length (tunnels s).
Proof.
  destruct ev as [target port|q code|q error|q line|q line|q|target port|]; simpl.
  - reflexivity.
  - unfold onClose. destruct (tunnels s !! q) as [u|]; [|reflexivity].
    set (s1 := match regGet _ _ with Some _ => _ | None => s end).
    assert (Ht1 : tunnels s1 = tunnels s) by (subst s1; now destruct (regGet _ _)).
    destruct (negb (resolved u)); simpl; now rewrite ?settle_length, Ht1.
  - unfold Forward.onError. destruct (tunnels s !! q); [|reflexivity].
    pose proof (killUnlessKilled_killedOnly q s) as (_ & _ & _ & _ & _ & H & _).
    now destruct (killUnlessKilled q s) as [s1 [e|]].
  - unfold onStdout. destruct (tunnels s !! q) as [u|]; [|reflexivity].
    destruct (resolved u); [reflexivity|].
    destruct (includes _ line); simpl; apply length_insert.
  - unfold Forward.onStderr. destruct (tunnels s !! q) as [u|]; [|reflexivity].
    set (s1 := setTunnels _ s).
    assert (H1 : length (tunnels s1) = length (tunnels s)) by apply length_insert.
    destruct (fatal line); [|exact H1].
    pose proof (killUnlessKilled_killedOnly q s1) as (_ & _ & _ & _ & _ & H & _).
    congruence.
  - unfold onTimeout. destruct (tunnels s !! q) as [u|]; [|reflexivity].
    destruct (sleeping u); [|reflexivity]. simpl. rewrite settle_length. apply length_insert.
  - now pose proof (killPortForward_killedOnly target port s) as (_ & _ & _ & _ & _ & H & _).
  - now pose proof (killAll_killedOnly (map snd (registeredPortForwards s)) s)
      as (_ & _ & _ & _ & _ & H & _).
Qed.

Lemma enter_grows c s :
  (tunnels (enter c s) = tunnels s /\ lock (enter c s) = lock s)
  \/ exists target port,
       tunnels (enter c s) = (tunnels s ++ [fresh target port (length (tunnels s))])%list
       /\ lock (enter c s) = Some (length (tunnels s)).
Proof.
  unfold Forward.enter. destruct (calls s !! c) as [call|]; [|now left].
  destruct (regGet _ _); [destruct (negb _)|]; simpl;
    first [now left | right; do 2 eexists; split; reflexivity].
Qed.

(** A turn spawns at most one process, and holds the lock for it. *)
Lemma dispatch_grows waiting s :
  (tunnels (dispatch waiting s) = tunnels s /\ lock (dispatch waiting s) = lock s)
  \/ exists target port,
       tunnels (dispatch waiting s)
       = (tunnels s ++ [fresh target port (length (tunnels s))])%list
       /\ lock (dispatch waiting s) = Some (length (tunnels s)).
Proof.
  revert s. induction waiting as [|c rest IH]; intros s; simpl; [now left|].
  destruct (lock s) eqn:Hlock; [now left|].
  destruct (enter_grows c s) as [[Ht Hl]|(target & port & Ht & Hl)].
  - rewrite <- Ht, <- Hlock, <- Hl. apply IH.
  - right. exists target, port. rewrite (dispatch_busy getPort rest _ _ Hl). auto.
Qed.

Lemma step_grows ev s :
  (tunnels (step ev s) = tunnels (fst (handle ev s))
   /\ lock (step ev s) = lock (fst (handle ev s)))
  \/ exists target port,
       tunnels (step ev s)
       = (tunnels (fst (handle ev s))
          ++ [fresh target port (length (tunnels s))])%list
       /\ lock (step ev s) = Some (length (tunnels s)).
Proof.
  rewrite <- (handle_length ev s). unfold Forward.step, Forward.schedule.
  destruct (handle ev s) as [s1 [e|]]; simpl;
    [apply (dispatch_grows _ (setUncaught _ s1))|apply dispatch_grows].
Qed.

Lemma lookup_snoc_cases {A} (l : list A) (x y : A) (i : nat) :
  (l ++ [x])%list !! i = Some y ->
  l !! i = Some y \/ (i = length l /\ x = y).
Proof.
  rewrite lookup_app. destruct (l !! i) eqn:E; [auto|].
  apply lookup_ge_None in E. intros H. right.
  destruct (i - length l)%nat eqn:D; simpl in H; [|discriminate].
  injection H as ->. split; [lia|reflexivity].
Qed.

(** Where a tunnel of the state after a turn comes from. *)
Lemma step_tunnel_origin ev s p t' :
  tunnels (step ev s) !! p = Some t' ->
  (exists t, tunnels s !! p = Some t /\ Move p ev t t')
  \/ (p = length (tunnels s) /\ exists target port, t' = fresh target port p).
Proof.
  intros Ht'. destruct (tunnels s !! p) as [t|] eqn:Ht.
  - left. exists t. split; [reflexivity|].
    destruct (handle_move ev s p t Ht) as (u & Hu & Hm).
    apply (step_tunnels getPort killError) in Hu. rewrite Hu in Ht'. now injection Ht' as <-.
  - right. apply lookup_ge_None in Ht.
    destruct (step_grows ev s) as [[Heq _]|(target & port & Heq & _)]; rewrite Heq in Ht'.
    + apply lookup_lt_Some in Ht'. rewrite handle_length in Ht'. lia.
    + apply lookup_snoc_cases in Ht' as [H|[Hp <-]].
      * apply lookup_lt_Some in H. rewrite handle_length in H. lia.
      * rewrite handle_length in Hp. subst p. eauto.
Qed.

Lemma reachable_sound s p t : reachable s -> tunnels s !! p = Some t -> sound p t.
Proof.
  intros [evs ->]. revert p t. induction evs as [|ev evs IH] using rev_ind; intros p t Ht.
  - discriminate Ht.
  - rewrite (run_snoc getPort killError) in Ht.
    apply step_tunnel_origin in Ht as [(u & Hu & Hm)|(-> & target & port & ->)].
    + eapply Move_sound; [exact Hm|]. now apply IH.
    + unfold Lifecycle.sound. simpl. repeat split; auto; discriminate.
Qed.

(** ** The lock is held for an unsettled creation only *)

Lemma held_update s p t t' :
  held s -> tunnels s !! p = Some t -> promise t' = promise t ->
  held (setTunnels (<[p := t']> (tunnels s)) s).
Proof.
  intros H Ht Hp q Hq. simpl in *. destruct (H q Hq) as (u & Hu & Hpend).
  destruct (decide (p = q)) as [->|Hne].
  - exists t'. rewrite list_lookup_insert_eq by now apply lookup_lt_Some in Ht.
    split; [reflexivity|]. rewrite Ht in Hu. injection Hu as ->. congruence.
  - exists u. now rewrite list_lookup_insert_ne.
Qed.

Lemma held_settle s p v : held s -> held (settle p v s).
Proof.
  intros H. unfold settle. destruct (tunnels s !! p) as [t|] eqn:Ht; [|assumption].
  destruct (promise t) eqn:Hp; try assumption.
  assert (Hother : forall q, lock s = Some q -> q <> p ->
                     exists u, <[p := setPromise v t]> (tunnels s) !! q = Some u
                               /\ promise u = Pending).
  { intros q Hq Hne. destruct (H q Hq) as (u & Hu & Hpend).
    exists u. now rewrite list_lookup_insert_ne by congruence. }
  destruct (lock s) as [l|] eqn:Hl.
  - destruct (Nat.eqb_spec l p) as [->|Hne]; intros q Hq; simpl in *; [discriminate|].
    rewrite Hl in Hq. apply Hother; [assumption|]. now injection Hq as <-.
  - intros q Hq. simpl in Hq. congruence.
Qed.

Lemma held_same s s' : held s -> killedOnly s s' -> held s'.
Proof.
  intros H (_ & _ & _ & Hl & _ & _ & Ht) q Hq. rewrite Hl in Hq.
  destruct (H q Hq) as (u & Hu & Hpend).
  destruct (Ht q u Hu) as [Hu'|[_ Hu']]; eexists; (split; [exact Hu'|]); assumption.
Qed.

Lemma held_registered s reg : held s -> held (setRegistered reg s).
Proof. intros H. exact H. Qed.

Lemma held_handle ev s : held s -> held (fst (handle ev s)).
Proof.
  intros H. destruct ev as [target port|q code|q error|q line|q line|q|target port|]; simpl.
  - exact H.
  - unfold onClose. destruct (tunnels s !! q) as [u|]; [|assumption].
    set (s1 := match regGet _ _ with Some _ => _ | None => s end).
    assert (H1 : held s1) by (subst s1; now destruct (regGet _ _)).
    destruct (negb (resolved u)); simpl; [now apply held_settle|assumption].
  - unfold Forward.onError. destruct (tunnels s !! q); [|assumption].
    pose proof (held_same s _ H (killUnlessKilled_killedOnly q s)) as H1.
    now destruct (killUnlessKilled q s) as [s1 [e|]].
  - unfold onStdout. destruct (tunnels s !! q) as [u|] eqn:Hu; [|assumption].
    destruct (resolved u); [assumption|].
    destruct (includes _ line); simpl.
    + apply held_registered. now apply (held_update s q u).
    + now apply (held_update s q u).
  - unfold Forward.onStderr. destruct (tunnels s !! q) as [u|] eqn:Hu; [|assumption].
    assert (H1 : held (setTunnels (<[q := setOutput (output u +:+ line) u]> (tunnels s)) s))
      by now apply (held_update s q u).
    destruct (fatal line); [|assumption].
    exact (held_same _ _ H1 (killUnlessKilled_killedOnly q _)).
  - unfold onTimeout. destruct (tunnels s !! q) as [u|] eqn:Hu; [|assumption].
    destruct (sleeping u); [|assumption]. simpl.
    apply held_settle. now apply (held_update s q u).
  - exact (held_same _ _ H (killPortForward_killedOnly target port s)).
  - exact (held_same _ _ H (killAll_killedOnly _ s)).
Qed.

Lemma held_dispatch waiting s : held s -> held (dispatch waiting s).
Proof.
  revert s. induction waiting as [|c rest IH]; intros s H; simpl; [exact H|].
  destruct (lock s) eqn:Hlock; [exact H|]. apply IH.
  unfold Forward.enter. destruct (calls s !! c) as [call|]; [|assumption].
  assert (Hcreate : forall cs t,
             promise t = Pending ->
             held (setLock (Some (length (tunnels s)))
                     (setCalls cs (setTunnels (tunnels s ++ [t])%list s)))).
  { intros cs t Hp q Hq. simpl in *. injection Hq as <-.
    exists t. split; [apply lookup_snoc_new|assumption]. }
  destruct (regGet _ _); [destruct (negb _)|]; first [exact H | now apply Hcreate].
Qed.

Lemma reachable_held s : reachable s -> held s.
Proof.
  intros [evs ->]. induction evs as [|ev evs IH] using rev_ind.
  - intros p Hp. discriminate Hp.
  - rewrite (run_snoc getPort killError). unfold Forward.step, Forward.schedule.
    pose proof (held_handle ev _ IH) as H.
    destruct (Forward.handle killError ev _) as [s1 [e|]]; simpl in *;
      now apply held_dispatch.
Qed.

(** ** The calls of a reachable state *)

Lemma Move_grown ev p t t' : Move p ev t t' -> grown t t'.
Proof.
  intros Hm. destruct Hm; unfold grown; simpl;
    (split; [reflexivity|]); (split; [auto|]); (split; [auto|]);
    (split; [first [reflexivity | intros; reflexivity | congruence]|]);
    first [ now (exists ""; rewrite append_nil_r) | now (exists line) ].
Qed.

Lemma grown_refl t : grown t t.
Proof. unfold grown. repeat split; auto. exists "". now rewrite append_nil_r. Qed.

Lemma grown_trans t1 t2 t3 : grown t1 t2 -> grown t2 t3 -> grown t1 t3.
Proof.
  unfold grown. intros (Hf & Hk & Hr & Hp & m & Ho) (Hf' & Hk' & Hr' & Hp' & m' & Ho').
  split; [congruence|]. split; [auto|]. split; [auto|]. split.
  - intros Hne. rewrite Hp', Hp; auto. now rewrite Hp.
  - exists (m +:+ m'). now rewrite Ho', Ho, append_assoc.
Qed.

Lemma settle_calls p v s :
  calls (settle p v s) = calls s /\ queue (settle p v s) = queue s.
Proof.
  unfold settle. destruct (tunnels s !! p) as [t|]; [|auto].
  destruct (promise t); auto.
  destruct (lock s) as [l|]; [destruct (Nat.eqb l p)|]; auto.
Qed.

Lemma handle_calls ev s :
  match ev with
  | GetPortForward target port =>
      calls (fst (handle ev s))
      = (calls s ++ [ {| c_targetResource := target; c_port := port;
                         c_status := Queued |} ])%list
      /\ queue (fst (handle ev s)) = (queue s ++ [length (calls s)])%list
  | _ => calls (fst (handle ev s)) = calls s /\ queue (fst (handle ev s)) = queue s
  end.
Proof.
  destruct ev as [target port|q code|q error|q line|q line|q|target port|]; simpl.
  - auto.
  - unfold onClose. destruct (tunnels s !! q) as [u|]; [|auto].
    set (s1 := match regGet _ _ with Some _ => _ | None => s end).
    assert (H1 : calls s1 = calls s /\ queue s1 = queue s)
      by (subst s1; now destruct (regGet _ _)).
    destruct (negb (resolved u)); simpl; [|exact H1].
    destruct (settle_calls q (Rejected (exitError code u)) s1) as [-> ->]. exact H1.
  - unfold Forward.onError. destruct (tunnels s !! q); [|auto].
    pose proof (killUnlessKilled_killedOnly q s) as (_ & Hc & Hq & _).
    destruct (killUnlessKilled q s) as [s1 [e|]]; auto.
  - unfold onStdout. destruct (tunnels s !! q) as [u|]; [|auto].
    destruct (resolved u); [auto|]. destruct (includes _ line); auto.
  - unfold Forward.onStderr. destruct (tunnels s !! q) as [u|]; [|auto].
    destruct (fatal line); [|auto].
    pose proof (killUnlessKilled_killedOnly q
                  (setTunnels (<[q := setOutput (output u +:+ line) u]> (tunnels s)) s))
      as (_ & Hc & Hq & _). auto.
  - unfold onTimeout. destruct (tunnels s !! q) as [u|]; [|auto].
    destruct (sleeping u); [|auto]. simpl.
    destruct (settle_calls q (Fulfilled (portForward u))
                (setTunnels (<[q := setSleeping None u]> (tunnels s)) s)) as [-> ->]. auto.
  - pose proof (killPortForward_killedOnly target port s) as (_ & Hc & Hq & _). auto.
  - pose proof (killAll_killedOnly (map snd (registeredPortForwards s)) s)
      as (_ & Hc & Hq & _). auto.
Qed.

Lemma Calls_handle ev s : Calls s -> Calls (fst (handle ev s)).
Proof.
  intros [Hnd Hw Hr].
  assert (Hreused : forall c call fwd,
             calls s !! c = Some call -> c_status call = Reused fwd ->
             keyOf fwd = getPortForwardKey (c_targetResource call) (c_port call)
             /\ exists t, tunnels (fst (handle ev s)) !! proc fwd = Some t
                          /\ portForward t = fwd /\ resolved t = true).
  { intros c call fwd Hc Hst. destruct (Hr c call fwd Hc Hst) as (Hkey & t & Ht & Hfwd & Hres).
    split; [assumption|]. destruct (handle_move ev s _ t Ht) as (t' & Ht' & Hm).
    apply Move_grown in Hm as (Hf & _ & Hr' & _). exists t'. split; [assumption|].
    split; [congruence|auto]. }
  pose proof (handle_calls ev s) as Hc.
  assert (Hsame : calls (fst (handle ev s)) = calls s ->
                  queue (fst (handle ev s)) = queue s -> Calls (fst (handle ev s))).
  { intros Hcs Hqs. constructor; rewrite ?Hcs, ?Hqs; assumption. }
  destruct ev as [target port|q code|q error|q line|q line|q|target port|];
    try (destruct Hc; now apply Hsame).
  destruct Hc as [Hcs Hqs]. constructor; rewrite ?Hcs, ?Hqs.
  - apply List.NoDup_app; [assumption|constructor; [intros []|constructor]|].
    intros c Hin [<-|[]]. apply Hw in Hin as (call & Hcall & _).
    apply lookup_lt_Some in Hcall. lia.
  - intros c. rewrite in_app_iff, Hw. split.
    + intros [(call & Hcall & Hst)|[<-|[]]].
      * exists call. split; [now apply lookup_snoc_old|assumption].
      * eexists. split; [apply lookup_snoc_new|reflexivity].
    + intros (call & Hcall & Hst). apply lookup_snoc_cases in Hcall as [Hcall|[-> _]].
      * left. eauto.
      * right. now left.
  - intros c call fwd Hcall Hst. apply lookup_snoc_cases in Hcall as [Hcall|[_ <-]].
    + now apply (Hreused c call fwd).
    + discriminate Hst.
Qed.

Lemma Calls_setUncaught u s : Calls s -> Calls (setUncaught u s).
Proof. intros [Hnd Hw Hr]. constructor; assumption. Qed.

(** Entering changes the call that enters, and nothing of the others. *)
Lemma enter_call c s call :
  Inv s -> calls s !! c = Some call ->
  exists st,
    calls (enter c s) = <[c := setStatus st call]> (calls s)
    /\ st <> Queued
    /\ forall fwd, st = Reused fwd ->
         keyOf fwd = getPortForwardKey (c_targetResource call) (c_port call)
         /\ exists t, tunnels s !! proc fwd = Some t /\ portForward t = fwd
                      /\ resolved t = true.
Proof.
  intros HI Hc. unfold Forward.enter. rewrite Hc.
  assert (Hcreate : forall p, exists st,
             <[c := setStatus (Creating p) call]> (calls s)
             = <[c := setStatus st call]> (calls s)
             /\ st <> Queued
             /\ forall fwd, st = Reused fwd ->
                  keyOf fwd = getPortForwardKey (c_targetResource call) (c_port call)
                  /\ exists t, tunnels s !! proc fwd = Some t /\ portForward t = fwd
                               /\ resolved t = true).
  { intros p. exists (Creating p). split; [reflexivity|]. split; discriminate. }
  destruct (regGet _ _) as [registered|] eqn:Hreg; [|apply Hcreate].
  destruct (negb _); [|apply Hcreate]. simpl.
  exists (Reused registered). split; [reflexivity|]. split; [discriminate|].
  intros fwd [= <-]. apply regGet_In in Hreg.
  destruct (inv_reg _ _ HI _ _ Hreg) as (Hkey & t & Ht & Hfwd & Hres).
  split; [now symmetry|]. eauto.
Qed.

Lemma Calls_dispatch waiting s :
  Inv s -> List.NoDup waiting ->
  (forall c, In c waiting <-> exists call, calls s !! c = Some call /\ c_status call = Queued) ->
  (forall c call fwd,
     calls s !! c = Some call -> c_status call = Reused fwd ->
     keyOf fwd = getPortForwardKey (c_targetResource call) (c_port call)
     /\ exists t, tunnels s !! proc fwd = Some t /\ portForward t = fwd
                  /\ resolved t = true) ->
  Calls (dispatch waiting s).
Proof.
  revert s. induction waiting as [|c rest IH]; intros s HI Hnd Hw Hr; simpl.
  - constructor; simpl; assumption.
  - destruct (lock s) eqn:Hlock; [constructor; simpl; assumption|].
    apply List.NoDup_cons_iff in Hnd as [Hc Hnd].
    destruct (proj1 (Hw c) (or_introl eq_refl)) as (call & Hcall & Hst).
    destruct (enter_call c s call HI Hcall) as (st & Hcalls & Hnq & Hreuse).
    assert (Hlt : (c < length (calls s))%nat) by now apply lookup_lt_Some in Hcall.
    apply IH; [now apply Inv_enter|assumption| |].
    + intros c'. rewrite Hcalls. destruct (decide (c' = c)) as [->|Hne].
      * rewrite list_lookup_insert_eq by assumption. split; [contradiction|].
        intros (call' & [= <-] & Hst'). simpl in Hst'. contradiction.
      * rewrite list_lookup_insert_ne by congruence. rewrite <- Hw. simpl.
        split; [auto|]. intros [?|?]; [congruence|assumption].
    + intros c' call' fwd. rewrite Hcalls. intros Hc' Hst'.
      assert (Hold : keyOf fwd = getPortForwardKey (c_targetResource call') (c_port call')
                     /\ exists t, tunnels s !! proc fwd = Some t /\ portForward t = fwd
                                  /\ resolved t = true).
      { apply lookup_insert_Some in Hc' as [(<- & <- & _)|[_ Hc']].
        - simpl in *. now apply Hreuse.
        - now apply (Hr c' call'). }
      destruct Hold as (Hkey & t & Ht & Hrest). split; [assumption|].
      exists t. split; [now apply enter_tunnel|assumption].
Qed.

Lemma reachable_Calls s : reachable s -> Calls s.
Proof.
  intros [evs ->]. induction evs as [|ev evs IH] using rev_ind.
  - constructor; simpl.
    + constructor.
    + intros c. split; [intros []|]. intros (call & H & _). discriminate H.
    + intros c call fwd H. discriminate H.
  - rewrite (run_snoc getPort killError).
    pose proof (reachable_Inv getPort killError _ (reachable_run_init evs)) as [HI _].
    pose proof (Inv_handle getPort killError ev _ HI) as HI1.
    pose proof (Calls_handle ev _ IH) as HC1.
    unfold Forward.step, Forward.schedule.
    destruct (Forward.handle killError ev _) as [s1 [e|]]; simpl in *.
    + destruct (Calls_setUncaught (uncaught s1 ++ [e])%list s1 HC1) as [Hnd Hw Hr].
      apply Calls_dispatch; try assumption. now apply Inv_setUncaught.
    + destruct HC1 as [Hnd Hw Hr]. now apply Calls_dispatch.
Qed.

Lemma run_grown evs s p t :
  tunnels s !! p = Some t ->
  exists t', tunnels (run evs s) !! p = Some t' /\ grown t t'.
Proof.
  revert s t. induction evs as [|ev evs IH]; intros s t Ht.
  - exists t. split; [assumption|apply grown_refl].
  - destruct (step_move ev s p t Ht) as (t1 & Ht1 & Hm).
    destruct (IH (step ev s) t1 Ht1) as (t' & Ht' & Hg).
    exists t'. split; [exact Ht'|].
    eapply grown_trans; [eapply Move_grown; exact Hm|exact Hg].
Qed.

(** X11.  Whatever events follow, a tunnel stays in the process table and
    nothing in it goes back: its descriptor is fixed, the [killed] and
    [resolved] flags stay set, a settled promise keeps its outcome, and the
    accumulated output only grows. *)
Theorem tunnel_never_goes_back evs s p t :
  tunnels s !! p = Some t ->
  exists t', tunnels (run evs s) !! p = Some t' /\ grown t t'.
Proof. exact (run_grown evs s p t). Qed.

(** X12.  In every reachable state the keys of the registry are distinct,
    and a lookup by target and port returns only a descriptor for that
    target and that port, with the local port that [getPort] returned for
    its process, a process that has shown the readiness marker. *)
Theorem registry_lookup_sound s target port fwd :
  reachable s ->
  regGet (getPortForwardKey target port) (registeredPortForwards s) = Some fwd ->
  List.NoDup (map fst (registeredPortForwards s))
  /\ targetResource fwd = target /\ Forward.port fwd = port
  /\ localPort fwd = getPort (proc fwd)
  /\ exists t, tunnels s !! proc fwd = Some t /\ portForward t = fwd
               /\ status t = StatusActive.
Proof.
  intros Hr Hreg. destruct (reachable_Inv getPort killError s Hr) as [HI _].
  split; [apply (inv_keys _ _ HI)|]. apply regGet_In in Hreg.
  destruct (inv_reg _ _ HI _ _ Hreg) as (Hkey & t & Ht & Hfwd & Hres).
  symmetry in Hkey. apply keyOf_inj in Hkey as [Htarget Hport].
  split; [assumption|]. split; [assumption|]. split.
  - destruct (reachable_sound s _ t Hr Ht) as (Hlp & _). now rewrite Hfwd in Hlp.
  - exists t. split; [assumption|]. split; [assumption|]. now apply status_active.
Qed.

(** X13.  In every reachable state at most one creation is unsettled, and
    the lock is held exactly for it: a held lock names a tunnel whose promise
    is pending, and under a free lock every promise is settled, the queue is
    empty and no call is left waiting. *)
Theorem one_creation_at_a_time s :
  reachable s ->
  (forall p q tp tq,
     tunnels s !! p = Some tp -> promise tp = Pending ->
     tunnels s !! q = Some tq -> promise tq = Pending -> p = q)
  /\ (forall p, lock s = Some p ->
        exists t, tunnels s !! p = Some t /\ promise t = Pending)
  /\ (lock s = None ->
      queue s = []
      /\ (forall p t, tunnels s !! p = Some t -> promise t <> Pending)
      /\ forall c call, calls s !! c = Some call -> c_status call <> Queued).
Proof.
  intros Hr. destruct (reachable_Inv getPort killError s Hr) as [HI Hidle].
  split; [|split].
  - intros p q tp tq Hp Hpp Hq Hpq.
    pose proof (inv_lock _ _ HI p tp Hp Hpp) as H1.
    pose proof (inv_lock _ _ HI q tq Hq Hpq) as H2. congruence.
  - apply (reachable_held s Hr).
  - intros Hlock. split; [now apply Hidle|]. split.
    + intros p t Ht Hp. pose proof (inv_lock _ _ HI p t Ht Hp). congruence.
    + intros c call Hc Hst.
      assert (Hin : In c (queue s)) by (apply (calls_waiting _ (reachable_Calls s Hr)); eauto).
      rewrite (Hidle Hlock) in Hin. contradiction.
Qed.

Lemma enter_calls_other c c' s : c <> c' -> calls (enter c' s) !! c = calls s !! c.
Proof.
  intros Hne. unfold Forward.enter. destruct (calls s !! c'); [|reflexivity].
  destruct (regGet _ _); [destruct (negb _)|]; simpl;
    now rewrite list_lookup_insert_ne by congruence.
Qed.

Lemma dispatch_calls_other waiting c s :
  ~ In c waiting -> calls (dispatch waiting s) !! c = calls s !! c.
Proof.
  revert s. induction waiting as [|c' rest IH]; intros s Hn; simpl; [reflexivity|].
  destruct (lock s); [reflexivity|].
  rewrite IH by (intros H; apply Hn; now right).
  apply enter_calls_other. intros ->. apply Hn. now left.
Qed.

(** A call that has entered keeps its record. *)
Lemma step_call_stable ev s c call :
  reachable s -> calls s !! c = Some call -> c_status call <> Queued ->
  calls (step ev s) !! c = Some call.
Proof.
  intros Hr Hc Hst.
  assert (Hnq : ~ In c (queue s)).
  { intros Hin. apply (calls_waiting _ (reachable_Calls s Hr)) in Hin as (call' & Hc' & Hq).
    congruence. }
  assert (Hlt : (c < length (calls s))%nat) by now apply lookup_lt_Some in Hc.
  pose proof (handle_calls ev s) as Hh.
  assert (H1 : calls (fst (handle ev s)) !! c = Some call
               /\ ~ In c (queue (fst (handle ev s)))).
  { destruct ev; destruct Hh as [-> ->]; try (split; assumption).
    split; [now apply lookup_snoc_old|].
    rewrite in_app_iff. intros [H|[H|[]]]; [contradiction|lia]. }
  destruct H1 as [H1 H2]. unfold Forward.step, Forward.schedule.
  destruct (Forward.handle killError ev s) as [s1 [e|]]; simpl in *;
    now rewrite dispatch_calls_other.
Qed.

Lemma result_settled s call :
  result s call <> Pending ->
  (exists fwd, c_status call = Reused fwd)
  \/ (exists p t, c_status call = Creating p /\ tunnels s !! p = Some t
                  /\ promise t <> Pending).
Proof.
  unfold result. destruct (c_status call) as [|p|fwd]; [contradiction| |eauto].
  destruct (tunnels s !! p) as [t|] eqn:Ht; [|contradiction]. intros H. right. eauto.
Qed.

(** X14.  Once a call of [getPortForward] has its answer, a descriptor or a
    rejection, no later event changes it. *)
Theorem settled_result_is_final s c call evs :
  reachable s -> calls s !! c = Some call -> result s call <> Pending ->
  calls (run evs s) !! c = Some call
  /\ result (run evs s) call = result s call.
Proof.
  intros Hr Hc Hres.
  assert (Hst : c_status call <> Queued).
  { intros H. apply Hres. unfold result. now rewrite H. }
  split.
  - clear Hres. revert s Hr Hc. induction evs as [|ev evs IH]; intros s Hr Hc; [assumption|].
    apply IH; [now apply reachable_step|now apply step_call_stable].
  - destruct (result_settled s call Hres) as [[fwd Hf]|(p & t & Hp & Ht & Hset)].
    + unfold result. now rewrite Hf.
    + destruct (run_grown evs s p t Ht) as (t' & Ht' & _ & _ & _ & Hprom & _).
      unfold result. rewrite Hp, Ht, Ht'. now apply Hprom.
Qed.

(** X15.  A call that is answered with a descriptor gets one for the target
    and the port it asked for, with the local port that [getPort] returned
    for the descriptor's process, and that process has shown the readiness
    marker. *)
Theorem fulfilled_answer_matches_request s c call fwd :
  reachable s -> calls s !! c = Some call -> result s call = Fulfilled fwd ->
  targetResource fwd = c_targetResource call
  /\ Forward.port fwd = c_port call
  /\ localPort fwd = getPort (proc fwd)
  /\ exists t, tunnels s !! proc fwd = Some t /\ portForward t = fwd
               /\ status t = StatusActive.
Proof.
  intros Hr Hc Hres. destruct (reachable_Inv getPort killError s Hr) as [HI _].
  unfold result in Hres. destruct (c_status call) as [|p|reg] eqn:Hst; [discriminate| |].
  - destruct (tunnels s !! p) as [t|] eqn:Ht; [|discriminate].
    destruct (reachable_sound s p t Hr Ht) as (Hlp & Hproc & _ & Hprom).
    rewrite Hres in Hprom. destruct Hprom as [-> Hready].
    destruct (inv_calls _ _ HI c call p Hc Hst) as (u & Hu & Hfwd).
    rewrite Ht in Hu. injection Hu as <-. rewrite Hproc.
    split; [now rewrite Hfwd|]. split; [now rewrite Hfwd|]. split; [assumption|].
    exists t. split; [assumption|]. split; [reflexivity|]. now apply status_active.
  - injection Hres as ->.
    destruct (calls_reused _ (reachable_Calls s Hr) c call fwd Hc Hst)
      as (Hkey & t & Ht & Hfwd & Hready).
    apply keyOf_inj in Hkey as [Htarget Hport].
    split; [assumption|]. split; [assumption|]. split.
    + destruct (reachable_sound s _ t Hr Ht) as (Hlp & _). now rewrite Hfwd in Hlp.
    + exists t. split; [assumption|]. split; [assumption|]. now apply status_active.
Qed.

(** X16.  Nothing but a close event of the process or a stdout line with the
    readiness marker ends the wait of a pending creation: through any other
    events, kills, error events, stderr lines and timers included, the
    tunnel stays pending, its promise unsettled and the lock held, so the
    caller and every later caller wait without a timeout. *)
Theorem pending_until_close_or_ready s p t evs :
  reachable s -> tunnels s !! p = Some t ->
  status t = StatusPending -> promise t = Pending ->
  (forall ev, In ev evs -> ~ ends p ev) ->
  lock (run evs s) = Some p
  /\ exists t', tunnels (run evs s) !! p = Some t'
                /\ status t' = StatusPending /\ promise t' = Pending.
Proof.
  intros Hr Ht Hst Hp Hevs.
  assert (Hgoal : exists t', tunnels (run evs s) !! p = Some t'
                             /\ status t' = StatusPending /\ promise t' = Pending).
  { revert s t Hr Ht Hst Hp. induction evs as [|ev evs IH]; intros s t Hr Ht Hst Hp.
    - exists t. auto.
    - destruct (step_move ev s p t Ht) as (t1 & Ht1 & Hm).
      apply status_pending in Hst.
      destruct (reachable_sound s p t Hr Ht) as (_ & _ & Hsl & _).
      assert (Hnot : ~ ends p ev) by (apply Hevs; now left).
      assert (Hkeep : resolved t1 = false /\ promise t1 = Pending).
      { destruct Hm; simpl; auto.
        - exfalso. apply Hnot. simpl. auto.
        - exfalso. apply Hnot. reflexivity.
        - destruct (sleeping t) as [d|] eqn:E; [|contradiction].
          destruct (Hsl d eq_refl). congruence. }
      destruct Hkeep as [Hres1 Hp1].
      apply (IH (fun ev' H => Hevs ev' (or_intror H)) (step ev s) t1);
        [now apply reachable_step|assumption|now apply status_pending|assumption]. }
  split; [|exact Hgoal]. destruct Hgoal as (t' & Ht' & _ & Hp').
  destruct (reachable_Inv getPort killError _ (reachable_run getPort killError evs s Hr))
    as [HI _].
  exact (inv_lock _ _ HI p t' Ht' Hp').
Qed.

(** ** Killing, and creating again *)

Lemma acquire_spawns s target port :
  reachable s -> lock s = None -> needsCreation (getPortForwardKey target port) s ->
  tunnels (step (GetPortForward target port) s)
  = (tunnels s ++ [fresh target port (length (tunnels s))])%list
  /\ lock (step (GetPortForward target port) s) = Some (length (tunnels s))
  /\ registeredPortForwards (step (GetPortForward target port) s)
     = registeredPortForwards s
  /\ calls (step (GetPortForward target port) s) !! length (calls s)
     = Some {| c_targetResource := target; c_port := port;
               c_status := Creating (length (tunnels s)) |}.
Proof.
  intros Hr Hlock Hneed.
  pose proof (proj2 (reachable_Inv getPort killError s Hr) Hlock) as Hqueue.
  rewrite (acquire_idle getPort killError s target port Hlock Hqueue).
  set (s1 := setQueue _ (setCalls _ s)).
  assert (Hc : calls s1 !! length (calls s)
               = Some {| c_targetResource := target; c_port := port; c_status := Queued |})
    by apply lookup_snoc_new.
  rewrite (enter_create getPort _ s1 _ Hc Hneed). subst s1. simpl.
  repeat (split; [reflexivity|]).
  apply list_lookup_insert_eq. rewrite length_app. simpl. lia.
Qed.

Lemma killPortForward_step s target port :
  reachable s ->
  registeredPortForwards (step (KillPortForward target port) s)
  = registeredPortForwards s
  /\ (regGet (getPortForwardKey target port) (registeredPortForwards s) = None ->
      step (KillPortForward target port) s = s)
  /\ (forall fwd,
        regGet (getPortForwardKey target port) (registeredPortForwards s) = Some fwd ->
        (killedOf s (proc fwd) = true -> step (KillPortForward target port) s = s)
        /\ (killedOf s (proc fwd) = false -> killError (proc fwd) = None ->
            killedOnly s (step (KillPortForward target port) s)
            /\ killedOf (step (KillPortForward target port) s) (proc fwd) = true
            /\ forall q, q <> proc fwd ->
                 tunnels (step (KillPortForward target port) s) !! q = tunnels s !! q)
        /\ (killedOf s (proc fwd) = false ->
            forall e, killError (proc fwd) = Some e ->
              step (KillPortForward target port) s
              = setUncaught (uncaught s ++ [e])%list s)).
Proof.
  intros Hr.
  assert (Hh : handle (KillPortForward target port) s
               = match regGet (getPortForwardKey target port) (registeredPortForwards s) with
                 | Some fwd => killUnlessKilled (proc fwd) s
                 | None => (s, None)
                 end) by reflexivity.
  split; [|split].
  - rewrite (step_registered getPort killError).
    now destruct (killPortForward_killedOnly target port s) as (H & _).
  - intros Hnone. rewrite Hnone in Hh.
    now rewrite (step_quiet_eq getPort killError _ _ _ _ Hr Hh).
  - intros fwd Hreg. rewrite Hreg in Hh.
    destruct (killUnlessKilled_cases killError (proc fwd) s)
      as [[Hk Hs]|[(Hk & e & He & Hs)|(Hk & Hnone & s1 & Hs & Hs1 & Hk1 & Hother)]];
      rewrite Hs in Hh.
    + rewrite (step_quiet_eq getPort killError _ _ _ _ Hr Hh) by reflexivity.
      split; [reflexivity|]. split; intros; congruence.
    + rewrite (step_quiet_eq getPort killError _ _ _ _ Hr Hh) by reflexivity.
      split; [congruence|]. split; [congruence|].
      intros _ e' He'. rewrite He in He'. now injection He' as <-.
    + assert (Hl : lock s1 = lock s) by apply Hs1.
      assert (Hq : queue s1 = queue s) by apply Hs1.
      rewrite (step_quiet_eq getPort killError _ _ _ _ Hr Hh Hl Hq).
      split; [congruence|]. split; [auto|]. intros _ e He. congruence.
Qed.

(** X17.  [killPortForward] never unregisters: the descriptor stays in the
    registry until the close event.  For a key that is not registered, or
    whose process is killed already, the call changes nothing; otherwise it
    sets the [killed] flag of that one process and touches nothing else,
    unless [kill] raises, which only adds the uncaught exception. *)
Theorem killPortForward_effect s target port :
  reachable s ->
  registeredPortForwards (step (KillPortForward target port) s)
  = registeredPortForwards s
  /\ (regGet (getPortForwardKey target port) (registeredPortForwards s) = None ->
      step (KillPortForward target port) s = s)
  /\ (forall fwd,
        regGet (getPortForwardKey target port) (registeredPortForwards s) = Some fwd ->
        (killedOf s (proc fwd) = true -> step (KillPortForward target port) s = s)
        /\ (killedOf s (proc fwd) = false -> killError (proc fwd) = None ->
            killedOnly s (step (KillPortForward target port) s)
            /\ killedOf (step (KillPortForward target port) s) (proc fwd) = true
            /\ forall q, q <> proc fwd ->
                 tunnels (step (KillPortForward target port) s) !! q = tunnels s !! q)
        /\ (killedOf s (proc fwd) = false ->
            forall e, killError (proc fwd) = Some e ->
              step (KillPortForward target port) s
              = setUncaught (uncaught s ++ [e])%list s)).
Proof. exact (killPortForward_step s target port). Qed.

Lemma killed_needsCreation s target port fwd :
  regGet (getPortForwardKey target port) (registeredPortForwards s) = Some fwd ->
  killedOf s (proc fwd) = true ->
  needsCreation (getPortForwardKey target port) s.
Proof. intros Hreg Hk. unfold needsCreation. now rewrite Hreg. Qed.

(** X18.  After [killPortForward] for a registered key, the next call of
    [getPortForward] for that key does not return the descriptor that is
    still in the registry: it spawns a new process with the port of a new
    call of [getPort], and waits for its readiness. *)
Theorem respawn_after_kill s target port fwd :
  reachable s -> lock s = None ->
  regGet (getPortForwardKey target port) (registeredPortForwards s) = Some fwd ->
  killError (proc fwd) = None ->
  regGet (getPortForwardKey target port)
    (registeredPortForwards
       (step (GetPortForward target port) (step (KillPortForward target port) s)))
  = Some fwd
  /\ tunnels (step (GetPortForward target port) (step (KillPortForward target port) s))
     = (tunnels (step (KillPortForward target port) s)
        ++ [fresh target port (length (tunnels s))])%list
  /\ lock (step (GetPortForward target port) (step (KillPortForward target port) s))
     = Some (length (tunnels s))
  /\ exists call,
       calls (step (GetPortForward target port) (step (KillPortForward target port) s))
         !! length (calls s) = Some call
       /\ c_status call = Creating (length (tunnels s))
       /\ result (step (GetPortForward target port) (step (KillPortForward target port) s))
            call = Pending.
Proof.
  intros Hr Hlock Hreg Hnone.
  pose proof (reachable_step getPort killError (KillPortForward target port) s Hr) as Hr1.
  assert (H1 : killedOnly s (step (KillPortForward target port) s)
               /\ killedOf (step (KillPortForward target port) s) (proc fwd) = true).
  { destruct (killPortForward_step s target port Hr) as (_ & _ & Hcases).
    destruct (Hcases fwd Hreg) as (Hdead & Hlive & _).
    destruct (killedOf s (proc fwd)) eqn:Hk.
    - rewrite (Hdead eq_refl). split; [apply killedOnly_refl|assumption].
    - destruct (Hlive eq_refl Hnone) as (Hko & Hk1 & _). auto. }
  destruct H1 as [(Hreg1 & Hcalls1 & _ & Hlock1 & _ & Hlen1 & _) Hk1].
  destruct (acquire_spawns (step (KillPortForward target port) s) target port Hr1)
    as (Ht & Hl & Hrg & Hc).
  - congruence.
  - apply (killed_needsCreation _ target port fwd); [congruence|assumption].
  - rewrite Hlen1 in Ht, Hl, Hc. rewrite Hcalls1 in Hc.
    split; [congruence|]. split; [assumption|]. split; [assumption|].
    eexists. split; [exact Hc|]. split; [reflexivity|].
    unfold result. simpl. rewrite Ht, <- Hlen1. now rewrite lookup_snoc_new.
Qed.

(** X19.  The close handler deletes whatever descriptor sits under the key
    of its process, without looking whose it is: when a successor was
    created for the same key and is registered, the late close event of the
    old process unregisters the successor, whose process goes on running
    untouched, and the next call for the key spawns yet another process. *)
Theorem stale_close_unregisters_successor s p t fwd code :
  reachable s -> tunnels s !! p = Some t ->
  regGet (keyOf (portForward t)) (registeredPortForwards s) = Some fwd ->
  proc fwd <> p ->
  regGet (keyOf (portForward t)) (registeredPortForwards (step (Close p code) s)) = None
  /\ tunnels (step (Close p code) s) !! proc fwd = tunnels s !! proc fwd
  /\ (lock (step (Close p code) s) = None ->
      tunnels (step (GetPortForward (targetResource (portForward t))
                       (port (portForward t))) (step (Close p code) s))
      = (tunnels (step (Close p code) s)
         ++ [fresh (targetResource (portForward t)) (port (portForward t))
               (length (tunnels (step (Close p code) s)))])%list).
Proof.
  intros Hr Ht Hreg Hne.
  destruct (close_effect getPort killError s p t code Hr Ht) as (Hgone & _).
  split; [exact Hgone|]. split.
  - destruct (reachable_Inv getPort killError s Hr) as [HI _].
    destruct (inv_reg _ _ HI _ _ (regGet_In _ _ _ Hreg)) as (_ & u & Hu & _).
    destruct (step_move (Close p code) s (proc fwd) u Hu) as (u' & Hu' & Hm).
    rewrite Hu, Hu'. f_equal. inversion Hm; subst; try reflexivity.
    + simpl in *. contradiction.
    + contradiction.
  - intros Hlock.
    apply acquire_spawns; [now apply reachable_step|assumption|].
    unfold needsCreation. fold (keyOf (portForward t)). now rewrite Hgone.
Qed.

(** ** What the streams and the handlers never do *)

Lemma settle_uncaught p v s : uncaught (settle p v s) = uncaught s.
Proof.
  unfold settle. destruct (tunnels s !! p) as [t|]; [|reflexivity].
  destruct (promise t); try reflexivity.
  destruct (lock s) as [l|]; [destruct (Nat.eqb l p)|]; reflexivity.
Qed.

Lemma handle_uncaught ev s : uncaught (fst (handle ev s)) = uncaught s.
Proof.
  destruct ev as [target port|q code|q error|q line|q line|q|target port|]; simpl.
  - reflexivity.
  - unfold onClose. destruct (tunnels s !! q) as [u|]; [|reflexivity].
    set (s1 := match regGet _ _ with Some _ => _ | None => s end).
    assert (H1 : uncaught s1 = uncaught s) by (subst s1; now destruct (regGet _ _)).
    destruct (negb (resolved u)); simpl; now rewrite ?settle_uncaught.
  - unfold Forward.onError. destruct (tunnels s !! q); [|reflexivity].
    pose proof (killUnlessKilled_killedOnly q s) as (_ & _ & _ & _ & H & _).
    now destruct (killUnlessKilled q s) as [s1 [e|]].
  - unfold onStdout. destruct (tunnels s !! q) as [u|]; [|reflexivity].
    destruct (resolved u); [reflexivity|]. now destruct (includes _ line).
  - unfold Forward.onStderr. destruct (tunnels s !! q) as [u|]; [|reflexivity].
    destruct (fatal line); [|reflexivity].
    now pose proof (killUnlessKilled_killedOnly q
                      (setTunnels (<[q := setOutput (output u +:+ line) u]> (tunnels s)) s))
      as (_ & _ & _ & _ & H & _).
  - unfold onTimeout. destruct (tunnels s !! q) as [u|]; [|reflexivity].
    destruct (sleeping u); [|reflexivity]. simpl. now rewrite settle_uncaught.
  - now pose proof (killPortForward_killedOnly target port s) as (_ & _ & _ & _ & H & _).
  - now pose proof (killAll_killedOnly (map snd (registeredPortForwards s)) s)
      as (_ & _ & _ & _ & H & _).
Qed.

Lemma killUnlessKilled_quiet q s :
  (forall p, killError p = None) -> snd (killUnlessKilled q s) = None.
Proof.
  intros Hnone.
  destruct (killUnlessKilled_cases killError q s)
    as [[_ ->]|[(_ & e & He & _)|(_ & _ & s1 & -> & _)]]; try reflexivity.
  rewrite Hnone in He. discriminate.
Qed.

Lemma killAll_quiet values s :
  (forall p, killError p = None) -> snd (killAll values s) = None.
Proof.
  intros Hnone. revert s. induction values as [|fwd values IH]; intros s; simpl;
    [reflexivity|].
  unfold Forward.killPortForward. destruct (regGet _ _) as [reg|]; [|apply IH].
  pose proof (killUnlessKilled_quiet (proc reg) s Hnone) as H.
  destruct (killUnlessKilled (proc reg) s) as [s1 [e|]]; [discriminate H|apply IH].
Qed.

(** X20.  When [kill] does not raise, the error handler is the only handler
    that throws: a turn adds an uncaught exception exactly for an error
    event of a spawned process, and that exception is the event's error. *)
Theorem only_error_events_throw s ev :
  (forall p, killError p = None) ->
  uncaught (step ev s)
  = match ev with
    | Error p error =>
        match tunnels s !! p with
        | Some _ => (uncaught s ++ [error])%list
        | None => uncaught s
        end
    | _ => uncaught s
    end.
Proof.
  intros Hnone. rewrite (step_uncaught getPort killError), handle_uncaught.
  destruct ev as [target port|q code|q error|q line|q line|q|target port|]; simpl.
  - reflexivity.
  - unfold onClose. destruct (tunnels s !! q) as [u|]; [|reflexivity].
    now destruct (negb (resolved u)).
  - unfold Forward.onError. destruct (tunnels s !! q); [|reflexivity].
    pose proof (killUnlessKilled_quiet q s Hnone) as H.
    destruct (killUnlessKilled q s) as [s1 [e|]]; [discriminate H|reflexivity].
  - unfold onStdout. destruct (tunnels s !! q) as [u|]; [|reflexivity].
    destruct (resolved u); [reflexivity|]. now destruct (includes _ line).
  - unfold Forward.onStderr. destruct (tunnels s !! q) as [u|]; [|reflexivity].
    destruct (fatal line); [|reflexivity]. now rewrite killUnlessKilled_quiet.
  - unfold onTimeout. destruct (tunnels s !! q) as [u|]; [|reflexivity].
    now destruct (sleeping u).
  - unfold Forward.killPortForward. destruct (regGet _ _); [|reflexivity].
    now rewrite killUnlessKilled_quiet.
  - unfold Forward.cleanup. now rewrite killAll_quiet.
Qed.

(** X21.  Readiness is read from stdout only and kills come from stderr
    only: a stderr line, even one that holds the readiness marker, neither
    registers nor marks ready nor settles any tunnel; a stdout line, even one
    that holds a fatal substring, kills no process and throws nothing. *)
Theorem stream_roles s p line q t :
  tunnels s !! q = Some t ->
  registeredPortForwards (step (Stderr p line) s) = registeredPortForwards s
  /\ (exists t', tunnels (step (Stderr p line) s) !! q = Some t'
                 /\ resolved t' = resolved t /\ promise t' = promise t
                 /\ sleeping t' = sleeping t)
  /\ uncaught (step (Stdout p line) s) = uncaught s
  /\ exists t', tunnels (step (Stdout p line) s) !! q = Some t'
                /\ killed t' = killed t /\ promise t' = promise t.
Proof.
  intros Ht. split; [|split; [|split]].
  - rewrite (step_registered getPort killError). simpl. unfold Forward.onStderr.
    destruct (tunnels s !! p) as [u|]; [|reflexivity].
    destruct (fatal line); [|reflexivity].
    now pose proof (killUnlessKilled_killedOnly p
                      (setTunnels (<[p := setOutput (output u +:+ line) u]> (tunnels s)) s))
      as (H & _).
  - destruct (step_move (Stderr p line) s q t Ht) as (t' & Ht' & Hm).
    exists t'. split; [assumption|].
    inversion Hm; subst; simpl; auto; simpl in *; contradiction.
  - rewrite (step_uncaught getPort killError), handle_uncaught. simpl. unfold onStdout.
    destruct (tunnels s !! p) as [u|]; [|reflexivity].
    destruct (resolved u); [reflexivity|]. now destruct (includes _ line).
  - destruct (step_move (Stdout p line) s q t Ht) as (t' & Ht' & Hm).
    exists t'. split; [assumption|].
    inversion Hm; subst; simpl; auto; simpl in *; contradiction.
Qed.

(** ** The handlers *)

Lemma killPortForwards_killEach service ports reg s :
  registeredPortForwards s = reg ->
  killPortForwards service ports s
  = killEach killError
      (omap (fun port => proc <$> regGet (targetKey service port) reg) ports) s.
Proof.
  revert s. induction ports as [|port ports IH]; intros s Hreg; [reflexivity|].
  simpl. unfold Forward.killPortForward. fold (targetKey service port). rewrite Hreg.
  destruct (regGet (targetKey service port) reg) as [fwd|]; simpl; [|now apply IH].
  pose proof (killUnlessKilled_killedOnly (proc fwd) s) as (Hreg1 & _).
  destruct (killUnlessKilled (proc fwd) s) as [s1 [e|]]; [reflexivity|].
  apply IH. simpl in Hreg1. congruence.
Qed.

Lemma In_listed_procs service ports reg q :
  In q (omap (fun port => proc <$> regGet (targetKey service port) reg) ports)
  <-> exists port fwd, In port ports /\ regGet (targetKey service port) reg = Some fwd
                       /\ proc fwd = q.
Proof.
  rewrite <- list_elem_of_In, list_elem_of_omap. split.
  - intros (port & Hin & Hq). apply list_elem_of_In in Hin.
    destruct (regGet (targetKey service port) reg) as [fwd|] eqn:E; [|discriminate].
    injection Hq as <-. eauto.
  - intros (port & fwd & Hin & Hreg & <-). exists port.
    split; [now apply list_elem_of_In|]. now rewrite Hreg.
Qed.

Lemma killPortForwards_listed service ports s :
  (forall port fwd,
     In port ports ->
     regGet (targetKey service port) (registeredPortForwards s) = Some fwd ->
     killedOf s (proc fwd) = false -> killError (proc fwd) = None) ->
  snd (killPortForwards service ports s) = None
  /\ killedOnly s (fst (killPortForwards service ports s))
  /\ (forall port fwd,
        In port ports ->
        regGet (targetKey service port) (registeredPortForwards s) = Some fwd ->
        killedOf (fst (killPortForwards service ports s)) (proc fwd) = true)
  /\ (forall q,
        (forall port fwd,
           In port ports ->
           regGet (targetKey service port) (registeredPortForwards s) = Some fwd ->
           proc fwd <> q) ->
        tunnels (fst (killPortForwards service ports s)) !! q = tunnels s !! q).
Proof.
  intros Hquiet.
  rewrite (killPortForwards_killEach service ports (registeredPortForwards s) s eq_refl).
  destruct (killEach_all killError
              (omap (fun port => proc <$> regGet (targetKey service port)
                                            (registeredPortForwards s)) ports) s)
    as (Hnone & Hall).
  { intros q Hq Hk. apply In_listed_procs in Hq as (port & fwd & Hin & Hreg & <-). eauto. }
  split; [assumption|]. split; [apply killEach_killedOnly|]. split.
  - intros port fwd Hin Hreg. apply Hall. apply In_listed_procs. eauto.
  - intros q Hq. apply killEach_untouched.
    intros Hin. apply In_listed_procs in Hin as (port & fwd & Hin & Hreg & Heq).
    exact (Hq port fwd Hin Hreg Heq).
Qed.

(** X22.  [killPortForwards] kills the process of every listed port that is
    registered under the key of its target, and no other process: ports that
    are not registered are passed over, the registry, the calls and the lock
    are left as they are, and nothing is thrown when no [kill] raises. *)
Theorem killPortForwards_kills_listed service ports s :
  (forall port fwd,
     In port ports ->
     regGet (targetKey service port) (registeredPortForwards s) = Some fwd ->
     killedOf s (proc fwd) = false -> killError (proc fwd) = None) ->
  snd (killPortForwards service ports s) = None
  /\ killedOnly s (fst (killPortForwards service ports s))
  /\ (forall port fwd,
        In port ports ->
        regGet (targetKey service port) (registeredPortForwards s) = Some fwd ->
        killedOf (fst (killPortForwards service ports s)) (proc fwd) = true)
  /\ (forall q,
        (forall port fwd,
           In port ports ->
           regGet (targetKey service port) (registeredPortForwards s) = Some fwd ->
           proc fwd <> q) ->
        tunnels (fst (killPortForwards service ports s)) !! q = tunnels s !! q).
Proof. exact (killPortForwards_listed service ports s). Qed.

Lemma handler_event appNamespace namespace service targetName targetPort ns ev :
  getPortForwardHandler appNamespace namespace service targetName targetPort
  = HandlerCalls ns ev ->
  ev = GetPortForward (getTargetResource service targetName) targetPort.
Proof.
  unfold getPortForwardHandler.
  destruct namespace as [given|]; [destruct (given =? "")%string|];
    destruct appNamespace; intros H; congruence.
Qed.

Lemma timeout_registered p s :
  registeredPortForwards (step (Timeout p) s) = registeredPortForwards s.
Proof.
  rewrite (step_registered getPort killError). simpl. unfold onTimeout.
  destruct (tunnels s !! p) as [t|]; [|reflexivity].
  destruct (sleeping t); [|reflexivity]. simpl. now rewrite settle_registered.
Qed.

(** X23.  [getPortForwardHandler], when no live forward is registered for
    the target and the lock is free: once the new process prints the
    readiness marker and the timer fires, the handler answers with host
    [localhost] and the local port that [getPort] gave for that process;
    the descriptor is then registered under the target's key, so
    [killPortForwards] for the same target name and port kills that process. *)
Theorem handler_round_trip s appNamespace namespace service targetName targetPort ns ev line :
  reachable s -> lock s = None ->
  getPortForwardHandler appNamespace namespace service targetName targetPort
  = HandlerCalls ns ev ->
  needsCreation (getPortForwardKey (getTargetResource service targetName) targetPort) s ->
  includes "Forwarding from " line = true ->
  (exists call,
     calls (run [ev; Stdout (length (tunnels s)) line; Timeout (length (tunnels s))] s)
       !! length (calls s) = Some call
     /\ handlerResult
          (result (run [ev; Stdout (length (tunnels s)) line;
                        Timeout (length (tunnels s))] s) call)
        = Some (inr {| hostname := "localhost";
                       gpf_port := getPort (length (tunnels s)) |}))
  /\ (killError (length (tunnels s)) = None ->
      killedOf (run [ev; Stdout (length (tunnels s)) line;
                     Timeout (length (tunnels s))] s) (length (tunnels s)) = false
      /\ killedOf
           (fst (killPortForwards service
                   [ {| pt_targetName := targetName; pt_targetPort := targetPort |} ]
                   (run [ev; Stdout (length (tunnels s)) line;
                         Timeout (length (tunnels s))] s)))
           (length (tunnels s)) = true).
Proof.
  intros Hr Hlock Hev Hneed Hline.
  apply handler_event in Hev. subst ev.
  set (target := getTargetResource service targetName) in *.
  set (p := length (tunnels s)).
  pose proof (window_open getPort killError s target targetPort Hr Hlock Hneed) as Hw0.
  fold p in Hw0.
  pose proof (window_ready getPort killError target targetPort _ p 0 _ line Hw0 Hline)
    as Hw1.
  pose proof (window_timeout getPort killError target targetPort _ p 0 _ Hw1)
    as (_ & Hcalls).
  change (run [GetPortForward target targetPort; Stdout p line; Timeout p] s)
    with (step (Timeout p)
            (step (Stdout p line) (step (GetPortForward target targetPort) s))).
  set (s2 := step (Stdout p line) (step (GetPortForward target targetPort) s)) in *.
  split.
  - destruct (Hcalls (length (calls s))) as (call & Hc & Hres); [lia|].
    exists call. split; [assumption|]. now rewrite Hres.
  - intros Hnone.
    destruct Hw1 as (Hr2 & _ & _ & (t & Ht & Hfwd & Hk & Hp & Hres & Hsl & Hreg) & _).
    assert (Ht3 : tunnels (step (Timeout p) s2) !! p
                  = Some (setPromise (Fulfilled (portForward t)) (setSleeping None t)))
      by exact (timeout_effect getPort killError s2 p t 250 Ht Hsl Hp).
    assert (Hk3 : killedOf (step (Timeout p) s2) p = false)
      by (unfold killedOf; now rewrite Ht3).
    split; [assumption|].
    pose proof (timeout_registered p s2) as Hreg3.
    destruct (killPortForwards_listed service
                [ {| pt_targetName := targetName; pt_targetPort := targetPort |} ]
                (step (Timeout p) s2)) as (_ & _ & Hall & _).
    + intros port fwd [<-|[]]. unfold targetKey. simpl. fold target.
      rewrite Hreg3. unfold keyOf in Hreg. simpl in Hreg. rewrite Hreg.
      intros [= <-] _. exact Hnone.
    + apply (Hall _ {| targetResource := target; port := targetPort;
                       localPort := getPort p; proc := p |} (or_introl eq_refl)).
      unfold targetKey. simpl. fold target. rewrite Hreg3.
      unfold keyOf in Hreg. simpl in Hreg. exact Hreg.
Qed.

End WithProcesses.

Lemma tunnel_moves_witness :
  exists t',
    tunnels (step samplePort noKillError (Stdout 0 readyLine)
               (run samplePort noKillError [GetPortForward "Service/web" 8080] init))
      !! 0%nat = Some t'
    /\ Move 0 (Stdout 0 readyLine) (Lifecycle.fresh samplePort "Service/web" 8080 0) t'.
Proof.
  exact (tunnel_moves samplePort noKillError (Stdout 0 readyLine)
           (run samplePort noKillError [GetPortForward "Service/web" 8080] init)
           0%nat _ eq_refl).
Defined.

Lemma getPortForwardKey_inj_witness :
  "Deployment/api" = "Deployment/api" /\ 8080 = 8080.
Proof.
  exact (getPortForwardKey_inj "Deployment/api" 8080 "Deployment/api" 8080 eq_refl).
Defined.

Lemma tunnel_never_goes_back_witness :
  exists t',
    tunnels (run samplePort noKillError
               [Stdout 0 readyLine; Timeout 0; Stderr 0 "lost connection"; Close 0 None]
               (run samplePort noKillError [GetPortForward "Service/web" 8080] init))
      !! 0%nat = Some t'
    /\ grown (Lifecycle.fresh samplePort "Service/web" 8080 0) t'.
Proof.
  exact (tunnel_never_goes_back samplePort noKillError
           [Stdout 0 readyLine; Timeout 0; Stderr 0 "lost connection"; Close 0 None]
           (run samplePort noKillError [GetPortForward "Service/web" 8080] init)
           0%nat _ eq_refl).
Defined.

Lemma registry_lookup_sound_witness :
  List.NoDup (map fst (registeredPortForwards (run samplePort noKillError twoTunnels init)))
  /\ "Service/db" = "Service/db" /\ 5432 = 5432
  /\ 40001 = samplePort 1
  /\ exists t, tunnels (run samplePort noKillError twoTunnels init) !! 1%nat = Some t
               /\ portForward t = {| targetResource := "Service/db"; port := 5432;
                                     localPort := 40001; proc := 1 |}
               /\ status t = StatusActive.
Proof.
  exact (registry_lookup_sound samplePort noKillError
           (run samplePort noKillError twoTunnels init) "Service/db" 5432
           {| targetResource := "Service/db"; port := 5432; localPort := 40001; proc := 1 |}
           (reachable_sample twoTunnels) eq_refl).
Defined.

Lemma one_creation_at_a_time_witness :
  exists t,
    tunnels (run samplePort noKillError
               (twoTunnels ++ [GetPortForward "Deployment/api" 80;
                               GetPortForward "Service/web" 8080])%list init) !! 2%nat
    = Some t
    /\ promise t = Pending.
Proof.
  exact (proj1 (proj2 (one_creation_at_a_time samplePort noKillError
                         (run samplePort noKillError
                            (twoTunnels ++ [GetPortForward "Deployment/api" 80;
                                            GetPortForward "Service/web" 8080])%list init)
                         (reachable_sample _))) 2%nat eq_refl).
Defined.

Lemma settled_result_is_final_witness :
  calls (run samplePort noKillError
           [Close 0 (Some 1); GetPortForward "Service/web" 8080]
           (run samplePort noKillError
              [GetPortForward "Service/web" 8080; Stdout 0 readyLine; Timeout 0] init))
    !! 0%nat
  = Some {| c_targetResource := "Service/web"; c_port := 8080; c_status := Creating 0 |}
  /\ result (run samplePort noKillError
               [Close 0 (Some 1); GetPortForward "Service/web" 8080]
               (run samplePort noKillError
                  [GetPortForward "Service/web" 8080; Stdout 0 readyLine; Timeout 0] init))
       {| c_targetResource := "Service/web"; c_port := 8080; c_status := Creating 0 |}
     = Fulfilled {| targetResource := "Service/web"; port := 8080;
                    localPort := 40000; proc := 0 |}.
Proof.
  apply (settled_result_is_final samplePort noKillError
           (run samplePort noKillError
              [GetPortForward "Service/web" 8080; Stdout 0 readyLine; Timeout 0] init)
           0%nat
           {| c_targetResource := "Service/web"; c_port := 8080; c_status := Creating 0 |}
           [Close 0 (Some 1); GetPortForward "Service/web" 8080]).
  - apply reachable_sample.
  - reflexivity.
  - discriminate.
Defined.

Lemma fulfilled_answer_matches_request_witness :
  "Service/web" = "Service/web" /\ 8080 = 8080 /\ 40000 = samplePort 0
  /\ exists t,
       tunnels (run samplePort noKillError
                  [GetPortForward "Service/web" 8080; Stdout 0 readyLine; Timeout 0] init)
         !! 0%nat = Some t
       /\ portForward t = {| targetResource := "Service/web"; port := 8080;
                             localPort := 40000; proc := 0 |}
       /\ status t = StatusActive.
Proof.
  exact (fulfilled_answer_matches_request samplePort noKillError
           (run samplePort noKillError
              [GetPortForward "Service/web" 8080; Stdout 0 readyLine; Timeout 0] init)
           0%nat
           {| c_targetResource := "Service/web"; c_port := 8080; c_status := Creating 0 |}
           {| targetResource := "Service/web"; port := 8080; localPort := 40000; proc := 0 |}
           (reachable_sample _) eq_refl eq_refl).
Defined.

Lemma pending_until_close_or_ready_witness :
  lock (run samplePort noKillError
          [Stderr 0 "error forwarding port 8080"; Error 0 "spawn failed";
           KillPortForward "Service/web" 8080; Timeout 0; Cleanup]
          (run samplePort noKillError [GetPortForward "Service/web" 8080] init))
  = Some 0%nat
  /\ exists t',
       tunnels (run samplePort noKillError
                  [Stderr 0 "error forwarding port 8080"; Error 0 "spawn failed";
                   KillPortForward "Service/web" 8080; Timeout 0; Cleanup]
                  (run samplePort noKillError [GetPortForward "Service/web" 8080] init))
         !! 0%nat = Some t'
       /\ status t' = StatusPending /\ promise t' = Pending.
Proof.
  apply (pending_until_close_or_ready samplePort noKillError
           (run samplePort noKillError [GetPortForward "Service/web" 8080] init) 0%nat
           (Lifecycle.fresh samplePort "Service/web" 8080 0)).
  - apply reachable_sample.
  - reflexivity.
  - reflexivity.
  - reflexivity.
  - intros ev [<-|[<-|[<-|[<-|[<-|[]]]]]]; simpl; auto.
Defined.

Lemma killPortForward_effect_witness :
  registeredPortForwards
    (step samplePort noKillError (KillPortForward "Service/web" 8080)
       (run samplePort noKillError twoTunnels init))
  = registeredPortForwards (run samplePort noKillError twoTunnels init)
  /\ killedOf (step samplePort noKillError (KillPortForward "Service/web" 8080)
                 (run samplePort noKillError twoTunnels init)) 0 = true
  /\ tunnels (step samplePort noKillError (KillPortForward "Service/web" 8080)
                (run samplePort noKillError twoTunnels init)) !! 1%nat
     = tunnels (run samplePort noKillError twoTunnels init) !! 1%nat.
Proof.
  destruct (killPortForward_effect samplePort noKillError
              (run samplePort noKillError twoTunnels init) "Service/web" 8080
              (reachable_sample twoTunnels)) as (Hreg & _ & Hcases).
  destruct (Hcases {| targetResource := "Service/web"; port := 8080;
                      localPort := 40000; proc := 0 |} eq_refl) as (_ & Hlive & _).
  destruct (Hlive eq_refl eq_refl) as (_ & Hk & Hother).
  split; [exact Hreg|]. split; [exact Hk|]. apply Hother. discriminate.
Defined.

Lemma respawn_after_kill_witness :
  regGet "Service/web:8080"
    (registeredPortForwards
       (run samplePort noKillError
          [GetPortForward "Service/web" 8080; Stdout 0 readyLine; Timeout 0;
           KillPortForward "Service/web" 8080; GetPortForward "Service/web" 8080] init))
  = Some {| targetResource := "Service/web"; port := 8080; localPort := 40000; proc := 0 |}
  /\ lock (run samplePort noKillError
             [GetPortForward "Service/web" 8080; Stdout 0 readyLine; Timeout 0;
              KillPortForward "Service/web" 8080; GetPortForward "Service/web" 8080] init)
     = Some 1%nat.
Proof.
  destruct (respawn_after_kill samplePort noKillError
              (run samplePort noKillError
                 [GetPortForward "Service/web" 8080; Stdout 0 readyLine; Timeout 0] init)
              "Service/web" 8080
              {| targetResource := "Service/web"; port := 8080;
                 localPort := 40000; proc := 0 |}
              (reachable_sample _) eq_refl eq_refl eq_refl) as (Hreg & _ & Hlock & _).
  vm_compute in Hreg, Hlock |- *. split; [exact Hreg|exact Hlock].
Defined.

Lemma stale_close_unregisters_successor_witness :
  regGet "Service/web:8080"
    (registeredPortForwards
       (run samplePort noKillError
          [GetPortForward "Service/web" 8080; Stdout 0 readyLine; Timeout 0;
           KillPortForward "Service/web" 8080; GetPortForward "Service/web" 8080;
           Stdout 1 readyLine; Timeout 1; Close 0 None] init))
  = None
  /\ killedOf (run samplePort noKillError
                 [GetPortForward "Service/web" 8080; Stdout 0 readyLine; Timeout 0;
                  KillPortForward "Service/web" 8080; GetPortForward "Service/web" 8080;
                  Stdout 1 readyLine; Timeout 1; Close 0 None] init) 1
     = false.
Proof.
  destruct (stale_close_unregisters_successor samplePort noKillError
              (run samplePort noKillError
                 [GetPortForward "Service/web" 8080; Stdout 0 readyLine; Timeout 0;
                  KillPortForward "Service/web" 8080; GetPortForward "Service/web" 8080;
                  Stdout 1 readyLine; Timeout 1] init)
              0%nat _
              {| targetResource := "Service/web"; port := 8080;
                 localPort := 40001; proc := 1 |}
              None (reachable_sample _) eq_refl eq_refl) as (Hgone & Hsame & _).
  - discriminate.
  - vm_compute in Hgone, Hsame |- *. split; [exact Hgone|].
    reflexivity.
Defined.

Lemma only_error_events_throw_witness :
  uncaught (step samplePort noKillError (Error 0 "spawn ENOENT")
              (run samplePort noKillError [GetPortForward "Service/web" 8080] init))
  = ["spawn ENOENT"].
Proof.
  exact (only_error_events_throw samplePort noKillError
           (run samplePort noKillError [GetPortForward "Service/web" 8080] init)
           (Error 0 "spawn ENOENT") (fun p => eq_refl)).
Defined.

Lemma stream_roles_witness :
  (exists t',
     tunnels (step samplePort noKillError (Stderr 0 readyLine)
                (run samplePort noKillError [GetPortForward "Service/web" 8080] init))
       !! 0%nat = Some t'
     /\ resolved t' = false /\ promise t' = Pending /\ sleeping t' = None)
  /\ exists t',
       tunnels (step samplePort noKillError (Stdout 0 "error forwarding port 8080")
                  (run samplePort noKillError [GetPortForward "Service/web" 8080] init))
         !! 0%nat = Some t'
       /\ killed t' = false /\ promise t' = Pending.
Proof.
  destruct (stream_roles samplePort noKillError
              (run samplePort noKillError [GetPortForward "Service/web" 8080] init)
              0%nat readyLine 0%nat _ eq_refl) as (_ & Herr & _).
  destruct (stream_roles samplePort noKillError
              (run samplePort noKillError [GetPortForward "Service/web" 8080] init)
              0%nat "error forwarding port 8080" 0%nat _ eq_refl) as (_ & _ & _ & Hout).
  split; [exact Herr|exact Hout].
Defined.

Lemma killPortForwards_kills_listed_witness :
  snd (killPortForwards noKillError {| gs_name := "web" |}
         [ {| pt_targetName := None; pt_targetPort := 8080 |};
           {| pt_targetName := Some "Deployment/api"; pt_targetPort := 80 |} ]
         (run samplePort noKillError twoTunnels init)) = None
  /\ killedOf (fst (killPortForwards noKillError {| gs_name := "web" |}
                      [ {| pt_targetName := None; pt_targetPort := 8080 |};
                        {| pt_targetName := Some "Deployment/api"; pt_targetPort := 80 |} ]
                      (run samplePort noKillError twoTunnels init))) 0 = true
  /\ tunnels (fst (killPortForwards noKillError {| gs_name := "web" |}
                     [ {| pt_targetName := None; pt_targetPort := 8080 |};
                       {| pt_targetName := Some "Deployment/api"; pt_targetPort := 80 |} ]
                     (run samplePort noKillError twoTunnels init))) !! 1%nat
     = tunnels (run samplePort noKillError twoTunnels init) !! 1%nat.
Proof.
  destruct (killPortForwards_kills_listed noKillError {| gs_name := "web" |}
              [ {| pt_targetName := None; pt_targetPort := 8080 |};
                {| pt_targetName := Some "Deployment/api"; pt_targetPort := 80 |} ]
              (run samplePort noKillError twoTunnels init)
              (fun _ _ _ _ _ => eq_refl)) as (Hnone & _ & Hall & Hother).
  split; [exact Hnone|]. split.
  - exact (Hall {| pt_targetName := None; pt_targetPort := 8080 |}
             {| targetResource := "Service/web"; port := 8080;
                localPort := 40000; proc := 0 |} (or_introl eq_refl) eq_refl).
  - apply Hother. intros port fwd [<-|[<-|[]]]; vm_compute; [intros [= <-]|]; discriminate.
Defined.

Lemma handler_round_trip_witness :
  (exists call,
     calls (run samplePort noKillError
              [GetPortForward "Service/web" 8080; Stdout 0 readyLine; Timeout 0] init)
       !! 0%nat = Some call
     /\ handlerResult
          (result (run samplePort noKillError
                     [GetPortForward "Service/web" 8080; Stdout 0 readyLine; Timeout 0] init)
             call)
        = Some (inr {| hostname := "localhost"; gpf_port := 40000 |}))
  /\ (noKillError 0 = None ->
      killedOf (run samplePort noKillError
                  [GetPortForward "Service/web" 8080; Stdout 0 readyLine; Timeout 0] init) 0
      = false
      /\ killedOf
           (fst (killPortForwards noKillError {| gs_name := "web" |}
                   [ {| pt_targetName := None; pt_targetPort := 8080 |} ]
                   (run samplePort noKillError
                      [GetPortForward "Service/web" 8080; Stdout 0 readyLine; Timeout 0]
                      init))) 0
         = true).
Proof.
  exact (handler_round_trip samplePort noKillError init (inl "default") None
           {| gs_name := "web" |} None 8080 "default"
           (GetPortForward "Service/web" 8080) readyLine
           (reachable_sample []) eq_refl eq_refl I eq_refl).
Defined.

End ForwardMore.

(** * The handlers and the resolver together *)

Module HandlersMore.
Import Resolver Handlers.

Lemma service_target_nonempty service sp :
  (targetName (serviceEntry service sp) =? "")%string = false.
Proof. reflexivity. Qed.

Lemma workload_target_nonempty workload cp :
  kind workload = "Deployment" \/ kind workload = "DaemonSet" ->
  (targetName (workloadEntry workload cp) =? "")%string = false.
Proof.
  unfold workloadEntry. simpl. intros [-> | ->]; reflexivity.
Qed.

Lemma service_prefix_inj (a b : string) : "Service/" +:+ a = "Service/" +:+ b <-> a = b.
Proof.
  split; [|now intros ->].
  repeat rewrite ForwardMore.append_cons. rewrite !ForwardMore.append_nil_l.
  now intros [=].
Qed.

(** X24.  The target names that [getForwardablePorts] produces are never
    empty, so the handlers take them as they are: for an entry of the result,
    [getPortForwardHandler] asks for a forward to the entry's target and
    port, and [killPortForwards] looks up the same key, whatever the garden
    service is.  The target used when no name is given is the one the
    resolver gives to the Service resource that carries the garden service's
    name, and to no other. *)
Theorem resolved_entries_keep_their_target
    (isBuiltIn : KubernetesResource -> bool)
    (matchSelector : gmap string string -> gmap string string -> bool)
    rs out e service namespace :
  getForwardablePorts isBuiltIn matchSelector rs = Some out -> In e out ->
  getTargetResource service (pt_targetName (portTarget e)) = targetName e
  /\ getPortForwardHandler (inl namespace) None service (Some (targetName e)) (targetPort e)
     = HandlerCalls namespace (Forward.GetPortForward (targetName e) (targetPort e))
  /\ targetKey service (portTarget e)
     = Forward.getPortForwardKey (targetName e) (targetPort e)
  /\ forall r sp,
       getTargetResource service None = targetName (serviceEntry r sp)
       <-> name r = gs_name service.
Proof.
  intros Hout Hin.
  assert (Hne : (targetName e =? "")%string = false).
  { destruct (ResolverMore.entry_origin isBuiltIn matchSelector rs out e Hout Hin)
      as [(r & sp & _ & _ & _ & ->)|(r & pt & cp & _ & Hw & _ & _ & _ & ->)].
    - apply service_target_nonempty.
    - apply workload_target_nonempty. exact (ResolverMore.workload_kind isBuiltIn r Hw). }
  assert (Hget : getTargetResource service (Some (targetName e)) = targetName e)
    by (unfold getTargetResource; now rewrite Hne).
  split; [exact Hget|]. split; [|split].
  - unfold getPortForwardHandler. cbv zeta. fold (getTargetResource service (Some (targetName e))).
    now rewrite Hget.
  - unfold targetKey, portTarget. cbn [pt_targetName pt_targetPort]. now rewrite Hget.
  - intros r sp. unfold getTargetResource, serviceEntry. simpl.
    rewrite service_prefix_inj. split; congruence.
Qed.

Lemma resolved_entries_keep_their_target_witness :
  getTargetResource {| gs_name := "api" |}
    (pt_targetName (portTarget (serviceEntry webService
                                  {| sp_name := None; sp_port := 8080;
                                     sp_targetPort := Some (IntVal 8080) |})))
  = "Service/web".
Proof.
  refine (proj1 (resolved_entries_keep_their_target
                   (fun _ => true) matchSelector_subset [webService]
                   [serviceEntry webService
                      {| sp_name := None; sp_port := 8080;
                         sp_targetPort := Some (IntVal 8080) |}]
                   _ {| gs_name := "api" |} "default" _ (or_introl eq_refl))).
  vm_compute. reflexivity.
Defined.

End HandlersMore.

(** * Properties of the jib-container build handler *)

Module JibProofs.
Import Jib.

Local Arguments Jib.syncCommand : simpl never.
Local Arguments Jib.pushTimeout : simpl never.

Section WithEnvironment.

Variable defaultBuildTimeout : Z.
Variables utilDeploymentName buildkitDeploymentName utilContainerName : string.
Variable utilRsyncPort : Z.
Variable resolve : string -> string -> string.

Local Abbreviation pushTimeout := (pushTimeout defaultBuildTimeout).
Local Abbreviation syncCommand := (syncCommand defaultBuildTimeout).
Local Abbreviation build :=
  (build defaultBuildTimeout utilDeploymentName buildkitDeploymentName utilContainerName
     utilRsyncPort resolve).
Local Abbreviation trace :=
  (trace defaultBuildTimeout utilDeploymentName buildkitDeploymentName utilContainerName
     utilRsyncPort resolve).
Local Abbreviation outcome :=
  (outcome defaultBuildTimeout utilDeploymentName buildkitDeploymentName utilContainerName
     utilRsyncPort resolve).

Ltac case_run E :=
  match type of E with
  | context [match ?x with _ => _ end] =>
      lazymatch x with
      | context [match _ with _ => _ end] => fail
      | _ => destruct x eqn:?
      end
  end.

(** Every way through the handler, one goal each, with the record of calls
    and the outcome made explicit. *)
Ltac open_build params w E :=
  unfold Jib.trace, Jib.outcome;
  destruct (build params w []) as [tr r] eqn:E;
  unfold Jib.build, Jib.push, finally, bind, await, log, ret, throw, isLocal in E.

Ltac close_build E := repeat (case_run E; cbn in E); injection E as <- <-; cbn.

Ltac run_build params w :=
  let E := fresh "E" in open_build params w E; close_build E.

Ltac in_list :=
  lazymatch goal with
  | |- In _ _ => cbn; solve [repeat (first [left; reflexivity | right])]
  | |- _ \/ _ => solve [repeat (first [left; reflexivity | right])]
  end.

Ltac finish :=
  repeat split; intros;
  repeat match goal with
    | |- ~ _ => intros ?
    | u : unit |- _ => destruct u
    | H : In _ _ |- _ => cbn in H
    | H : _ \/ _ |- _ => destruct H as [H|H]
    | H : _ /\ _ |- _ => destruct H
    | H : exists _, _ |- _ => destruct H
    | H : False |- _ => destruct H
    | H : @eq Effect _ ?x |- _ => is_var x; subst x
    | H : @eq Effect _ _ |- _ => first [discriminate H | injection H as H; subst]
    | H : inr _ = inr _ |- _ => injection H as H; subst
    | H : inl _ = inl _ |- _ => injection H as H; subst
    | H : (_ =? _)%string = true |- _ => apply String.eqb_eq in H
    | H : (_ =? _)%string = false |- _ => apply String.eqb_neq in H
    end;
  try exact I; try discriminate; try congruence; try in_list.

(** X25.  The temporary directory is removed on every way out: whenever
    [makeTempDir] has answered, the last call of the run is the directory's
    [cleanup] and no earlier call is one, whether the push succeeds, an
    awaited call throws or the build mode is refused; no [cleanup] is called
    for a directory that was not made; and an exception of [cleanup] replaces
    the outcome of the run, a successful one too. *)
Theorem temp_dir_is_always_removed params w :
  (In MakeTempDir (trace params w) ->
   forall path, w_makeTempDir w = inr path ->
     last (trace params w) = Some (Cleanup path)
     /\ forall p, ~ In (Cleanup p) (List.removelast (trace params w)))
  /\ (forall p, In (Cleanup p) (trace params w) ->
        In MakeTempDir (trace params w) /\ w_makeTempDir w = inr p)
  /\ (forall p e, In (Cleanup p) (trace params w) -> w_cleanup w = inl e ->
        outcome params w = inl (Thrown e)).
Proof. run_build params w; finish. Qed.

(** X26.  A build mode other than the four that the handler knows is
    refused only inside the [try] block: the run never succeeds and never
    loads, syncs or pushes anything, but when the base handler and the calls
    before the check succeed, the tarball is built, the API client and the
    namespace are fetched and the tarball is extracted into a temporary
    directory before the ConfigurationError is thrown. *)
Theorem unexpected_build_mode_found_late params w :
  buildMode params <> "local-docker" -> buildMode params <> "cluster-docker" ->
  buildMode params <> "kaniko" -> buildMode params <> "cluster-buildkit" ->
  (exists e, outcome params w = inl e)
  /\ (forall eff, In eff (trace params w) ->
        match eff with
        | DockerCli _ _ | LoadToLocalK8s | EnsureUtilDeployment _ | EnsureBuildkit _
        | SyncToBuildSync _ _ _ _ | GetRunningDeploymentPod _ _ | Exec _ _ _ _ _ => False
        | _ => True
        end)
  /\ (forall b tarPath namespace tempDir,
        w_base w = inr b -> details b = Some (Some tarPath) -> tarPath <> "" ->
        w_factory w = inr tt -> w_namespaceName w = inr namespace ->
        w_makeTempDir w = inr tempDir -> w_mkdirp w = inr tt -> w_tarX w = inr tt ->
        trace params w
        = [ Base true "oci"; KubeApiFactory; GetNamespaceStatus; MakeTempDir;
            Mkdirp (resolve tempDir (moduleName params));
            LogDebug ("Extracting built image tarball from " +:+ tarPath +:+ " to "
                      +:+ resolve tempDir (moduleName params));
            TarX (resolve tempDir (moduleName params)) tarPath;
            Cleanup tempDir ]
        /\ outcome params w
           = match w_cleanup w with
             | inl e => inl (Thrown e)
             | inr _ => inl (ConfigurationError
                               ("Unexpected buildMode " +:+ buildMode params)
                               (buildMode params))
             end).
Proof.
  intros H1 H2 H3 H4.
  apply String.eqb_neq in H1, H2, H3, H4.
  open_build params w E. rewrite H1, H2, H3, H4 in E. simpl in E.
  close_build E; finish; eauto.
Qed.

(** X27.  In the build modes [local-docker] and [cluster-docker] the
    handler stays on the local machine: apart from the base handler it only
    loads the tarball into the docker daemon with [docker load --input] and
    then into the local cluster; the deprecation warning is logged for
    [cluster-docker] alone; and the run succeeds, with the base handler's
    result, exactly when the base handler gave a tarball path and both loads
    went through. *)
Theorem local_modes_only_load params w :
  buildMode params = "local-docker" \/ buildMode params = "cluster-docker" ->
  (forall eff, In eff (trace params w) ->
     eff = Base true "oci" \/ eff = LogWarn \/ eff = LoadToLocalK8s
     \/ exists tarPath, eff = DockerCli (buildPath params) ["load"; "--input"; tarPath])
  /\ (In LogWarn (trace params w) -> buildMode params = "cluster-docker")
  /\ (forall b,
        outcome params w = inr b
        <-> w_base w = inr b
            /\ (exists tarPath, details b = Some (Some tarPath) /\ tarPath <> "")
            /\ w_dockerCli w = inr tt /\ w_loadToLocalK8s w = inr tt).
Proof.
  intros [H|H]; open_build params w E; rewrite H in E; simpl in E;
    close_build E; finish; eauto 6.
Qed.

(** X28.  Whatever the callees answer, the one command that the handler
    runs in a pod is [sh -c] with the skopeo copy of the synced directory to
    the module's deployment image: the timeout of the command is the module's
    build timeout, or the default when that is missing or zero, the call
    itself is given five seconds more, [--dest-tls-verify=false] is passed
    exactly when the in-cluster registry is used, and the container is the
    util container in both remote build modes. *)
Theorem push_command params w pod namespace command timeoutSec containerName :
  In (Exec pod namespace command timeoutSec containerName) (trace params w) ->
  containerName = utilContainerName
  /\ timeoutSec = pushTimeout params + 5
  /\ (exists dataPath,
        w_dataPath w = inr dataPath
        /\ command
           = [ "sh"; "-c";
               "skopeo --command-timeout=" +:+ Forward.showZ (pushTimeout params)
               +:+ "s copy --authfile /.docker/config.json"
               +:+ (if inClusterRegistry params then " --dest-tls-verify=false" else "")
               +:+ " oci:" +:+ dataPath
               +:+ " docker://" +:+ deploymentImageId params ])
  /\ w_namespaceName w = inr namespace /\ w_pod w = inr pod
  /\ (buildMode params = "kaniko" \/ buildMode params = "cluster-buildkit").
Proof.
  run_build params w; intros Hin; finish; eauto.
  all: eexists; split; [reflexivity|];
    destruct (inClusterRegistry params); cbn;
    rewrite ?ForwardMore.append_assoc; reflexivity.
Qed.

(** X29.  A run that succeeds returns the result of the base handler as it
    is, the base handler was called first, for a tarball only and in the
    [oci] format, and gave a tarball path; and the image was either loaded
    into the local cluster, or pushed from the pod and the temporary
    directory removed last. *)
Theorem success_returns_base_result params w b :
  outcome params w = inr b ->
  w_base w = inr b
  /\ head (trace params w) = Some (Base true "oci")
  /\ (exists tarPath, details b = Some (Some tarPath) /\ tarPath <> "")
  /\ ((isLocal (buildMode params) = true /\ last (trace params w) = Some LoadToLocalK8s)
      \/ (isLocal (buildMode params) = false
          /\ (exists tempDir,
                w_makeTempDir w = inr tempDir
                /\ last (trace params w) = Some (Cleanup tempDir))
          /\ exists pod namespace command,
               In (Exec pod namespace command (pushTimeout params + 5) utilContainerName)
                 (trace params w))).
Proof.
  unfold Jib.trace, Jib.outcome.
  destruct (build params w []) as [tr r] eqn:E.
  unfold Jib.build, Jib.push, finally, bind, await, log, ret, throw in E.
  close_build E; intros Hout; try discriminate Hout; injection Hout as <-.
  all: split; [reflexivity|]; split; [reflexivity|]; split; [finish; eauto|].
  all: first [left; split; reflexivity
             |right; split; [reflexivity|]; split; [eauto|]; do 3 eexists;
              repeat (first [left; reflexivity | right])].
Qed.

(** X30.  Nothing is loaded, synced or pushed unless the base handler gave
    a tarball path: when the base handler throws, or its result has no
    [details], or no [tarPath] or an empty one, the base handler is the only
    call of the run, and the run ends with the handler's exception, a
    TypeError or the PluginError; otherwise a second call is made. *)
Theorem nothing_without_tarball params w :
  (forall e, w_base w = inl e ->
     trace params w = [Base true "oci"] /\ outcome params w = inl (Thrown e))
  /\ (forall b, w_base w = inr b -> details b = None ->
        trace params w = [Base true "oci"] /\ outcome params w = inl TypeError)
  /\ (forall b, w_base w = inr b ->
        details b = Some None \/ details b = Some (Some "") ->
        trace params w = [Base true "oci"]
        /\ outcome params w
           = inl (PluginError
                    "Expected details.tarPath from the jib-container build handler."))
  /\ (forall b tarPath, w_base w = inr b ->
        details b = Some (Some tarPath) -> tarPath <> "" ->
        exists eff more, trace params w = Base true "oci" :: eff :: more).
Proof.
  split; [|split; [|split]].
  - intros e He. open_build params w E. rewrite He in E. now injection E as <- <-.
  - intros b Hb Hd. open_build params w E. rewrite Hb in E. simpl in E.
    rewrite Hd in E. now injection E as <- <-.
  - intros b Hb [Hd|Hd]; open_build params w E; rewrite Hb in E; simpl in E;
      rewrite Hd in E; now injection E as <- <-.
  - intros b tarPath Hb Hd Hne. apply String.eqb_neq in Hne.
    open_build params w E. rewrite Hb in E. simpl in E. rewrite Hd, Hne in E.
    close_build E; eauto.
Qed.

End WithEnvironment.

Lemma unexpected_build_mode_found_late_witness :
  outcome 1200 "garden-util" "garden-buildkit" "util" 8730 joinPath
    (remoteParams "podman") fineWorld
  = inl (ConfigurationError "Unexpected buildMode podman" "podman").
Proof.
  destruct (unexpected_build_mode_found_late 1200 "garden-util" "garden-buildkit" "util"
              8730 joinPath (remoteParams "podman") fineWorld) as (_ & _ & H);
    try discriminate.
  exact (proj2 (H builtResult "/project/api/target/jib-image.tar" "dev" "/tmp/garden-1"
                  eq_refl eq_refl ltac:(discriminate) eq_refl eq_refl eq_refl eq_refl
                  eq_refl)).
Defined.

Lemma local_modes_only_load_witness :
  outcome 1200 "garden-util" "garden-buildkit" "util" 8730 joinPath
    (remoteParams "cluster-docker") fineWorld
  = inr builtResult.
Proof.
  destruct (local_modes_only_load 1200 "garden-util" "garden-buildkit" "util" 8730
              joinPath (remoteParams "cluster-docker") fineWorld
              (or_intror eq_refl)) as (_ & _ & H).
  apply H. split; [reflexivity|]. split; [|split; reflexivity].
  exists "/project/api/target/jib-image.tar". split; [reflexivity|discriminate].
Defined.

Lemma push_command_witness :
  "util" = "util"
  /\ 1205 = Jib.pushTimeout 1200 (remoteParams "cluster-buildkit") + 5
  /\ (exists dataPath,
        w_dataPath fineWorld = inr dataPath
        /\ [ "sh"; "-c";
             "skopeo --command-timeout=1200s copy --authfile /.docker/config.json --dest-tls-verify=false oci:/data/tmp/api docker://registry.local/api:v-1" ]
           = [ "sh"; "-c";
               "skopeo --command-timeout="
               +:+ Forward.showZ (Jib.pushTimeout 1200 (remoteParams "cluster-buildkit"))
               +:+ "s copy --authfile /.docker/config.json"
               +:+ (if inClusterRegistry (remoteParams "cluster-buildkit")
                    then " --dest-tls-verify=false" else "")
               +:+ " oci:" +:+ dataPath
               +:+ " docker://" +:+ deploymentImageId (remoteParams "cluster-buildkit") ])
  /\ w_namespaceName fineWorld = inr "dev" /\ w_pod fineWorld = inr "garden-util-0"
  /\ (buildMode (remoteParams "cluster-buildkit") = "kaniko"
      \/ buildMode (remoteParams "cluster-buildkit") = "cluster-buildkit").
Proof.
  apply (push_command 1200 "garden-util" "garden-buildkit" "util" 8730 joinPath
           (remoteParams "cluster-buildkit") fineWorld).
  vm_compute. do 11 right. left. reflexivity.
Defined.

Lemma success_returns_base_result_witness :
  w_base fineWorld = inr builtResult
  /\ head (Jib.trace 1200 "garden-util" "garden-buildkit" "util" 8730 joinPath
             (remoteParams "kaniko") fineWorld) = Some (Base true "oci")
  /\ last (Jib.trace 1200 "garden-util" "garden-buildkit" "util" 8730 joinPath
             (remoteParams "kaniko") fineWorld) = Some (Cleanup "/tmp/garden-1").
Proof.
  destruct (success_returns_base_result 1200 "garden-util" "garden-buildkit" "util" 8730
              joinPath (remoteParams "kaniko") fineWorld builtResult eq_refl)
    as (Hbase & Hhead & _ & _).
  split; [exact Hbase|]. split; [exact Hhead|reflexivity].
Defined.

End JibProofs.
